(** * kamrecsys: probabilistic matrix factorization (PMF)

    A shallow embedding of [kamrecsys/score_predictor/matrix_factorization.py]
    (class [PMF]), of [EventUtilMixin.to_iid_event] in
    [kamrecsys/data/event.py] and of [BaseEventRecommender.predict] in
    [kamrecsys/recommenders.py].

    Numbers.  The source computes with IEEE doubles; the embedding computes
    with the real numbers of the Standard Library, so every statement below
    is about the exact arithmetic that the floating-point code approximates
    (no rounding, no NaN, no infinities).  Where the code divides a numpy
    float by the integer 0 ([loss] and [grad_loss] on a batch without
    event) it delivers nan; the reals have no such value, and the
    theorems on the value of [loss] or [grad_loss] are stated for batches
    with at least one event (the auxiliary lemmas that do not need the
    assumption speak of the real-valued model only).  Indices are
    Python/numpy integers and are modelled by [Z], with numpy's
    wrap-around for negative indices.

    Errors.  Python exceptions are values of [pyexc]; a computation that may
    raise returns a [result]. *)

From Stdlib Require Import Reals Lra ZArith Lia.
From stdpp Require Import base list gmap.

Open Scope R_scope.

(** ** Exceptions and the error monad *)

Inductive pyexc : Type :=
| IndexError
| ValueError
| TypeError
| ZeroDivisionError
| OverflowError.

Inductive result (A : Type) : Type :=
| Ok (a : A)
| Raise (e : pyexc).
Arguments Ok {A} a.
Arguments Raise {A} e.

Definition rbind {A B} (m : result A) (f : A -> result B) : result B :=
  match m with
  | Ok a => f a
  | Raise e => Raise e
  end.

Notation "'let*' x ':=' m 'in' k" := (rbind m (fun x => k))
  (at level 10, x name, m at level 100, k at level 200).

Fixpoint rmapM {A B} (f : A -> result B) (l : list A) : result (list B) :=
  match l with
  | [] => Ok []
  | x :: l' =>
      let* y := f x in
      let* ys := rmapM f l' in
      Ok (y :: ys)
  end.

(** A left-to-right loop threading a state, as a Python [for] over [l]. *)
Fixpoint rfoldM {A S} (f : S -> A -> result S) (s : S) (l : list A)
  : result S :=
  match l with
  | [] => Ok s
  | x :: l' => let* s' := f s x in rfoldM f s' l'
  end.

Definition is_raise {A} (m : result A) : Prop :=
  exists e, m = Raise e.

(** ** numpy primitives *)

Module Np.

(** [np.sum] of a one-dimensional array. *)
Definition sum (l : list R) : R := foldr Rplus 0 l.

(** Position of index [i] in an axis of length [n]: a negative index
    counts from the end, anything outside [-n, n) is an IndexError. *)
Definition norm_index (n : nat) (i : Z) : option nat :=
  if ((0 <=? i) && (i <? Z.of_nat n))%Z then Some (Z.to_nat i)
  else if ((- Z.of_nat n <=? i) && (i <? 0))%Z
       then Some (Z.to_nat (i + Z.of_nat n))
       else None.

(** [a[i]] for an integer [i]. *)
Definition getitem {A} (a : list A) (i : Z) : result A :=
  match norm_index (length a) i with
  | Some j => match a !! j with
              | Some x => Ok x
              | None => Raise IndexError
              end
  | None => Raise IndexError
  end.

(** [a[idx]] for an integer array [idx] (fancy indexing). *)
Definition take {A} (a : list A) (idx : list Z) : result (list A) :=
  rmapM (getitem a) idx.

(** [np.nonzero(col == i)[0]]: the positions of [col] holding [i]. *)
Fixpoint nonzero_eq_from (pos : nat) (col : list Z) (i : Z) : list Z :=
  match col with
  | [] => []
  | x :: col' =>
      if (x =? i)%Z
      then Z.of_nat pos :: nonzero_eq_from (S pos) col' i
      else nonzero_eq_from (S pos) col' i
  end.
Definition nonzero_eq (col : list Z) (i : Z) : list Z :=
  nonzero_eq_from 0 col i.

(** Elementwise binary operation on one-dimensional arrays with numpy's
    broadcasting: equal lengths, or one side of length one. *)
Definition broadcast2 (op : R -> R -> R) (a b : list R)
  : result (list R) :=
  if (length a =? length b)%nat then Ok (zip_with op a b)
  else match a, b with
       | [x], _ => Ok (map (op x) b)
       | _, [y] => Ok (map (fun x => op x y) a)
       | _, _ => Raise ValueError
       end.

(** [np.sum(a * b, axis=1)] for two arrays of the same shape (n, k). *)
Definition rowdot (a b : list (list R)) : list R :=
  zip_with (fun r s => sum (zip_with Rmult r s)) a b.

(** One step of [np.bincount]'s accumulation loop: [out[i] += w]. *)
Definition bin_add (out : list R) (i : nat) (w : R) : list R :=
  match out !! i with
  | Some x => <[i := x + w]> out
  | None => out
  end.

(** [np.bincount(idx, weights=w, minlength=m)]: negative entries are a
    ValueError, the result has [max (1 + max idx) m] bins and bin [b] is
    the sum of the weights of the entries equal to [b]. *)
Definition bincount (idx : list Z) (w : list R) (m : nat)
  : result (list R) :=
  if forallb (fun i => (0 <=? i)%Z) idx then
    if (length idx =? length w)%nat then
      let n := foldr (fun i acc => Nat.max (S (Z.to_nat i)) acc) m idx in
      Ok (foldl (fun out iw => bin_add out (Z.to_nat iw.1) iw.2)
                (replicate n 0) (zip idx w))
    else Raise ValueError
  else Raise ValueError.

(** [dst[:] = src] on one-dimensional arrays. *)
Definition assign_all (dst src : list R) : result (list R) :=
  if (length src =? length dst)%nat then Ok src
  else match src with
       | [x] => Ok (replicate (length dst) x)
       | _ => Raise ValueError
       end.

End Np.

(** ** Parameter layout: the structured dtype [_dt] and its views *)

(** The five fields of [self._dt], in their declared order. *)
Inductive field : Type := Fmu | Fbu | Fbi | Fp | Fq.

Definition field_eqb (f g : field) : bool :=
  match f, g with
  | Fmu, Fmu | Fbu, Fbu | Fbi, Fbi | Fp, Fp | Fq, Fq => true
  | _, _ => false
  end.

(** [np.dtype([('mu', float, (1,)), ('bu', float, n_users),
    ('bi', float, n_items), ('p', float, (n_users, k)),
    ('q', float, (n_items, k))])], sizes counted in elements.  The fields
    [mu], [p] and [q] are declared with a tuple and are arrays whatever
    the sizes are.  The fields [bu] and [bi] are declared with an integer
    size n: they are arrays of n entries, except for n = 1, which the
    numpy releases that still provide [np.float] read as a plain float, so
    that the field is a scalar and not an array of one entry
    ([scalar_field] below). *)
Record dtype : Type := mkDtype {
  dt_n_users : nat;
  dt_n_items : nat;
  dt_k : nat
}.

(** The call of [np.dtype] itself: a negative size is refused with a
    ValueError; every other size, 0 included, is accepted. *)
Definition np_dtype (n_users n_items k : Z) : result dtype :=
  if ((n_users <? 0) || (n_items <? 0) || (k <? 0))%Z then Raise ValueError
  else Ok (mkDtype (Z.to_nat n_users) (Z.to_nat n_items) (Z.to_nat k)).

Definition dt_fields : list field := [Fmu; Fbu; Fbi; Fp; Fq].

(** Shape of a field as (rows, columns); one-dimensional fields have one
    column. *)
Definition field_shape (dt : dtype) (f : field) : nat * nat :=
  match f with
  | Fmu => (1, 1)
  | Fbu => (dt_n_users dt, 1)
  | Fbi => (dt_n_items dt, 1)
  | Fp => (dt_n_users dt, dt_k dt)
  | Fq => (dt_n_items dt, dt_k dt)
  end%nat.

Definition field_size (dt : dtype) (f : field) : nat :=
  ((field_shape dt f).1 * (field_shape dt f).2)%nat.

(** Fields are packed one after the other: the offset of a field is the
    total size of the fields declared before it. *)
Fixpoint offset_in (dt : dtype) (fs : list field) (f : field) : nat :=
  match fs with
  | [] => 0
  | g :: fs' =>
      if field_eqb g f then 0
      else field_size dt g + offset_in dt fs' f
  end%nat.

Definition field_offset (dt : dtype) (f : field) : nat :=
  offset_in dt dt_fields f.

Definition itemsize (dt : dtype) : nat :=
  foldr (fun f acc => field_size dt f + acc)%nat 0%nat dt_fields.

(** The window of the flat buffer that a field aliases. *)
Definition window (dt : dtype) (f : field) (coef : list R) : list R :=
  take (field_size dt f) (drop (field_offset dt f) coef).

(** [coef.view(self._dt)[f][0]] for a field that is an array, seen as the
    flat list of its entries: the buffer must hold a whole number of
    records, and record 0 must exist. *)
Definition view (dt : dtype) (coef : list R) (f : field)
  : result (list R) :=
  if (length coef mod itemsize dt =? 0)%nat then
    if (length coef =? 0)%nat then Raise IndexError
    else Ok (window dt f coef)
  else Raise ValueError.

(** Row-major reshape of a flat window into [n] rows of [k] columns. *)
Definition reshape (n k : nat) (l : list R) : list (list R) :=
  map (fun r => take k (drop (r * k) l)) (seq 0 n).

(** [coef.view(self._dt)[f][0]] for a two-dimensional field. *)
Definition view2 (dt : dtype) (coef : list R) (f : field)
  : result (list (list R)) :=
  let* w := view dt coef f in
  Ok (reshape (field_shape dt f).1 (field_shape dt f).2 w).

(** Writing [v] at position [i] of the view of an array field [f] (for
    [p] and [q], [i] is the row-major position [row * k + column]): the
    view shares the storage of the buffer, so the write lands in the
    buffer. *)
Definition view_set (dt : dtype) (f : field) (i : nat) (v : R)
  (coef : list R) : list R :=
  <[(field_offset dt f + i)%nat := v]> coef.

(** The fields that the dtype declares as a scalar: [bu] with one user
    and [bi] with one item. *)
Definition scalar_field (dt : dtype) (f : field) : bool :=
  match f with
  | Fbu => (dt_n_users dt =? 1)%nat
  | Fbi => (dt_n_items dt =? 1)%nat
  | _ => false
  end.

(** What [coef.view(self._dt)[f][0]] is for a field declared with an
    integer size, as [bu] and [bi] are: an array that shares the storage
    of the buffer, or, for a scalar field, a numpy float holding a copy
    of the entry. *)
Inductive fview : Type :=
| Scalar (x : R)
| Array (w : list R).

Definition fwindow (dt : dtype) (f : field) (coef : list R) : fview :=
  if scalar_field dt f then Scalar (default 0 (window dt f coef !! 0%nat))
  else Array (window dt f coef).

(** [coef.view(self._dt)[f][0]] for [bu] and [bi]; for the other fields
    it is the array of the flat entries. *)
Definition view1 (dt : dtype) (coef : list R) (f : field)
  : result fview :=
  let* _ := view dt coef f in
  Ok (fwindow dt f coef).

(** [b[i]] and [b[idx]]: a numpy float accepts no integer index. *)
Definition vgetitem (b : fview) (i : Z) : result R :=
  match b with
  | Scalar _ => Raise IndexError
  | Array w => Np.getitem w i
  end.

Definition vtake (b : fview) (idx : list Z) : result (list R) :=
  match b with
  | Scalar _ => Raise IndexError
  | Array w => Np.take w idx
  end.

(** The entries of [b] where numpy broadcasts it ([b ** 2], [reg * b],
    [np.r_[b, 0.0]]). *)
Definition vvalues (b : fview) : list R :=
  match b with
  | Scalar x => [x]
  | Array w => w
  end.

(** [view[i] = v] on the view of field [f] taken from [coef], as in
    [self.bu_[i] = v]: a numpy float supports no item assignment. *)
Definition vset (dt : dtype) (f : field) (i : nat) (v : R)
  (coef : list R) : result (list R) :=
  if scalar_field dt f then Raise TypeError
  else Ok (view_set dt f i v coef).

(** Writing a whole block through the view of field [f]
    ([view[0:n, :] = block]). *)
Fixpoint view_fill_from (dt : dtype) (f : field) (i : nat)
  (block : list R) (coef : list R) : list R :=
  match block with
  | [] => coef
  | v :: block' => view_fill_from dt f (S i) block' (view_set dt f i v coef)
  end.
Definition view_fill (dt : dtype) (f : field) (block : list R)
  (coef : list R) : list R :=
  view_fill_from dt f 0 block coef.

(** ** The random-number source

    [self._rng] is modelled by the stream of standard normal variates it
    will deliver; [normal loc scale size] consumes [size] of them. *)

Definition rng_state : Type := nat -> R.

Definition normal (loc scale : R) (size : nat) (rng : rng_state)
  : list R * rng_state :=
  (map (fun i => loc + scale * rng i) (seq 0 size),
   fun i => rng (size + i)%nat).

(** ** Class PMF *)

(** Constructor arguments kept by [PMF.__init__], which stores them
    without any check.  The number of factors and, below, the object
    counts are natural numbers; [np_dtype] says what the construction of
    the layout does with a negative size. *)
Record PMF : Type := mkPMF {
  C : R;
  k : nat;
  tol : option R;
  maxiter : nat
}.

(** The private instance variables set by [_init_coef]. *)
Record pmf_state : Type := mkState {
  _dt : dtype;
  _coef : list R;
  _reg : R;
  _rng : rng_state
}.

(** An event array of shape (n_events, 2): rows (user, item). *)
Definition events : Type := list (Z * Z).

Section InitCoef.

Variable self : PMF.
Variables (ev : events) (sc : list R) (n_users n_items : nat).

Let dt : dtype := mkDtype n_users n_items (k self).

(** Body of [for i in xrange(n_users)]. *)
Definition init_bu (coef : list R) (i : nat) : result (list R) :=
  let j := Np.nonzero_eq (ev.*1) (Z.of_nat i) in
  if (0 <? length j)%nat then
    let* scj := Np.take sc j in
    let* mu0 := Np.getitem (window dt Fmu coef) 0 in
    vset dt Fbu i
         (Np.sum (map (fun s => s - mu0) scj) / INR (length j)) coef
  else Ok coef.

(** Body of [for i in xrange(n_items)]. *)
Definition init_bi (coef : list R) (i : nat) : result (list R) :=
  let j := Np.nonzero_eq (ev.*2) (Z.of_nat i) in
  if (0 <? length j)%nat then
    let* scj := Np.take sc j in
    let* mu0 := Np.getitem (window dt Fmu coef) 0 in
    let* uj := Np.take (ev.*1) j in
    let* buj := vtake (fwindow dt Fbu coef) uj in
    vset dt Fbi i
         (Np.sum (zip_with (fun s b => s - (mu0 + b)) scj buj)
          / INR (length j)) coef
  else Ok coef.

(** Body of [for i in xrange(n_events)] accumulating [var]. *)
Definition init_var (coef : list R) (var : R) (i : nat) : result R :=
  let* s := Np.getitem sc (Z.of_nat i) in
  let* mu0 := Np.getitem (window dt Fmu coef) 0 in
  let* e := Np.getitem ev (Z.of_nat i) in
  let* b := vgetitem (fwindow dt Fbu coef) e.1 in
  let* c := vgetitem (fwindow dt Fbi coef) e.2 in
  Ok (var + (s - (mu0 + b + c)) ^ 2).

Definition _init_coef (rng : rng_state) : result pmf_state :=
  let n_events := length ev in
  let kk := k self in
  (* define dtype for parameters: the layout that the loop bodies above
     call [dt] *)
  let* dt :=
    np_dtype (Z.of_nat n_users) (Z.of_nat n_items) (Z.of_nat kk) in
  (* memory allocation *)
  let coef :=
    replicate (1 + n_users + n_items + n_users * kk + n_items * kk)%nat 0
  in
  (* set array's view *)
  let* _ := view dt coef Fmu in
  let* _ := view1 dt coef Fbu in
  let* _ := view1 dt coef Fbi in
  let* _ := view2 dt coef Fp in
  let* _ := view2 dt coef Fq in
  (* set bias term; np.sum(sc) is a numpy scalar, so a zero n_events
     does not raise here *)
  let coef := view_set dt Fmu 0 (Np.sum sc / INR n_events) coef in
  let* coef := rfoldM init_bu coef (seq 0 n_users) in
  let* coef := rfoldM init_bi coef (seq 0 n_items) in
  (* residual variance; with no event [var] is still the Python float
     0.0 and [var /= n_events] raises *)
  let* var := rfoldM (init_var coef) 0 (seq 0 n_events) in
  if (n_events =? 0)%nat then Raise ZeroDivisionError
  else
    let var := var / INR n_events in
    let '(P, rng) := normal 0 (sqrt var) (n_users * kk) rng in
    let coef := view_fill dt Fp P coef in
    let '(Q, rng) := normal 0 (sqrt var) (n_items * kk) rng in
    let coef := view_fill dt Fq Q coef in
    Ok {| _dt := dt;
          _coef := coef;
          _reg := C self / INR (1 + (kk + 1) * (n_users + n_items));
          _rng := rng |}.

End InitCoef.

(** [mu[0] + bu[ev[:, 0]] + bi[ev[:, 1]] +
    np.sum(p[ev[:, 0], :] * q[ev[:, 1], :], axis=1)], the predicted scores
    shared by [loss], [grad_loss] and [raw_predict]. *)
Definition esc_of (mu : list R) (bu bi : fview) (p q : list (list R))
  (users items : list Z) : result (list R) :=
  let* mu0 := Np.getitem mu 0 in
  let* bu_e := vtake bu users in
  let* bi_e := vtake bi items in
  let* p_e := Np.take p users in
  let* q_e := Np.take q items in
  Ok (zip_with Rplus
        (zip_with Rplus (map (Rplus mu0) bu_e) bi_e)
        (Np.rowdot p_e q_e)).

Definition sumsq (l : list R) : R := Np.sum (map (fun x => x ^ 2) l).

Section Loss.

Variable st : pmf_state.
Variables (coef : list R) (ev : events) (sc : list R).

Definition loss : result R :=
  let n_events := length ev in
  let dt := _dt st in
  let* mu := view dt coef Fmu in
  let* bu := view1 dt coef Fbu in
  let* bi := view1 dt coef Fbi in
  let* p := view2 dt coef Fp in
  let* q := view2 dt coef Fq in
  (* loss term *)
  let* esc := esc_of mu bu bi p q (ev.*1) (ev.*2) in
  let* res := Np.broadcast2 Rminus sc esc in
  let loss := sumsq res in
  (* regularization term *)
  let reg :=
    sumsq (vvalues bu) + sumsq (vvalues bi)
    + sumsq (concat p) + sumsq (concat q) in
  (* with no event the code's quotient is nan *)
  Ok (loss / INR n_events + _reg st * reg).

End Loss.

(** Column [i] of a two-dimensional array ([a[:, i]], [i] within the row
    length everywhere it is used). *)
Definition column (a : list (list R)) (i : nat) : list R :=
  map (fun row => default 0 (row !! i)) a.

(** [view[:, i] = col] through the view of the two-dimensional field [f]
    of [n] rows. *)
Definition view_set_column (dt : dtype) (f : field) (i : nat)
  (col : list R) (grad : list R) : list R :=
  foldl (fun g uv => view_set dt f (uv.1 * (field_shape dt f).2 + i) uv.2 g)
        grad (zip (seq 0 (length col)) col).

Section GradLoss.

Variable self : PMF.
Variable st : pmf_state.
Variables (coef : list R) (ev : events) (sc : list R).
Variables (n_users n_items : nat).

(** Body of [for i in xrange(self.k)] filling column [i] of the view
    [f] of the gradient by the bin counts of [idx] weighted by column
    [i] of [weights]. *)
Definition grad_column (f : field) (idx : list Z) (m : nat)
  (weights : list (list R)) (grad : list R) (i : nat)
  : result (list R) :=
  let dt := _dt st in
  let* b := Np.bincount idx (column weights i) m in
  let* col :=
    Np.assign_all (column (reshape (field_shape dt f).1
                             (field_shape dt f).2 (window dt f grad)) i)
                  b in
  Ok (view_set_column dt f i col grad).

Definition grad_loss : result (list R) :=
  let n_events := length ev in
  let dt := _dt st in
  (* set input array's view *)
  let* mu := view dt coef Fmu in
  let* bu := view1 dt coef Fbu in
  let* bi := view1 dt coef Fbi in
  let* p := view2 dt coef Fp in
  let* q := view2 dt coef Fq in
  (* create empty gradient *)
  let grad := replicate (length coef) 0 in
  let* _ := view dt grad Fmu in
  let* _ := view1 dt grad Fbu in
  let* _ := view1 dt grad Fbi in
  let* _ := view2 dt grad Fp in
  let* _ := view2 dt grad Fq in
  (* gradient of loss term; past this expression [bu] and [bi], and with
     them [grad_bu] and [grad_bi], are arrays: a scalar [bu] or [bi]
     raised here *)
  let* esc := esc_of mu bu bi p q (ev.*1) (ev.*2) in
  let* res := Np.broadcast2 Rminus sc esc in
  let neg_res := map Ropp res in
  let grad := view_set dt Fmu 0 (Np.sum neg_res) grad in
  let* b := Np.bincount (ev.*1) neg_res n_users in
  let* g_bu := Np.assign_all (window dt Fbu grad) b in
  let grad := view_fill dt Fbu g_bu grad in
  let* b := Np.bincount (ev.*2) neg_res n_items in
  let* g_bi := Np.assign_all (window dt Fbi grad) b in
  let grad := view_fill dt Fbi g_bi grad in
  let* q_e := Np.take q (ev.*2) in
  let weights := zip_with (fun r row => map (Rmult r) row) neg_res q_e in
  let* grad :=
    rfoldM (grad_column Fp (ev.*1) n_users weights) grad
           (seq 0 (k self)) in
  let* p_e := Np.take p (ev.*1) in
  let weights := zip_with (fun r row => map (Rmult r) row) neg_res p_e in
  let* grad :=
    rfoldM (grad_column Fq (ev.*2) n_items weights) grad
           (seq 0 (k self)) in
  (* re-scale gradients; with no event the code's quotients are nan or
     infinite *)
  let grad := map (fun g => g / INR n_events) grad in
  (* gradient of regularization term *)
  let grad :=
    view_fill dt Fbu
      (zip_with Rplus (window dt Fbu grad)
                (map (Rmult (_reg st)) (vvalues bu)))
      grad in
  let grad :=
    view_fill dt Fbi
      (zip_with Rplus (window dt Fbi grad)
                (map (Rmult (_reg st)) (vvalues bi)))
      grad in
  let grad :=
    view_fill dt Fp
      (concat (zip_with (zip_with Rplus)
                 (reshape (field_shape dt Fp).1 (field_shape dt Fp).2
                          (window dt Fp grad))
                 (map (map (Rmult (_reg st))) p)))
      grad in
  let grad :=
    view_fill dt Fq
      (concat (zip_with (zip_with Rplus)
                 (reshape (field_shape dt Fq).1 (field_shape dt Fq).2
                          (window dt Fq grad))
                 (map (map (Rmult (_reg st))) q)))
      grad in
  Ok grad.

End GradLoss.

(** ** Fitting *)

(** What [scipy.optimize.fmin_cg(..., full_output=True)] returns:
    [xopt], [fopt], [func_calls], [grad_calls], [warnflag]. *)
Record cg_result : Type := mkCg {
  xopt : list R;
  fopt : R;
  func_calls : nat;
  grad_calls : nat;
  warnflag : nat
}.

(** The fitted model: the attributes left on the object by [fit]. *)
Record fit_results : Type := mkFitResults {
  initial_loss : R;
  final_loss : R;
  fr_n_users : nat;
  fr_n_items : nat;
  fr_n_events : nat;
  fr_func_calls : nat;
  fr_grad_calls : nat;
  fr_warnflag : nat
}.

Record fitted : Type := mkFitted {
  mu_ : list R;
  bu_ : list R;
  bi_ : list R;
  p_ : list (list R);
  q_ : list (list R);
  fit_results_ : fit_results
}.

Section Fit.

(** The external optimizer: objective, initial point, gradient, [gtol]
    and [maxiter]. *)
Variable fmin_cg :
  (list R -> result R) -> list R -> (list R -> result (list R)) ->
  option R -> nat -> result cg_result.

(** "add parameters for unknown users and items" and "store fitting
    results". *)
Definition add_unknown (self : PMF) (st : pmf_state) (coef : list R)
  (i_loss : R) (n_users n_items n_events : nat) (res : cg_result)
  : result fitted :=
  let dt := _dt st in
  let* mu := view dt coef Fmu in
  let* bu := view1 dt coef Fbu in
  let* bi := view1 dt coef Fbi in
  let* p := view2 dt coef Fp in
  let* q := view2 dt coef Fq in
  Ok {| mu_ := mu;
        bu_ := vvalues bu ++ [0];
        bi_ := vvalues bi ++ [0];
        p_ := p ++ [replicate (k self) 0];
        q_ := q ++ [replicate (k self) 0];
        fit_results_ :=
          {| initial_loss := i_loss;
             final_loss := fopt res;
             fr_n_users := n_users;
             fr_n_items := n_items;
             fr_n_events := n_events;
             fr_func_calls := func_calls res;
             fr_grad_calls := grad_calls res;
             fr_warnflag := warnflag res |} |}.

(** [PMF.fit], from "initialize coefficients" on: [ev], [sc] and the
    object counts are what [get_event] and [get_score] deliver. *)
Definition fit (self : PMF) (ev : events) (sc : list R)
  (n_users n_items : nat) (maxiter_arg : option nat) (rng : rng_state)
  : result fitted :=
  let* st := _init_coef self ev sc n_users n_items rng in
  let gtol := tol self in
  let maxit :=
    match maxiter_arg with
    | None => (maxiter self * length (_coef st))%nat
    | Some m => (m * length (_coef st))%nat
    end in
  let* i_loss := loss st (_coef st) ev sc in
  let* res :=
    fmin_cg (fun c => loss st c ev sc) (_coef st)
            (fun c => grad_loss self st c ev sc n_users n_items)
            gtol maxit in
  let* coef := Np.assign_all (_coef st) (xopt res) in
  add_unknown self st coef i_loss n_users n_items (length ev) res.

End Fit.

(** ** Prediction *)

(** A two-dimensional integer array as the list of its rows. *)
Definition int_array2 : Type := list (list Z).

(** [a[:, c]] *)
Definition icolumn (a : int_array2) (c : Z) : result (list Z) :=
  rmapM (fun row => Np.getitem row c) a.

Definition raw_predict (m : fitted) (ev : int_array2)
  : result (list R) :=
  let* users := icolumn ev 0 in
  let* items := icolumn ev 1 in
  esc_of (mu_ m) (Array (bu_ m)) (Array (bi_ m)) (p_ m) (q_ m)
         users items.

(** The attributes of a recommender that come from its training data
    ([_set_object_info], [_set_event_info]), together with its fitted
    model. *)
Record recommender : Type := mkRecommender {
  n_objects : list Z;
  iid : list (gmap Z Z);
  event_otypes : list Z;
  s_event : nat;
  model : fitted
}.

(** [a.shape[1]] of a two-dimensional array with at least one row. *)
Definition shape1 (a : int_array2) : nat :=
  match a with
  | [] => 0
  | row :: _ => length row
  end.

(** [new_ev[:, c] = col] *)
Definition set_icolumn (a : int_array2) (c : nat) (col : list Z)
  : int_array2 :=
  zip_with (fun row v => <[c := v]> row) a col.

Section ToIid.

Variable self : recommender.

(** Body of [for e in xrange(self.s_event)] in the two-dimensional
    branch of [to_iid_event]. *)
Definition to_iid_column (missing_values : list Z) (ev : int_array2)
  (new_ev : int_array2) (e : nat) : result int_array2 :=
  let* ot := Np.getitem (event_otypes self) (Z.of_nat e) in
  let* d := Np.getitem (iid self) ot in
  let* col := icolumn ev (Z.of_nat e) in
  let* new_col :=
    rmapM (fun i =>
             let* mv := Np.getitem missing_values (Z.of_nat e) in
             Ok (default mv (d !! i))) col in
  Ok (set_icolumn new_ev e new_col).

(** [to_iid_event(ev)] with [missing_values=None] on a two-dimensional
    array. *)
Definition to_iid_event (ev : int_array2) : result int_array2 :=
  let* missing_values := Np.take (n_objects self) (event_otypes self) in
  if (shape1 ev =? s_event self)%nat then
    rfoldM (to_iid_column missing_values ev) ev (seq 0 (s_event self))
  else Raise TypeError.

(** [BaseEventRecommender.predict]: [eev] is the array after
    [np.atleast_2d]; [check_array] rejects an array without rows or
    without columns. *)
Definition predict (eev : int_array2) : result (list R) :=
  match eev with
  | [] => Raise ValueError
  | row :: _ =>
      if (length row =? 0)%nat then Raise ValueError
      else if negb (shape1 eev =? s_event self)%nat then Raise TypeError
      else
        let* iev := to_iid_event eev in
        raw_predict (model self) iev
  end.

End ToIid.

(** ** The specification's reading of the buffer

    The five named regions at their stated offsets: global bias (length
    1), user biases (length n_users), item biases (length n_items), user
    factors (n_users rows of k, row-major), item factors (n_items rows of
    k, row-major). *)

Definition slice (start len : nat) (l : list R) : list R :=
  take len (drop start l).

Record regions : Type := mkRegions {
  r_mu : list R;
  r_bu : list R;
  r_bi : list R;
  r_p : list (list R);
  r_q : list (list R)
}.

Definition spec_regions (nu ni kk : nat) (coef : list R) : regions :=
  {| r_mu := slice 0 1 coef;
     r_bu := slice 1 nu coef;
     r_bi := slice (1 + nu) ni coef;
     r_p := map (fun u => slice (1 + nu + ni + u * kk) kk coef) (seq 0 nu);
     r_q := map (fun i => slice (1 + nu + ni + nu * kk + i * kk) kk coef)
                (seq 0 ni) |}.

Definition spec_length (nu ni kk : nat) : nat :=
  (1 + nu + ni + kk * nu + kk * ni)%nat.

(** ** The specification's loss

    Predicted score of an event, and the regularized squared-error loss,
    as the specification words them over the five named regions. *)

Definition dot (a b : list R) : R := Np.sum (zip_with Rmult a b).

Definition predicted (r : regions) (e : Z * Z) : R :=
  let u := Z.to_nat e.1 in
  let i := Z.to_nat e.2 in
  nth 0 (r_mu r) 0 + nth u (r_bu r) 0 + nth i (r_bi r) 0
  + dot (nth u (r_p r) []) (nth i (r_q r) []).

Definition spec_loss (reg_scale : R) (r : regions) (ev : events)
  (sc : list R) : R :=
  Np.sum (map (fun es => (es.2 - predicted r es.1) ^ 2) (zip ev sc))
  / INR (length ev)
  + reg_scale * (sumsq (r_bu r) + sumsq (r_bi r)
                 + sumsq (concat (r_p r)) + sumsq (concat (r_q r))).

(** Events whose indices are in range: user in [0, n_users), item in
    [0, n_items). *)
Definition valid_event (nu ni : nat) (e : Z * Z) : Prop :=
  (0 <= e.1 < Z.of_nat nu)%Z /\ (0 <= e.2 < Z.of_nat ni)%Z.

Definition valid_events (nu ni : nat) (ev : events) : Prop :=
  Forall (valid_event nu ni) ev.

(** ** The specification's initial biases *)

Definition mean (l : list R) : R := Np.sum l / INR (length l).

Definition spec_global_bias (sc : list R) : R := mean sc.

(** Mean over the events of user [u] of (score - global bias); 0 for a
    user without events. *)
Definition spec_user_bias (ev : events) (sc : list R) (u : nat) : R :=
  let mine := filter (fun es => es.1.1 = Z.of_nat u) (zip ev sc) in
  match mine with
  | [] => 0
  | _ => mean (map (fun es => es.2 - spec_global_bias sc) mine)
  end.

(** Mean over the events of item [i] of (score - global bias - user bias
    of the event's user); 0 for an item without events. *)
Definition spec_item_bias (ev : events) (sc : list R) (i : nat) : R :=
  let mine := filter (fun es => es.1.2 = Z.of_nat i) (zip ev sc) in
  match mine with
  | [] => 0
  | _ =>
      mean (map (fun es => es.2 - spec_global_bias sc
                           - spec_user_bias ev sc (Z.to_nat es.1.1)) mine)
  end.

(** ** The specification's fitted model and predictor *)

(** The fitted model is the five regions of the optimizer's final
    buffer, each of the four object-indexed tensors extended by one
    fallback row of zeros. *)
Definition extended (nu ni kk : nat) (coef : list R) (m : fitted) : Prop :=
  let r := spec_regions nu ni kk coef in
  mu_ m = r_mu r /\
  bu_ m = r_bu r ++ [0] /\
  bi_ m = r_bi r ++ [0] /\
  p_ m = r_p r ++ [replicate kk 0] /\
  q_ m = r_q r ++ [replicate kk 0].

(** The rows (user, item) of a prediction request on internal indices. *)
Definition rows_of (evs : events) : int_array2 :=
  map (fun e => [e.1; e.2]) evs.

(** The named tensors of a fitted model. *)
Definition tensors (m : fitted) : regions :=
  {| r_mu := mu_ m; r_bu := bu_ m; r_bi := bi_ m;
     r_p := p_ m; r_q := q_ m |}.

(** An index accepted by numpy on an axis of length [n + 1]. *)
Definition index_accepted (n : nat) (i : Z) : Prop :=
  (- (Z.of_nat n + 1) <= i <= Z.of_nat n)%Z.

(** numpy's reading of an accepted index: a negative index counts from
    the end of the axis of length [n + 1]. *)
Definition wrap (n : nat) (i : Z) : Z :=
  if (i <? 0)%Z then (i + (Z.of_nat n + 1))%Z else i.

Definition wrap_event (nu ni : nat) (e : Z * Z) : Z * Z :=
  (wrap nu e.1, wrap ni e.2).

(** ** A small training run

    Three users and two items; the events (0, 0), (0, 1), (1, 0) and
    (2, 1) with scores 5, 3, 4 and 2; one latent factor and C = 1/10; a
    random source that always delivers 0; and an optimizer that returns
    its initial point.  The buffer of this layout has 11 entries. *)

Definition example_self : PMF := mkPMF (1 / 10) 1 None 200.
Definition example_ev : events := [(0, 0); (0, 1); (1, 0); (2, 1)]%Z.
Definition example_sc : list R := [5; 3; 4; 2].
Definition example_zeros : list R := replicate 11 0.
Definition example_coef : list R := [3; 1; 0; -1; 1; -1; 1; 1; 1; 1; 1].
Definition example_rng : rng_state := fun _ => 0.

(** The id tables of that run: users 10, 11, 12 and items 20, 21. *)
Definition example_users : gmap Z Z :=
  <[10%Z := 0%Z]> (<[11%Z := 1%Z]> {[12%Z := 2%Z]}).
Definition example_items : gmap Z Z := <[20%Z := 0%Z]> {[21%Z := 1%Z]}.

Definition cg_stay (f : list R -> result R) (x0 : list R)
  (fprime : list R -> result (list R)) (gtol : option R) (maxit : nat)
  : result cg_result :=
  Ok (mkCg x0 0 0 0 0).

(** ** External ids

    The internal index of an external id: its entry in the id table, or
    the fallback sentinel (the object count) when the id was never seen. *)

Definition to_iid (n : nat) (d : gmap Z Z) (eid : Z) : Z :=
  default (Z.of_nat n) (d !! eid).

(** Every entry of an id table is an internal index below the count. *)
Definition table_in_range (n : nat) (d : gmap Z Z) : Prop :=
  forall eid v, d !! eid = Some v -> (0 <= v < Z.of_nat n)%Z.

(** ** The specification's gradient

    A coordinate of the flat buffer is a region and a position in it. *)

Inductive coord : Type :=
| Cmu
| Cbu (u : nat)
| Cbi (i : nat)
| Cp (u f : nat)
| Cq (i f : nat).

Definition coord_valid (nu ni kk : nat) (c : coord) : Prop :=
  match c with
  | Cmu => True
  | Cbu u => u < nu
  | Cbi i => i < ni
  | Cp u f => u < nu /\ f < kk
  | Cq i f => i < ni /\ f < kk
  end%nat.

(** Offset of a coordinate in the flat buffer. *)
Definition coord_index (nu ni kk : nat) (c : coord) : nat :=
  match c with
  | Cmu => 0
  | Cbu u => 1 + u
  | Cbi i => 1 + nu + i
  | Cp u f => 1 + nu + ni + (u * kk + f)
  | Cq i f => 1 + nu + ni + nu * kk + (i * kk + f)
  end%nat.

(** Partial derivative of the predicted score of event [e] with respect
    to a coordinate. *)
Definition dpred (r : regions) (c : coord) (e : Z * Z) : R :=
  match c with
  | Cmu => 1
  | Cbu u => if (e.1 =? Z.of_nat u)%Z then 1 else 0
  | Cbi i => if (e.2 =? Z.of_nat i)%Z then 1 else 0
  | Cp u f =>
      if (e.1 =? Z.of_nat u)%Z
      then nth f (nth (Z.to_nat e.2) (r_q r) []) 0 else 0
  | Cq i f =>
      if (e.2 =? Z.of_nat i)%Z
      then nth f (nth (Z.to_nat e.1) (r_p r) []) 0 else 0
  end.

(** Value of a regularized coordinate; the global bias is not
    regularized. *)
Definition dreg (r : regions) (c : coord) : R :=
  match c with
  | Cmu => 0
  | Cbu u => nth u (r_bu r) 0
  | Cbi i => nth i (r_bi r) 0
  | Cp u f => nth f (nth u (r_p r) []) 0
  | Cq i f => nth f (nth i (r_q r) []) 0
  end.

(** The sum over the events of -(score - predicted) times the partial
    derivative of the prediction, over n_events, plus reg_scale times the
    regularized coordinate: one half of the partial derivative of the
    loss. *)
Definition half_grad (reg_scale : R) (r : regions) (ev : events)
  (sc : list R) (c : coord) : R :=
  Np.sum (map (fun es => - (es.2 - predicted r es.1) * dpred r c es.1)
              (zip ev sc))
  / INR (length ev)
  + reg_scale * dreg r c.

(** The exact partial derivative of the loss with respect to a
    coordinate. *)
Definition spec_grad (reg_scale : R) (r : regions) (ev : events)
  (sc : list R) (c : coord) : R :=
  2 * half_grad reg_scale r ev sc c.

(** The value of [loss] where it returns one. *)
Definition loss_value (st : pmf_state) (coef : list R) (ev : events)
  (sc : list R) : R :=
  match loss st coef ev sc with
  | Ok x => x
  | Raise _ => 0
  end.

(** Weighted count of bin [b]: the sum of the weights of the entries of
    [idx] equal to [b]. *)
Definition bin (idx : list Z) (w : list R) (b : nat) : R :=
  Np.sum (zip_with (fun i x => if (i =? Z.of_nat b)%Z then x else 0) idx w).

(** The regions after one coordinate has been given the value [t]. *)
Definition update (c : coord) (t : R) (r : regions) : regions :=
  match c with
  | Cmu =>
      mkRegions (<[0%nat := t]> (r_mu r)) (r_bu r) (r_bi r) (r_p r) (r_q r)
  | Cbu u =>
      mkRegions (r_mu r) (<[u := t]> (r_bu r)) (r_bi r) (r_p r) (r_q r)
  | Cbi i =>
      mkRegions (r_mu r) (r_bu r) (<[i := t]> (r_bi r)) (r_p r) (r_q r)
  | Cp u f =>
      mkRegions (r_mu r) (r_bu r) (r_bi r)
                (<[u := <[f := t]> (nth u (r_p r) [])]> (r_p r)) (r_q r)
  | Cq i f =>
      mkRegions (r_mu r) (r_bu r) (r_bi r) (r_p r)
                (<[i := <[f := t]> (nth i (r_q r) [])]> (r_q r))
  end.

(** The value of a coordinate. *)
Definition coord_value (r : regions) (c : coord) : R :=
  match c with
  | Cmu => nth 0 (r_mu r) 0
  | _ => dreg r c
  end.

(** Coefficient of the square of the increment in the expansion of the
    loss along a coordinate. *)
Definition curvature (reg_scale : R) (r : regions) (ev : events)
  (sc : list R) (c : coord) : R :=
  Np.sum (map (fun es => dpred r c es.1 ^ 2) (zip ev sc))
  / INR (length ev)
  + reg_scale * match c with Cmu => 0 | _ => 1 end.

(** ** Indices on an axis of length [n]

    numpy accepts the indices -n, ..., n - 1 on an axis of length [n];
    a negative index denotes the position counted from the end. *)

Definition axis_accepted (n : nat) (i : Z) : Prop :=
  (- Z.of_nat n <= i < Z.of_nat n)%Z.

Definition axis_wrap (n : nat) (i : Z) : Z :=
  if (i <? 0)%Z then (i + Z.of_nat n)%Z else i.

Definition axis_wrap_event (nu ni : nat) (e : Z * Z) : Z * Z :=
  (axis_wrap nu e.1, axis_wrap ni e.2).

(** A coordinate of a user or of an item that occurs in no event of
    [ev]. *)
Definition coord_inactive (ev : events) (c : coord) : Prop :=
  match c with
  | Cmu => False
  | Cbu u | Cp u _ => Forall (fun e => e.1 <> Z.of_nat u) ev
  | Cbi i | Cq i _ => Forall (fun e => e.2 <> Z.of_nat i) ev
  end.

(** ** The initial latent factors

    Mean over the events of the squared residual of the bias-only
    prediction (global bias + user bias + item bias) with the initial
    biases. *)
Definition spec_residual_var (ev : events) (sc : list R) : R :=
  Np.sum
    (map (fun es : Z * Z * R =>
            (es.2 - (spec_global_bias sc
                     + spec_user_bias ev sc (Z.to_nat es.1.1)
                     + spec_item_bias ev sc (Z.to_nat es.1.2))) ^ 2)
         (zip ev sc))
  / INR (length ev).

(** ** An optimizer for the concrete runs

    It evaluates the objective at the initial point and returns that
    point, as [fmin_cg] does when no iteration is allowed. *)
Definition cg_eval (f : list R -> result R) (x0 : list R)
  (fprime : list R -> result (list R)) (gtol : option R) (maxit : nat)
  : result cg_result :=
  let* v := f x0 in
  Ok (mkCg x0 v 1 0 0).

(** ** Object ids and events

    [BaseRecommender.to_eid] and [to_iid] of [kamrecsys/recommenders.py];
    [EventUtilMixin.to_eid_event] and [to_iid_event], [EventData.__init__]
    and [EventData.filter_event] of [kamrecsys/data/event.py].  External
    ids are integers, as in the conversion to internal ids above. *)

(** An integer array of one or of two dimensions.  A two-dimensional
    array is the list of its rows together with its number of columns,
    which numpy knows also when the array has no row. *)
Inductive int_ndarray : Type :=
| Arr1 (v : list Z)
| Arr2 (ncols : nat) (rows : list (list Z)).

(** The length of the axis that holds the columns of an event:
    [shape[0]] of a one-dimensional array, [shape[1]] of a
    two-dimensional one. *)
Definition event_width (a : int_ndarray) : nat :=
  match a with
  | Arr1 v => length v
  | Arr2 c _ => c
  end.

(** Every row of a two-dimensional array has [ncols] entries. *)
Definition wf_array (a : int_ndarray) : Prop :=
  match a with
  | Arr1 _ => True
  | Arr2 c rows => Forall (fun row => length row = c) rows
  end.

(** [np.min] and [np.max] of a one-dimensional array: a ValueError on an
    empty array. *)
Definition np_min (v : list Z) : result Z :=
  match v with
  | [] => Raise ValueError
  | x :: v' => Ok (foldr Z.min x v')
  end.

Definition np_max (v : list Z) : result Z :=
  match v with
  | [] => Raise ValueError
  | x :: v' => Ok (foldr Z.max x v')
  end.

(** The entries of [a] at the positions where [mask] is true. *)
Fixpoint mask_select {A} (mask : list bool) (a : list A) : list A :=
  match mask, a with
  | b :: mask', x :: a' =>
      if b then x :: mask_select mask' a' else mask_select mask' a'
  | _, _ => []
  end.

(** [a[mask]] for a boolean array [mask] over the first axis: the mask
    has to have the length of the axis, except that numpy takes a mask
    without any entry on every axis, and selects nothing. *)
Definition bool_index {A} (a : list A) (mask : list bool)
  : result (list A) :=
  if (length mask =? length a)%nat then Ok (mask_select mask a)
  else if (length mask =? 0)%nat then Ok []
  else Raise IndexError.

(** ** Integers on their way into an array of dtype [np.int]

    The entries of numpy arrays, the object counts and the internal ids
    held by the tables are machine integers, modelled by [Z] as
    everywhere in this embedding.  The [missing_values] that a caller
    passes to [to_iid_event] are Python integers: one that does not fit
    in 64 bits raises OverflowError when it is stored. *)
Definition is_int64 (x : Z) : bool :=
  ((- 2 ^ 63 <=? x) && (x <? 2 ^ 63))%Z.

(** What [iid.get(x, mv)] delivers: the internal id of a known [x], or
    the missing value. *)
Inductive fetched : Type :=
| Known (i : Z)
| Missing (mv : Z).

Definition dict_get (d : gmap Z Z) (x mv : Z) : fetched :=
  match d !! x with
  | Some i => Known i
  | None => Missing mv
  end.

Definition fetched_value (v : fetched) : Z :=
  match v with
  | Known i => i
  | Missing mv => mv
  end.

(** The store of one delivered value; [given] tells whether
    [missing_values] was passed by the caller. *)
Definition store_int (given : bool) (v : fetched) : result Z :=
  match v with
  | Known i => Ok i
  | Missing mv =>
      if given && negb (is_int64 mv) then Raise OverflowError else Ok mv
  end.

Module Container.

(** The attributes that the methods below read or write, on a data
    container ([EventData]) as on a recommender, which copies them from
    its training data: object counts and id tables per object type, and
    the event information.  [F] is the type of the feature of an
    event. *)
Record t (F : Type) : Type := mk {
  n_objects : list Z;
  eid : list (list Z);
  iid : list (gmap Z Z);
  s_event : nat;
  event_otypes : list Z;
  n_events : nat;
  event : option (list (list Z));
  event_feature : option (list F)
}.
Arguments mk {F}.
Arguments n_objects {F}.
Arguments eid {F}.
Arguments iid {F}.
Arguments s_event {F}.
Arguments event_otypes {F}.
Arguments n_events {F}.
Arguments event {F}.
Arguments event_feature {F}.

Section Methods.

Context {F : Type}.
Variable self : t F.

(** [BaseRecommender.to_eid]: [self.eid[otype][iid]], an IndexError
    becoming a ValueError. *)
Definition to_eid (otype i : Z) : result Z :=
  match (let* tbl := Np.getitem (eid self) otype in Np.getitem tbl i) with
  | Raise IndexError => Raise ValueError
  | r => r
  end.

(** [BaseRecommender.to_iid]: [self.iid[otype][eid]], the KeyError of
    the dictionary becoming a ValueError. *)
Definition to_iid (otype e : Z) : result Z :=
  let* d := Np.getitem (iid self) otype in
  match d !! e with
  | Some i => Ok i
  | None => Raise ValueError
  end.

(** [self.eid[self.event_otypes[e]][data[e]]] *)
Definition eid_of_entry (data : list Z) (e : nat) : result Z :=
  let* ot := Np.getitem (event_otypes self) (Z.of_nat e) in
  let* tbl := Np.getitem (eid self) ot in
  let* x := Np.getitem data (Z.of_nat e) in
  Np.getitem tbl x.

(** Body of [for e in xrange(self.s_event)] in the two-dimensional
    branch of [to_eid_event]. *)
Definition eid_column (data new_data : list (list Z)) (e : nat)
  : result (list (list Z)) :=
  let* ot := Np.getitem (event_otypes self) (Z.of_nat e) in
  let* tbl := Np.getitem (eid self) ot in
  let* col := icolumn data (Z.of_nat e) in
  let* new_col := Np.take tbl col in
  Ok (set_icolumn new_data e new_col).

(** [EventUtilMixin.to_eid_event]; [self.eid[0].dtype] is read after
    the list comprehension in the one-dimensional branch and before the
    loop in the two-dimensional one. *)
Definition to_eid_event (data : int_ndarray) : result int_ndarray :=
  match data with
  | Arr1 v =>
      if (length v =? s_event self)%nat then
        let* new_data := rmapM (eid_of_entry v) (seq 0 (s_event self)) in
        let* _ := Np.getitem (eid self) 0 in
        Ok (Arr1 new_data)
      else Raise TypeError
  | Arr2 c rows =>
      if (c =? s_event self)%nat then
        let* _ := Np.getitem (eid self) 0 in
        let* new_data :=
          rfoldM (eid_column rows) rows (seq 0 (s_event self)) in
        Ok (Arr2 c new_data)
      else Raise TypeError
  end.

(** [self.iid[self.event_otypes[e]].get(ev[e], missing_values[e])] *)
Definition iid_of_entry (ev missing_values : list Z) (e : nat)
  : result fetched :=
  let* ot := Np.getitem (event_otypes self) (Z.of_nat e) in
  let* d := Np.getitem (iid self) ot in
  let* x := Np.getitem ev (Z.of_nat e) in
  let* mv := Np.getitem missing_values (Z.of_nat e) in
  Ok (dict_get d x mv).

(** Body of [for e in xrange(self.s_event)] in the two-dimensional
    branch of [to_iid_event]: the list comprehension, then the store of
    the list into column [e]. *)
Definition iid_column (given : bool) (ev : list (list Z))
  (missing_values : list Z) (new_ev : list (list Z)) (e : nat)
  : result (list (list Z)) :=
  let* ot := Np.getitem (event_otypes self) (Z.of_nat e) in
  let* d := Np.getitem (iid self) ot in
  let* col := icolumn ev (Z.of_nat e) in
  let* vals :=
    rmapM (fun i =>
             let* mv := Np.getitem missing_values (Z.of_nat e) in
             Ok (dict_get d i mv)) col in
  let* new_col := rmapM (store_int given) vals in
  Ok (set_icolumn new_ev e new_col).

(** [EventUtilMixin.to_iid_event], [missing_values] being [None] or a
    list of Python integers; in the one-dimensional branch [np.array]
    stores the entries once the list comprehension has run. *)
Definition to_iid_event (ev : int_ndarray)
  (missing_values : option (list Z)) : result int_ndarray :=
  let given := match missing_values with Some _ => true | None => false end in
  let* mv :=
    match missing_values with
    | None => Np.take (n_objects self) (event_otypes self)
    | Some mv => Ok mv
    end in
  match ev with
  | Arr1 v =>
      if (length v =? s_event self)%nat then
        let* vals := rmapM (iid_of_entry v mv) (seq 0 (s_event self)) in
        let* new_ev := rmapM (store_int given) vals in
        Ok (Arr1 new_ev)
      else Raise TypeError
  | Arr2 c rows =>
      if (c =? s_event self)%nat then
        let* new_ev :=
          rfoldM (iid_column given rows mv) rows (seq 0 (s_event self)) in
        Ok (Arr2 c new_ev)
      else Raise TypeError
  end.

(** [EventData.__init__] from [self._empty_event_info()] on; [self] is
    the object left by the constructor of the base class, which is not
    part of this embedding. *)
Definition init (n_otypes : nat) (otypes : option int_ndarray)
  : result (t F) :=
  match otypes with
  | None =>
      Ok (mk (n_objects self) (eid self) (iid self) n_otypes
             (map Z.of_nat (seq 0 n_otypes)) 0 None None)
  | Some (Arr2 _ _) => Raise ValueError
  | Some (Arr1 v) =>
      let* lo := np_min v in
      if (lo <? 0)%Z then Raise ValueError
      else
        let* hi := np_max v in
        if (Z.of_nat n_otypes <=? hi)%Z then Raise ValueError
        else
          Ok (mk (n_objects self) (eid self) (iid self) (length v) v
                 0 None None)
  end.

(** [EventData.filter_event]: the method returns nothing; the result is
    the object after the call. *)
Definition filter_event (filter_cond : list bool) : result (t F) :=
  match event self with
  | None => Ok self
  | Some ev =>
      let* ev' := bool_index ev filter_cond in
      match event_feature self with
      | None =>
          Ok (mk (n_objects self) (eid self) (iid self) (s_event self)
                 (event_otypes self) (n_events self) (Some ev') None)
      | Some ft =>
          let* ft' := bool_index ft filter_cond in
          Ok (mk (n_objects self) (eid self) (iid self) (s_event self)
                 (event_otypes self) (n_events self) (Some ev')
                 (Some ft'))
      end
  end.

End Methods.

(** *** Reading of the conversions, entry by entry *)

Section Reading.

Context {F : Type}.
Variable self : t F.

(** The object type of column [e] of an event. *)
Definition otype_at (e : nat) : nat :=
  Z.to_nat (nth e (event_otypes self) 0%Z).

(** [self.n_objects[self.event_otypes]] *)
Definition counts : list Z :=
  map (fun ot => nth (Z.to_nat ot) (n_objects self) 0%Z)
      (event_otypes self).

(** Whether column [e] of [rows] holds an id that the table of the
    column's object type does not know. *)
Definition column_unknown (rows : list (list Z)) (e : nat) : Prop :=
  Exists (fun row =>
            exists x, row !! e = Some x /\
              nth (otype_at e) (iid self) ∅ !! x = None) rows.

(** The internal id of the external id [x] in column [e]: its entry in
    the table of the column's object type, or else the missing value of
    the column. *)
Definition iid_entry (mv : list Z) (e : nat) (x : Z) : Z :=
  default (nth e mv 0%Z) (nth (otype_at e) (iid self) ∅ !! x).

(** The external id of the internal id [i] in column [e]; a negative
    [i] counts from the end of the table. *)
Definition eid_entry (e : nat) (i : Z) : Z :=
  let tbl := nth (otype_at e) (eid self) [] in
  nth (Z.to_nat (axis_wrap (length tbl) i)) tbl 0%Z.

(** The counts and the tables cover [n_otypes] object types, and every
    column of an event has one of these types. *)
Definition wf (n_otypes : nat) : Prop :=
  length (n_objects self) = n_otypes /\
  length (eid self) = n_otypes /\
  length (iid self) = n_otypes /\
  length (event_otypes self) = s_event self /\
  Forall (fun ot => (0 <= ot < Z.of_nat n_otypes)%Z) (event_otypes self).

(** For every object type, the dictionary of internal ids is the
    inverse of the array of external ids. *)
Definition tables_inverse : Prop :=
  forall (ot : nat) (tbl : list Z) (d : gmap Z Z),
    eid self !! ot = Some tbl -> iid self !! ot = Some d ->
    forall x i,
      d !! x = Some i <-> (0 <= i)%Z /\ tbl !! Z.to_nat i = Some x.

(** Column [e] of an array of internal ids holds indices that numpy
    accepts on the table of its object type. *)
Definition ids_accepted (rows : list (list Z)) : Prop :=
  Forall (fun row =>
            forall e i, row !! e = Some i ->
              axis_accepted (length (nth (otype_at e) (eid self) [])) i)
         rows.

(** Column [e] of an array of internal ids holds indices of the table
    of its object type. *)
Definition ids_in_range (rows : list (list Z)) : Prop :=
  Forall (fun row =>
            forall e i, row !! e = Some i ->
              (0 <= i
               < Z.of_nat (length (nth (otype_at e) (eid self) [])))%Z)
         rows.

(** Column [e] of an array of external ids holds ids of the table of
    its object type. *)
Definition ids_known (rows : list (list Z)) : Prop :=
  Forall (fun row =>
            forall e x, row !! e = Some x ->
              is_Some (nth (otype_at e) (iid self) ∅ !! x))
         rows.

End Reading.

End Container.

(** ** A small container

    The data of the small training run: users 10, 11, 12 and items 20,
    21, the four events in internal ids, and a time stamp as the feature
    of each event. *)
Definition example_container : Container.t Z :=
  Container.mk [3; 2]%Z [[10; 11; 12]; [20; 21]]%Z
    [example_users; example_items] 2 [0; 1]%Z 4
    (Some [[0; 0]; [0; 1]; [1; 0]; [2; 1]]%Z)
    (Some [100; 101; 102; 103]%Z).

(** * Verification *)

(** ** The error monad *)

Lemma rbind_ok {A B} (m : result A) (f : A -> result B) (b : B) :
  rbind m f = Ok b -> exists a, m = Ok a /\ f a = Ok b.
Proof. destruct m as [a|e]; simpl; [eauto | discriminate]. Qed.

Lemma rmapM_ok {A B} (f : A -> result B) (g : A -> B) (l : list A) :
  Forall (fun x => f x = Ok (g x)) l -> rmapM f l = Ok (map g l).
Proof.
  induction 1 as [|x l Hx _ IH]; simpl; [reflexivity|].
  now rewrite Hx, IH.
Qed.

Lemma rmapM_length {A B} (f : A -> result B) (l : list A) (l' : list B) :
  rmapM f l = Ok l' -> length l' = length l.
Proof.
  revert l'; induction l as [|x l IH]; simpl; intros l' H.
  - now inversion H.
  - destruct (f x); simpl in H; [|discriminate].
    destruct (rmapM f l); simpl in H; [|discriminate].
    inversion H; subst; simpl; f_equal; now apply IH.
Qed.

Lemma rmapM_raise {A B} (f : A -> result B) (l : list A) (e : pyexc) :
  Exists (fun x => is_raise (f x)) l ->
  (forall x e', f x = Raise e' -> e' = e) ->
  rmapM f l = Raise e.
Proof.
  intros Hex Honly; induction Hex as [x l [e' Hx]|x l _ IH]; simpl.
  - rewrite Hx; simpl. now rewrite (Honly _ _ Hx).
  - destruct (f x) as [y|e'] eqn:Hx; simpl.
    + now rewrite IH.
    + now rewrite (Honly _ _ Hx).
Qed.

(** ** Parameter layout *)

Section Layout.

Variable dt : dtype.
Abbreviation nu := (dt_n_users dt).
Abbreviation ni := (dt_n_items dt).
Abbreviation kk := (dt_k dt).

Lemma field_size_eq (f : field) :
  field_size dt f =
  match f with
  | Fmu => 1 | Fbu => nu | Fbi => ni
  | Fp => nu * kk | Fq => ni * kk
  end%nat.
Proof. destruct f; unfold field_size; simpl; lia. Qed.

Lemma field_offset_eq (f : field) :
  field_offset dt f =
  match f with
  | Fmu => 0
  | Fbu => 1
  | Fbi => 1 + nu
  | Fp => 1 + nu + ni
  | Fq => 1 + nu + ni + nu * kk
  end%nat.
Proof.
  destruct f; unfold field_offset; simpl;
    rewrite ?field_size_eq; lia.
Qed.

Lemma itemsize_eq :
  itemsize dt = (1 + nu + ni + nu * kk + ni * kk)%nat.
Proof. unfold itemsize; simpl; rewrite !field_size_eq; lia. Qed.

Lemma field_fits (f : field) :
  (field_offset dt f + field_size dt f <= itemsize dt)%nat.
Proof.
  rewrite field_offset_eq, field_size_eq, itemsize_eq; destruct f; lia.
Qed.

(** Two different fields occupy disjoint index ranges. *)
Lemma fields_disjoint (f g : field) :
  f <> g ->
  (field_offset dt f + field_size dt f <= field_offset dt g \/
   field_offset dt g + field_size dt g <= field_offset dt f)%nat.
Proof.
  intros Hfg; rewrite !field_offset_eq, !field_size_eq.
  destruct f, g; try congruence; lia.
Qed.

Section Buffer.

Variable coef : list R.
Hypothesis Hlen : length coef = itemsize dt.

Lemma view_ok (f : field) : view dt coef f = Ok (window dt f coef).
Proof.
  unfold view. rewrite Hlen, Nat.Div0.mod_same, itemsize_eq.
  reflexivity.
Qed.

Lemma view2_ok (f : field) :
  view2 dt coef f =
  Ok (reshape (field_shape dt f).1 (field_shape dt f).2
              (window dt f coef)).
Proof. unfold view2. now rewrite view_ok. Qed.

Lemma window_length (f : field) :
  length (window dt f coef) = field_size dt f.
Proof.
  unfold window. rewrite length_take, length_drop, Hlen.
  pose proof (field_fits f). lia.
Qed.

Lemma window_lookup (f : field) (i : nat) :
  (i < field_size dt f)%nat ->
  window dt f coef !! i = coef !! (field_offset dt f + i)%nat.
Proof.
  intros Hi. unfold window.
  now rewrite lookup_take_lt, lookup_drop.
Qed.

(** The five windows tile the buffer in the declared order. *)
Lemma windows_tile :
  coef = window dt Fmu coef ++ window dt Fbu coef ++ window dt Fbi coef
         ++ window dt Fp coef ++ window dt Fq coef.
Proof.
unfold window. rewrite !field_offset_eq, !field_size_eq, drop_0.
rewrite !app_assoc, !take_take_drop.
symmetry; apply take_ge. rewrite Hlen, itemsize_eq. lia.
Qed.

End Buffer.

(** A write through one view is seen by that view, and by no other. *)
Lemma window_view_set (f : field) (i : nat) (v : R) (coef : list R) :
  (i < field_size dt f)%nat ->
  window dt f (view_set dt f i v coef) = <[i := v]> (window dt f coef).
Proof.
  intros Hi. unfold window, view_set.
  rewrite drop_insert_ge by lia.
  rewrite take_insert_lt by lia.
  f_equal; lia.
Qed.

Lemma window_view_set_other (f g : field) (i : nat) (v : R)
  (coef : list R) :
  f <> g -> (i < field_size dt f)%nat ->
  window dt g (view_set dt f i v coef) = window dt g coef.
Proof.
  intros Hfg Hi. unfold window, view_set.
  destruct (fields_disjoint f g Hfg) as [H|H].
  - now rewrite drop_insert_lt by lia.
  - rewrite drop_insert_ge by lia.
    now rewrite take_insert_ge by lia.
Qed.

Lemma view_set_length (f : field) (i : nat) (v : R) (coef : list R) :
  length (view_set dt f i v coef) = length coef.
Proof. unfold view_set. apply length_insert. Qed.

(** Scalar fields: only [bu] with one user and [bi] with one item. *)
Lemma scalar_field_false (f : field) :
  nu <> 1%nat -> ni <> 1%nat -> scalar_field dt f = false.
Proof.
  intros Hu Hi. destruct f; simpl; try reflexivity; now apply Nat.eqb_neq.
Qed.

Lemma scalar_field_true (f : field) :
  scalar_field dt f = true ->
  (f = Fbu /\ nu = 1%nat) \/ (f = Fbi /\ ni = 1%nat).
Proof.
  destruct f; simpl; try discriminate; intros H%Nat.eqb_eq; auto.
Qed.

Lemma view_window (coef w : list R) (f : field) :
  view dt coef f = Ok w -> w = window dt f coef.
Proof.
  unfold view.
  destruct (length coef mod itemsize dt =? 0)%nat; [|discriminate].
  destruct (length coef =? 0)%nat; [discriminate|]. congruence.
Qed.

Lemma view1_array (coef : list R) (f : field) :
  scalar_field dt f = false ->
  view1 dt coef f = let* w := view dt coef f in Ok (Array w).
Proof.
  intros Hf. unfold view1, fwindow. rewrite Hf.
  destruct (view dt coef f) as [w|e] eqn:Hw; cbn [rbind]; [|reflexivity].
  now rewrite (view_window _ _ _ Hw).
Qed.

Lemma view1_scalar (coef : list R) (f : field) :
  scalar_field dt f = true ->
  view1 dt coef f
  = let* w := view dt coef f in Ok (Scalar (default 0 (w !! 0%nat))).
Proof.
  intros Hf. unfold view1, fwindow. rewrite Hf.
  destruct (view dt coef f) as [w|e] eqn:Hw; cbn [rbind]; [|reflexivity].
  now rewrite (view_window _ _ _ Hw).
Qed.

Lemma view1_raise (coef : list R) (f : field) (e : pyexc) :
  view dt coef f = Raise e -> view1 dt coef f = Raise e.
Proof. intros H. unfold view1. now rewrite H. Qed.

Lemma vset_array (f : field) (i : nat) (v : R) (coef : list R) :
  scalar_field dt f = false ->
  vset dt f i v coef = Ok (view_set dt f i v coef).
Proof. intros Hf. unfold vset. now rewrite Hf. Qed.

Lemma vset_scalar (f : field) (i : nat) (v : R) (coef : list R) :
  scalar_field dt f = true -> vset dt f i v coef = Raise TypeError.
Proof. intros Hf. unfold vset. now rewrite Hf. Qed.

Lemma vset_length (f : field) (i : nat) (v : R) (coef coef' : list R) :
  vset dt f i v coef = Ok coef' -> length coef' = length coef.
Proof.
  unfold vset. destruct (scalar_field dt f); [discriminate|].
  intros [= <-]. apply view_set_length.
Qed.

Lemma fwindow_array (f : field) (coef : list R) :
  scalar_field dt f = false -> fwindow dt f coef = Array (window dt f coef).
Proof. intros Hf. unfold fwindow. now rewrite Hf. Qed.

Lemma fwindow_scalar (f : field) (coef : list R) :
  scalar_field dt f = true ->
  fwindow dt f coef = Scalar (default 0 (window dt f coef !! 0%nat)).
Proof. intros Hf. unfold fwindow. now rewrite Hf. Qed.

End Layout.

Lemma np_dtype_nat (nu ni kk : nat) :
  np_dtype (Z.of_nat nu) (Z.of_nat ni) (Z.of_nat kk)
  = Ok (mkDtype nu ni kk).
Proof.
  unfold np_dtype.
  destruct (Z.ltb_spec (Z.of_nat nu) 0); [lia|].
  destruct (Z.ltb_spec (Z.of_nat ni) 0); [lia|].
  destruct (Z.ltb_spec (Z.of_nat kk) 0); [lia|].
  simpl. now rewrite !Nat2Z.id.
Qed.



(** ** Row-major reshaping *)

Lemma reshape_length (n c : nat) (w : list R) : length (reshape n c w) = n.
Proof. unfold reshape. now rewrite length_map, length_seq. Qed.

Lemma reshape_lookup (n c : nat) (w : list R) (u : nat) :
  (u < n)%nat -> reshape n c w !! u = Some (take c (drop (u * c) w)).
Proof.
  intros Hu. unfold reshape.
  rewrite list_lookup_fmap, lookup_seq_lt by lia. reflexivity.
Qed.

Lemma reshape_row_length (n c : nat) (w row : list R) (u : nat) :
  length w = (n * c)%nat -> reshape n c w !! u = Some row ->
  length row = c.
Proof.
  intros Hw Hrow.
  assert (u < n)%nat as Hu.
  { apply lookup_lt_Some in Hrow. now rewrite reshape_length in Hrow. }
  rewrite reshape_lookup in Hrow by assumption.
  inversion Hrow; subst row.
  rewrite length_take, length_drop, Hw. nia.
Qed.

Lemma reshape_entry (n c : nat) (w : list R) (u j : nat) :
  (u < n)%nat -> (j < c)%nat ->
  (reshape n c w !! u) ≫= (.!! j) = w !! (u * c + j)%nat.
Proof.
  intros Hu Hj. rewrite reshape_lookup by assumption. simpl.
  now rewrite lookup_take_lt, lookup_drop.
Qed.

Lemma concat_reshape (n c : nat) (w : list R) :
  length w = (n * c)%nat -> concat (reshape n c w) = w.
Proof.
  unfold reshape. revert w. induction n as [|n IH]; intros w Hw.
  - simpl in *. now destruct w.
  - rewrite seq_S, map_app, concat_app. simpl.
    rewrite app_nil_r.
    transitivity (take (n * c) w ++ drop (n * c) w);
      [|apply take_drop].
    f_equal.
    + rewrite <- (IH (take (n * c) w)) at 1
        by (rewrite length_take; lia).
      f_equal. apply map_ext_in. intros u Hu. apply in_seq in Hu.
      assert (u * c + c <= n * c)%nat by nia.
      rewrite !take_drop_commute, take_take. do 2 f_equal. lia.
    + apply take_ge. rewrite length_drop. lia.
Qed.

(** ** The views are the regions of the specification *)

Section Regions.

Variables nu ni kk : nat.
Variable coef : list R.
Abbreviation dt0 := (mkDtype nu ni kk).
Hypothesis Hlen : length coef = spec_length nu ni kk.

Lemma spec_length_itemsize : length coef = itemsize dt0.
Proof. rewrite Hlen, itemsize_eq. unfold spec_length. simpl. lia. Qed.

Lemma window_slice (f : field) :
  window dt0 f coef = slice (field_offset dt0 f) (field_size dt0 f) coef.
Proof. reflexivity. Qed.

Lemma reshape_window_p :
  reshape nu kk (window dt0 Fp coef) = r_p (spec_regions nu ni kk coef).
Proof.
  unfold reshape, spec_regions, window, slice. simpl r_p.
  rewrite field_offset_eq, field_size_eq. simpl.
  apply map_ext_in. intros u Hu. apply in_seq in Hu.
  assert (u * kk + kk <= nu * kk)%nat as Hle by nia.
  rewrite take_drop_commute, take_take, Nat.min_l by exact Hle.
  now rewrite <- take_drop_commute, drop_drop.
Qed.

Lemma reshape_window_q :
  reshape ni kk (window dt0 Fq coef) = r_q (spec_regions nu ni kk coef).
Proof.
  unfold reshape, spec_regions, window, slice. simpl r_q.
  rewrite field_offset_eq, field_size_eq. simpl.
  apply map_ext_in. intros u Hu. apply in_seq in Hu.
  assert (u * kk + kk <= ni * kk)%nat as Hle by nia.
  rewrite take_drop_commute, take_take, Nat.min_l by exact Hle.
  now rewrite <- take_drop_commute, drop_drop.
Qed.

Lemma views_are_regions :
  let r := spec_regions nu ni kk coef in
  view dt0 coef Fmu = Ok (r_mu r) /\
  view dt0 coef Fbu = Ok (r_bu r) /\
  view dt0 coef Fbi = Ok (r_bi r) /\
  view2 dt0 coef Fp = Ok (r_p r) /\
  view2 dt0 coef Fq = Ok (r_q r).
Proof.
  pose proof spec_length_itemsize as Hl. simpl.
  rewrite !view2_ok, !view_ok by assumption.
  simpl field_shape. simpl fst. simpl snd.
  rewrite reshape_window_p, reshape_window_q.
  rewrite !window_slice, !field_offset_eq, !field_size_eq. simpl.
  repeat split; reflexivity.
Qed.

Lemma regions_tile :
  let r := spec_regions nu ni kk coef in
  coef = r_mu r ++ r_bu r ++ r_bi r ++ concat (r_p r) ++ concat (r_q r).
Proof.
  pose proof spec_length_itemsize as Hl. cbv zeta.
  rewrite <- reshape_window_p, <- reshape_window_q.
  rewrite !concat_reshape
    by (rewrite window_length, field_size_eq by assumption; reflexivity).
  rewrite (windows_tile dt0 coef Hl) at 1.
  rewrite !window_slice, !field_offset_eq, !field_size_eq. reflexivity.
Qed.

End Regions.

Lemma spec_regions_lengths (nu ni kk : nat) (coef : list R) :
  length coef = spec_length nu ni kk ->
  let r := spec_regions nu ni kk coef in
  length (r_mu r) = 1%nat /\ length (r_bu r) = nu /\
  length (r_bi r) = ni /\ length (r_p r) = nu /\ length (r_q r) = ni.
Proof.
  intros Hlen. simpl. unfold slice.
  rewrite !length_map, !length_seq, !length_take, !length_drop, Hlen.
  unfold spec_length. repeat split; lia.
Qed.

(** C9.  For every (n_users, n_items, k) and every flat buffer of length
    1 + n_users + n_items + k*n_users + k*n_items: the views taken by the
    code through [_dt] succeed; the five regions of the specification
    tile the buffer in the order global bias, user biases, item biases,
    user factors, item factors, with the stated lengths and offsets, and
    the factor regions are row-major.  The view of a field that is an
    array is its region: a value written through it is read back from
    the flat buffer at offset-of-region + position, a value written into
    the flat buffer at that offset is read back through the view, and the
    views of the other regions do not change.  The user biases with
    exactly one user, and the item biases with exactly one item, are not
    an array but a float holding a copy of the single entry of the
    region: a write through it raises TypeError, and only a view taken
    afterwards shows a value written into the flat buffer. *)
Theorem layout_roundtrip (nu ni kk : nat) (coef : list R) :
  length coef = spec_length nu ni kk ->
  let dt := mkDtype nu ni kk in
  let r := spec_regions nu ni kk coef in
  (view dt coef Fmu = Ok (r_mu r) /\
   view1 dt coef Fbu
   = Ok (if (nu =? 1)%nat then Scalar (nth 0 (r_bu r) 0)
         else Array (r_bu r)) /\
   view1 dt coef Fbi
   = Ok (if (ni =? 1)%nat then Scalar (nth 0 (r_bi r) 0)
         else Array (r_bi r)) /\
   view2 dt coef Fp = Ok (r_p r) /\
   view2 dt coef Fq = Ok (r_q r)) /\
  coef = r_mu r ++ r_bu r ++ r_bi r ++ concat (r_p r) ++ concat (r_q r) /\
  (length (r_mu r) = 1 /\ length (r_bu r) = nu /\ length (r_bi r) = ni /\
   length (concat (r_p r)) = nu * kk /\
   length (concat (r_q r)) = ni * kk)%nat /\
  (field_offset dt Fmu = 0 /\ field_offset dt Fbu = 1 /\
   field_offset dt Fbi = 1 + nu /\ field_offset dt Fp = 1 + nu + ni /\
   field_offset dt Fq = 1 + nu + ni + nu * kk)%nat /\
  (forall f i v, scalar_field dt f = false -> (i < field_size dt f)%nat ->
     vset dt f i v coef = Ok (view_set dt f i v coef) /\
     view_set dt f i v coef !! (field_offset dt f + i)%nat = Some v /\
     (exists w,
        view1 dt (<[(field_offset dt f + i)%nat := v]> coef) f
        = Ok (Array w) /\
        w !! i = Some v) /\
     (forall g, g <> f ->
        view1 dt (view_set dt f i v coef) g = view1 dt coef g /\
        view2 dt (view_set dt f i v coef) g = view2 dt coef g /\
        (scalar_field dt g = false ->
         view dt (view_set dt f i v coef) g = view dt coef g))) /\
  (forall f v, scalar_field dt f = true ->
     (f = Fbu /\ nu = 1%nat \/ f = Fbi /\ ni = 1%nat) /\
     vset dt f 0 v coef = Raise TypeError /\
     view1 dt (<[field_offset dt f := v]> coef) f = Ok (Scalar v)) /\
  (forall u j v, (u < nu)%nat -> (j < kk)%nat ->
     exists rows,
       view2 dt (<[(1 + nu + ni + (u * kk + j))%nat := v]> coef) Fp
       = Ok rows /\
       rows !! u ≫= (.!! j) = Some v) /\
  (forall i j v, (i < ni)%nat -> (j < kk)%nat ->
     exists rows,
       view2 dt (<[(1 + nu + ni + nu * kk + (i * kk + j))%nat := v]> coef)
             Fq = Ok rows /\
       rows !! i ≫= (.!! j) = Some v).
Proof.
  intros Hlen dt r.
  pose proof (spec_length_itemsize nu ni kk coef Hlen) as Hl.
  fold dt in Hl.
  assert (forall f i v, length (view_set dt f i v coef) = itemsize dt)
    as Hl'.
  { intros. now rewrite view_set_length. }
  destruct (views_are_regions nu ni kk coef Hlen)
    as (Vmu & Vbu & Vbi & Vp & Vq).
  fold dt r in Vmu, Vbu, Vbi, Vp, Vq.
  destruct (spec_regions_lengths nu ni kk coef Hlen)
    as (Lmu & Lbu & Lbi & Lp & Lq).
  fold r in Lmu, Lbu, Lbi, Lp, Lq.
  assert (forall c f, length c = itemsize dt ->
            view1 dt c f = Ok (fwindow dt f c)) as V1.
  { intros c f Hc. unfold view1. now rewrite (view_ok dt c Hc). }
  split.
  { split; [exact Vmu|]. split; [|split; [|split; assumption]].
    - rewrite (V1 _ _ Hl). f_equal. unfold fwindow. simpl scalar_field.
      rewrite (view_ok _ _ Hl) in Vbu. injection Vbu as Vbu.
      rewrite Vbu. destruct (nu =? 1)%nat; [|reflexivity].
      f_equal. symmetry. apply nth_lookup.
    - rewrite (V1 _ _ Hl). f_equal. unfold fwindow. simpl scalar_field.
      rewrite (view_ok _ _ Hl) in Vbi. injection Vbi as Vbi.
      rewrite Vbi. destruct (ni =? 1)%nat; [|reflexivity].
      f_equal. symmetry. apply nth_lookup. }
  split; [exact (regions_tile nu ni kk coef Hlen)|].
  split.
  { pose proof (reshape_window_p nu ni kk coef Hlen) as Wp.
    pose proof (reshape_window_q nu ni kk coef Hlen) as Wq.
    pose proof (window_length dt coef Hl) as W.
    fold r in Wp, Wq. rewrite <- Wp, <- Wq.
    rewrite !concat_reshape
      by (fold dt; rewrite W, field_size_eq; reflexivity).
    fold dt. rewrite !W, !field_size_eq.
    repeat split; assumption || reflexivity. }
  split.
  { rewrite !field_offset_eq. simpl. repeat split; lia. }
  split.
  { intros f i v Hf Hi.
    pose proof (field_fits dt f) as Hfit.
    split; [now apply vset_array|].
    split; [|split].
    - unfold view_set. apply list_lookup_insert_eq. lia.
    - exists (window dt f (view_set dt f i v coef)). split.
      + change (<[(field_offset dt f + i)%nat:=v]> coef)
          with (view_set dt f i v coef).
        rewrite (V1 _ _ (Hl' f i v)). f_equal. now apply fwindow_array.
      + rewrite window_view_set by assumption.
        apply list_lookup_insert_eq.
        now rewrite window_length.
    - intros g Hg.
      assert (window dt g (view_set dt f i v coef) = window dt g coef)
        as Hw by (apply window_view_set_other; [congruence | assumption]).
      split; [|split].
      + rewrite (V1 _ _ (Hl' f i v)), (V1 _ _ Hl).
        unfold fwindow. now rewrite Hw.
      + rewrite (view2_ok dt _ (Hl' f i v)), (view2_ok dt _ Hl).
        now rewrite Hw.
      + intros _.
        rewrite (view_ok dt _ (Hl' f i v)), (view_ok dt _ Hl).
        now rewrite Hw. }
  split.
  { intros f v Hf.
    pose proof (scalar_field_true dt f Hf) as Hwhich.
    split; [exact Hwhich|].
    split; [now apply vset_scalar|].
    assert (0 < field_size dt f)%nat as Hpos.
    { rewrite field_size_eq.
      destruct Hwhich as [[-> H1]|[-> H1]]; simpl in *; lia. }
    replace (<[field_offset dt f:=v]> coef)
      with (view_set dt f 0 v coef)
      by (unfold view_set; now rewrite Nat.add_0_r).
    rewrite (V1 _ _ (Hl' f 0%nat v)). f_equal.
    rewrite fwindow_scalar by exact Hf. f_equal.
    rewrite window_view_set by exact Hpos.
    rewrite list_lookup_insert_eq by (now rewrite window_length).
    reflexivity. }
  split.
  - intros u j v Hu Hj.
    assert (u * kk + j < field_size dt Fp)%nat as Hi
      by (rewrite field_size_eq; simpl; nia).
    pose proof (Hl' Fp (u * kk + j)%nat v) as Hlv.
    eexists. split.
    + replace (<[(1 + nu + ni + (u * kk + j))%nat:=v]> coef)
        with (view_set dt Fp (u * kk + j) v coef)
        by (unfold view_set; rewrite field_offset_eq; reflexivity).
      apply (view2_ok dt _ Hlv).
    + simpl field_shape. simpl fst. simpl snd.
      rewrite reshape_entry by assumption.
      rewrite window_view_set by assumption.
      apply list_lookup_insert_eq. now rewrite window_length.
  - intros i j v Hi' Hj.
    assert (i * kk + j < field_size dt Fq)%nat as Hi
      by (rewrite field_size_eq; simpl; nia).
    pose proof (Hl' Fq (i * kk + j)%nat v) as Hlv.
    eexists. split.
    + replace (<[(1 + nu + ni + nu * kk + (i * kk + j))%nat:=v]> coef)
        with (view_set dt Fq (i * kk + j) v coef)
        by (unfold view_set; rewrite field_offset_eq; reflexivity).
      apply (view2_ok dt _ Hlv).
    + simpl field_shape. simpl fst. simpl snd.
      rewrite reshape_entry by assumption.
      rewrite window_view_set by assumption.
      apply list_lookup_insert_eq. now rewrite window_length.
Qed.

(** ** numpy indexing *)

Lemma norm_index_nonneg (n : nat) (i : Z) :
  (0 <= i < Z.of_nat n)%Z -> Np.norm_index n i = Some (Z.to_nat i).
Proof.
  intros [H0 Hn]. unfold Np.norm_index.
  destruct (Z.leb_spec 0 i), (Z.ltb_spec i (Z.of_nat n)); simpl;
    try lia; reflexivity.
Qed.

Lemma norm_index_neg (n : nat) (i : Z) :
  (- Z.of_nat n <= i < 0)%Z ->
  Np.norm_index n i = Some (Z.to_nat (i + Z.of_nat n)).
Proof.
  intros [H0 Hn]. unfold Np.norm_index.
  destruct (Z.leb_spec 0 i); simpl; [lia|].
  destruct (Z.leb_spec (- Z.of_nat n) i), (Z.ltb_spec i 0); simpl;
    try lia; reflexivity.
Qed.

Lemma norm_index_out (n : nat) (i : Z) :
  (i < - Z.of_nat n \/ Z.of_nat n <= i)%Z -> Np.norm_index n i = None.
Proof.
  intros H. unfold Np.norm_index.
  destruct (Z.leb_spec 0 i), (Z.ltb_spec i (Z.of_nat n)),
    (Z.leb_spec (- Z.of_nat n) i), (Z.ltb_spec i 0); simpl;
    try lia; reflexivity.
Qed.

Lemma getitem_ok {A} (a : list A) (i : Z) (d : A) :
  (0 <= i < Z.of_nat (length a))%Z ->
  Np.getitem a i = Ok (nth (Z.to_nat i) a d).
Proof.
  intros Hi. unfold Np.getitem. rewrite norm_index_nonneg by assumption.
  destruct (a !! Z.to_nat i) as [x|] eqn:Hx.
  - f_equal. symmetry. now apply nth_lookup_Some.
  - apply lookup_ge_None in Hx. lia.
Qed.

Lemma getitem_wrap {A} (a : list A) (i : Z) :
  (- Z.of_nat (length a) <= i < 0)%Z ->
  Np.getitem a i = Np.getitem a (i + Z.of_nat (length a)).
Proof.
  intros Hi. unfold Np.getitem.
  rewrite norm_index_neg by assumption.
  now rewrite norm_index_nonneg by lia.
Qed.

Lemma getitem_out {A} (a : list A) (i : Z) :
  (i < - Z.of_nat (length a) \/ Z.of_nat (length a) <= i)%Z ->
  Np.getitem a i = Raise IndexError.
Proof.
  intros Hi. unfold Np.getitem. now rewrite norm_index_out.
Qed.

Lemma getitem_raise_IndexError {A} (a : list A) (i : Z) (e : pyexc) :
  Np.getitem a i = Raise e -> e = IndexError.
Proof.
  unfold Np.getitem.
  destruct (Np.norm_index (length a) i) as [j|]; [|congruence].
  destruct (a !! j); congruence.
Qed.

Lemma take_ok {A} (a : list A) (idx : list Z) (d : A) :
  Forall (fun i => 0 <= i < Z.of_nat (length a))%Z idx ->
  Np.take a idx = Ok (map (fun i => nth (Z.to_nat i) a d) idx).
Proof.
  intros H. apply rmapM_ok.
  eapply Forall_impl; [exact H|]. intros i Hi. now apply getitem_ok.
Qed.

(** ** Sums and elementwise operations *)

Lemma zip_with_map2 {A B C D} (f : B -> C -> D) (g : A -> B) (h : A -> C)
  (l : list A) :
  zip_with f (map g l) (map h l) = map (fun x => f (g x) (h x)) l.
Proof. induction l as [|x l IH]; simpl; [reflexivity | now rewrite IH]. Qed.

Lemma zip_with_map_zip {A B C D} (f : C -> D -> R) (g : A -> C)
  (h : B -> D) (l : list A) (l' : list B) :
  zip_with f (map g l) (map h l') = map (fun x => f (g x.1) (h x.2)) (zip l l').
Proof.
  revert l'; induction l as [|x l IH]; intros [|y l']; simpl;
    try reflexivity. now rewrite IH.
Qed.

Lemma sum_app (a b : list R) : Np.sum (a ++ b) = Np.sum a + Np.sum b.
Proof.
  induction a as [|x a IH]; simpl; [ring|]. rewrite IH. ring.
Qed.

Lemma broadcast2_same (op : R -> R -> R) (a b : list R) :
  length a = length b -> Np.broadcast2 op a b = Ok (zip_with op a b).
Proof.
  intros H. unfold Np.broadcast2. now rewrite H, Nat.eqb_refl.
Qed.

(** ** Predicted scores *)

Lemma esc_of_ok (r : regions) (nu ni : nat) (ev : events) :
  (0 < length (r_mu r))%nat ->
  length (r_bu r) = nu -> length (r_bi r) = ni ->
  length (r_p r) = nu -> length (r_q r) = ni ->
  valid_events nu ni ev ->
  esc_of (r_mu r) (Array (r_bu r)) (Array (r_bi r)) (r_p r) (r_q r)
         (ev.*1) (ev.*2)
  = Ok (map (predicted r) ev).
Proof.
  intros Hmu Hbu Hbi Hp Hq Hev. unfold esc_of, vtake.
  assert (Forall (fun i => 0 <= i < Z.of_nat nu)%Z (ev.*1)) as Hu.
  { apply Forall_fmap. eapply Forall_impl; [exact Hev|].
    intros e [H _]; exact H. }
  assert (Forall (fun i => 0 <= i < Z.of_nat ni)%Z (ev.*2)) as Hi.
  { apply Forall_fmap. eapply Forall_impl; [exact Hev|].
    intros e [_ H]; exact H. }
  rewrite (getitem_ok _ 0%Z 0) by lia. cbn [rbind].
  rewrite (take_ok (r_bu r) _ 0) by now rewrite Hbu. cbn [rbind].
  rewrite (take_ok (r_bi r) _ 0) by now rewrite Hbi. cbn [rbind].
  rewrite (take_ok (r_p r) _ []) by now rewrite Hp. cbn [rbind].
  rewrite (take_ok (r_q r) _ []) by now rewrite Hq. cbn [rbind].
  f_equal. unfold Np.rowdot.
  rewrite !map_map. rewrite !zip_with_map2.
  apply map_ext. intros [u i]. reflexivity.
Qed.

(** The loss on a buffer of the right length and events in range. *)
Lemma loss_spec (st : pmf_state) (coef : list R) (ev : events)
  (sc : list R) :
  let nu := dt_n_users (_dt st) in
  let ni := dt_n_items (_dt st) in
  let kk := dt_k (_dt st) in
  nu <> 1%nat -> ni <> 1%nat ->
  length coef = spec_length nu ni kk ->
  length sc = length ev ->
  valid_events nu ni ev ->
  loss st coef ev sc
  = Ok (spec_loss (_reg st) (spec_regions nu ni kk coef) ev sc).
Proof.
  intros nu ni kk Hnu Hni Hlen Hsc Hev.
  destruct (views_are_regions nu ni kk coef Hlen)
    as (Vmu & Vbu & Vbi & Vp & Vq).
  destruct (spec_regions_lengths nu ni kk coef Hlen)
    as (Lmu & Lbu & Lbi & Lp & Lq).
  unfold loss.
  replace (_dt st) with (mkDtype nu ni kk) by (now destruct (_dt st)).
  rewrite !view1_array by (now apply scalar_field_false).
  rewrite Vmu, Vbu, Vbi, Vp, Vq. cbn [rbind vvalues].
  rewrite (esc_of_ok _ nu ni) by (assumption || lia). cbn [rbind].
  rewrite broadcast2_same by now rewrite length_map.
  cbn [rbind]. unfold spec_loss. do 3 f_equal.
  unfold sumsq. f_equal.
  rewrite <- (map_id sc) at 1. rewrite zip_with_map_zip.
  rewrite <- (map_id sc) at 2.
  revert Hsc. generalize sc. clear.
  induction ev as [|e ev IH]; intros [|s sc] H; simpl in *;
    try discriminate; try reflexivity.
  f_equal. apply IH. lia.
Qed.


(** ** Loops *)

(** Invariant rule for a Python [for] loop over [l]: [I done s] relates
    the prefix already processed to the state. *)
Lemma rfoldM_inv {A S} (f : S -> A -> result S) (I : list A -> S -> Prop)
  (l : list A) (s : S) :
  I [] s ->
  (forall done x rest s, l = done ++ x :: rest -> I done s ->
     exists s', f s x = Ok s' /\ I (done ++ [x]) s') ->
  exists s', rfoldM f s l = Ok s' /\ I l s'.
Proof.
  intros H0 Hstep.
  assert (forall done rest s, l = done ++ rest -> I done s ->
            exists s', rfoldM f s rest = Ok s' /\ I l s') as G.
  { intros done rest; revert done.
    induction rest as [|x rest IH]; intros done s0 Hl HI.
    - rewrite app_nil_r in Hl; subst done. now exists s0.
    - destruct (Hstep done x rest s0 Hl HI) as (s1 & Hf & HI1).
      simpl. rewrite Hf. cbn [rbind].
      apply (IH (done ++ [x])); [|assumption].
      now rewrite <- app_assoc. }
  now apply (G [] l s).
Qed.

Lemma rfoldM_raise_head {A S} (f : S -> A -> result S) (x : A)
  (l : list A) (s : S) (e : pyexc) :
  f s x = Raise e -> rfoldM f s (x :: l) = Raise e.
Proof. intros H. simpl. now rewrite H. Qed.

(** A loop whose every step can only raise [e] can only raise [e]. *)
Lemma rfoldM_raise_only {A S} (f : S -> A -> result S) (e : pyexc)
  (l : list A) (s : S) (e' : pyexc) :
  (forall s x e', f s x = Raise e' -> e' = e) ->
  rfoldM f s l = Raise e' -> e' = e.
Proof.
  intros Hf. revert s. induction l as [|x l IH]; intros s H; simpl in H.
  - discriminate.
  - destruct (f s x) as [s'|e''] eqn:Hx; cbn [rbind] in H.
    + now apply (IH s').
    + inversion H; subst. now apply (Hf s x).
Qed.

Lemma rmapM_raise_only {A B} (f : A -> result B) (e : pyexc)
  (l : list A) (e' : pyexc) :
  (forall x e', f x = Raise e' -> e' = e) ->
  rmapM f l = Raise e' -> e' = e.
Proof.
  intros Hf. induction l as [|x l IH]; intros H; simpl in H.
  - discriminate.
  - destruct (f x) as [y|e''] eqn:Hx; cbn [rbind] in H.
    + destruct (rmapM f l); cbn [rbind] in H; [discriminate|].
      inversion H; subst. now apply IH.
    + inversion H; subst. now apply (Hf x).
Qed.

Lemma take_raise_IndexError {A} (a : list A) (idx : list Z) (e : pyexc) :
  Np.take a idx = Raise e -> e = IndexError.
Proof.
  apply rmapM_raise_only. intros x e'. apply getitem_raise_IndexError.
Qed.


Lemma rfoldM_skip {A S} (f : S -> A -> result S) (l : list A) (s : S) :
  (forall s x, f s x = Ok s) -> rfoldM f s l = Ok s.
Proof.
  intros Hf. induction l as [|x l IH]; simpl; [reflexivity|].
  now rewrite Hf.
Qed.

(** ** The initializer *)

Lemma alloc_length (nu ni kk : nat) :
  length (replicate (1 + nu + ni + nu * kk + ni * kk) 0)
  = itemsize (mkDtype nu ni kk).
Proof. now rewrite length_replicate, itemsize_eq. Qed.

(** The prologue of [_init_coef]: the five views of the fresh buffer
    exist, so the initializer is its three loops and its epilogue. *)
Lemma init_coef_unfold (self : PMF) (ev : events) (sc : list R)
  (nu ni : nat) (rng : rng_state) :
  let dt := mkDtype nu ni (k self) in
  let coef0 :=
    view_set dt Fmu 0 (Np.sum sc / INR (length ev))
      (replicate (1 + nu + ni + nu * k self + ni * k self) 0) in
  _init_coef self ev sc nu ni rng =
  let* coef := rfoldM (init_bu self ev sc nu ni) coef0 (seq 0 nu) in
  let* coef := rfoldM (init_bi self ev sc nu ni) coef (seq 0 ni) in
  let* var :=
    rfoldM (init_var self ev sc nu ni coef) 0 (seq 0 (length ev)) in
  if (length ev =? 0)%nat then Raise ZeroDivisionError
  else
    let var := var / INR (length ev) in
    let '(P, rng) := normal 0 (sqrt var) (nu * k self) rng in
    let coef := view_fill dt Fp P coef in
    let '(Q, rng) := normal 0 (sqrt var) (ni * k self) rng in
    let coef := view_fill dt Fq Q coef in
    Ok {| _dt := dt;
          _coef := coef;
          _reg := C self / INR (1 + (k self + 1) * (nu + ni));
          _rng := rng |}.
Proof.
  intros dt coef0. unfold _init_coef.
  rewrite np_dtype_nat. cbn [rbind].
  pose proof (alloc_length nu ni (k self)) as Hl.
  unfold view1.
  rewrite !(view2_ok _ _ Hl), !(view_ok _ _ Hl). reflexivity.
Qed.

Lemma init_coef_empty (self : PMF) (sc : list R) (nu ni : nat)
  (rng : rng_state) :
  _init_coef self [] sc nu ni rng = Raise ZeroDivisionError.
Proof.
  rewrite init_coef_unfold. cbv zeta.
  rewrite rfoldM_skip by reflexivity. cbn [rbind].
  rewrite rfoldM_skip by reflexivity. reflexivity.
Qed.

(** C7.  With zero events the initializer fails: [var /= n_events]
    raises ZeroDivisionError (the specification's EmptyTrainingSet), and
    [fit] fails with it whatever the optimizer is, that is, before any
    optimization is attempted. *)
Theorem init_coef_no_events (self : PMF) (sc : list R) (nu ni : nat)
  (rng : rng_state) :
  _init_coef self [] sc nu ni rng = Raise ZeroDivisionError /\
  forall fmin_cg maxiter_arg,
    fit fmin_cg self [] sc nu ni maxiter_arg rng = Raise ZeroDivisionError.
Proof.
  pose proof (init_coef_empty self sc nu ni rng) as H.
  split; [exact H|]. intros. unfold fit. now rewrite H.
Qed.

(** [X[np.nonzero(col == i)[0]]] selects the entries of [X] whose event
    has [i] in the column. *)
Lemma take_nonzero_eq_from {A} (proj : Z * Z -> Z) (ev : events)
  (X pre : list A) (i : Z) :
  length X = length ev ->
  Np.take (pre ++ X) (Np.nonzero_eq_from (length pre) (map proj ev) i)
  = Ok (map snd (filter (fun ex => proj ex.1 = i) (zip ev X))).
Proof.
  revert X pre. induction ev as [|e ev IH]; intros [|x X] pre Hlen;
    simpl in Hlen; try discriminate; [reflexivity|].
  injection Hlen as Hlen.
  assert (Hcons : pre ++ x :: X = (pre ++ [x]) ++ X)
    by now rewrite <- app_assoc.
  assert (Hpos : S (length pre) = length (pre ++ [x]))
    by (rewrite length_app; simpl; lia).
  simpl map. simpl zip. rewrite filter_cons. simpl Np.nonzero_eq_from.
  destruct (Z.eqb_spec (proj e) i) as [Heq|Hne].
  - rewrite decide_True by exact Heq.
    unfold Np.take. simpl rmapM.
    rewrite (getitem_ok _ _ x) by (rewrite length_app; simpl; lia).
    cbn [rbind]. rewrite Nat2Z.id, nth_middle.
    rewrite Hcons, Hpos.
    pose proof (IH X (pre ++ [x]) Hlen) as IH'. unfold Np.take in IH'.
    rewrite IH'. reflexivity.
  - rewrite decide_False by exact Hne.
    rewrite Hcons, Hpos. now apply IH.
Qed.

Lemma take_nonzero_eq {A} (proj : Z * Z -> Z) (ev : events) (X : list A)
  (i : Z) :
  length X = length ev ->
  Np.take X (Np.nonzero_eq (map proj ev) i)
  = Ok (map snd (filter (fun ex => proj ex.1 = i) (zip ev X))).
Proof. intros H. now apply (take_nonzero_eq_from proj ev X []). Qed.

Lemma nonzero_eq_length {A} (proj : Z * Z -> Z) (ev : events) (X : list A)
  (i : Z) :
  length X = length ev ->
  length (Np.nonzero_eq (map proj ev) i)
  = length (filter (fun ex => proj ex.1 = i) (zip ev X)).
Proof.
  intros H. pose proof (take_nonzero_eq proj ev X i H) as Ht.
  apply rmapM_length in Ht. now rewrite length_map in Ht.
Qed.

Lemma seq_split (n : nat) (done rest : list nat) (x : nat) :
  seq 0 n = done ++ x :: rest ->
  x = length done /\ done = seq 0 (length done) /\ (x < n)%nat.
Proof.
  intros H.
  assert (length done < n)%nat as Hlt.
  { apply (f_equal length) in H.
    rewrite length_seq, length_app in H. simpl in H. lia. }
  assert (seq 0 n !! length done = Some x) as Hx.
  { rewrite H. now rewrite list_lookup_middle. }
  rewrite lookup_seq_lt in Hx by assumption. injection Hx as <-.
  repeat split; try lia.
  apply (f_equal (take (length done))) in H.
  rewrite take_app_length, take_seq in H.
  rewrite Nat.min_l in H by lia. now symmetry.
Qed.

Lemma fill_progress (f : nat -> R) (m n : nat) :
  (m < n)%nat ->
  <[m := f m]> (map f (seq 0 m) ++ replicate (n - m) 0)
  = map f (seq 0 (S m)) ++ replicate (n - S m) 0.
Proof.
  intros Hm.
  rewrite insert_app_r_alt by (rewrite length_map, length_seq; lia).
  rewrite length_map, length_seq, Nat.sub_diag.
  replace (n - m)%nat with (S (n - S m)) by lia.
  rewrite seq_S, map_app, <- app_assoc. reflexivity.
Qed.

Lemma view_fill_from_length (dt : dtype) (f : field) (block : list R)
  (i : nat) (coef : list R) :
  length (view_fill_from dt f i block coef) = length coef.
Proof.
  revert i coef. induction block as [|v block IH]; intros i coef; simpl.
  - reflexivity.
  - now rewrite IH, view_set_length.
Qed.

Lemma window_view_fill_from_other (dt : dtype) (f g : field)
  (block : list R) (i : nat) (coef : list R) :
  f <> g -> (i + length block <= field_size dt f)%nat ->
  window dt g (view_fill_from dt f i block coef) = window dt g coef.
Proof.
  intros Hfg. revert i coef.
  induction block as [|v block IH]; intros i coef Hi; simpl in *.
  - reflexivity.
  - rewrite IH by lia. apply window_view_set_other; [assumption | lia].
Qed.

Lemma selected_Forall {A} (P : A -> Prop) (proj : Z * Z -> Z) (i : Z)
  (ev : events) (X : list A) :
  Forall P X ->
  Forall P (map snd (filter (fun ex => proj ex.1 = i) (zip ev X))).
Proof.
  intros HX. apply Forall_forall. intros x Hx.
  apply list_elem_of_fmap in Hx as ([e x'] & -> & Hin).
  apply list_elem_of_filter in Hin as [_ Hin].
  apply elem_of_zip_r in Hin.
  exact (proj1 (Forall_forall _ _) HX _ Hin).
Qed.

Lemma selected_events_Forall {A} (P : Z * Z -> Prop) (proj : Z * Z -> Z)
  (i : Z) (ev : events) (X : list A) :
  Forall P ev ->
  Forall (fun ex => P ex.1) (filter (fun ex => proj ex.1 = i) (zip ev X)).
Proof.
  intros HX. apply Forall_forall. intros [e x] Hin.
  apply list_elem_of_filter in Hin as [_ Hin].
  apply elem_of_zip_l in Hin. simpl.
  exact (proj1 (Forall_forall _ _) HX _ Hin).
Qed.

Lemma zip_with_selected {A} (proj : Z * Z -> Z) (i : Z)
  (f : R -> A -> R) (h : Z -> A) (ev : events) (sc : list R) :
  length sc = length ev ->
  zip_with f (map snd (filter (fun ex => proj ex.1 = i) (zip ev sc)))
           (map h (map snd (filter (fun ex => proj ex.1 = i)
                                   (zip ev (map fst ev)))))
  = map (fun es => f es.2 (h es.1.1))
        (filter (fun ex => proj ex.1 = i) (zip ev sc)).
Proof.
  revert sc. induction ev as [|e ev IH]; intros [|s sc] Hlen;
    simpl in Hlen; try discriminate; [reflexivity|].
  injection Hlen as Hlen. simpl map. simpl zip. rewrite !filter_cons.
  simpl fst. destruct (decide (proj e = i)); simpl; now rewrite IH.
Qed.

Lemma zip_head (ev : events) (sc : list R) (nu ni : nat) :
  ev <> [] -> length sc = length ev -> valid_events nu ni ev ->
  exists e0 s0 rest,
    zip ev sc = (e0, s0) :: rest /\ valid_event nu ni e0.
Proof.
  destruct ev as [|e0 ev'], sc as [|s0 sc']; try easy.
  intros _ _ Hev. exists e0, s0, (zip ev' sc').
  split; [reflexivity | now inversion Hev].
Qed.

(** With a scalar bias field the residual loop cannot read a bias. *)
Lemma init_var_scalar (self : PMF) (ev : events) (sc : list R)
  (nu ni : nat) (coef : list R) (var : R) (i : nat) :
  nu = 1%nat \/ ni = 1%nat ->
  init_var self ev sc nu ni coef var i = Raise IndexError.
Proof.
  intros Hone. unfold init_var.
  destruct (Np.getitem sc (Z.of_nat i)) as [s|e] eqn:Hs; cbn [rbind];
    [|now rewrite (getitem_raise_IndexError _ _ _ Hs)].
  destruct (Np.getitem (window _ Fmu coef) 0) as [m|e] eqn:Hm;
    cbn [rbind]; [|now rewrite (getitem_raise_IndexError _ _ _ Hm)].
  destruct (Np.getitem ev (Z.of_nat i)) as [e0|e] eqn:He; cbn [rbind];
    [|now rewrite (getitem_raise_IndexError _ _ _ He)].
  destruct (Nat.eq_dec nu 1%nat) as [Hu|Hu].
  - rewrite (fwindow_scalar _ Fbu) by (simpl; now apply Nat.eqb_eq).
    reflexivity.
  - rewrite (fwindow_array _ Fbu) by (simpl; now apply Nat.eqb_neq).
    cbn [vgetitem].
    destruct (Np.getitem _ e0.1) as [b|e] eqn:Hb; cbn [rbind];
      [|now rewrite (getitem_raise_IndexError _ _ _ Hb)].
    rewrite (fwindow_scalar _ Fbi)
      by (simpl; apply Nat.eqb_eq; tauto).
    reflexivity.
Qed.

(** The initializer returns only for layouts whose bias fields are
    arrays. *)
Lemma init_coef_sizes (self : PMF) (ev : events) (sc : list R)
  (nu ni : nat) (rng : rng_state) (st : pmf_state) :
  _init_coef self ev sc nu ni rng = Ok st -> nu <> 1%nat /\ ni <> 1%nat.
Proof.
  rewrite init_coef_unfold. cbv zeta. intros H.
  destruct (rfoldM (init_bu self ev sc nu ni) _ _) as [c1|]; cbn [rbind] in H;
    [|discriminate].
  destruct (rfoldM (init_bi self ev sc nu ni) _ _) as [c2|]; cbn [rbind] in H;
    [|discriminate].
  destruct ev as [|e0 ev'].
  - simpl in H. discriminate.
  - destruct (Nat.eq_dec nu 1%nat) as [Hu|Hu];
      [|destruct (Nat.eq_dec ni 1%nat) as [Hi|Hi]; [|now split]].
    + exfalso. simpl length in H. rewrite <- cons_seq in H.
      rewrite (rfoldM_raise_head _ _ _ _ IndexError) in H;
        [discriminate|]. apply init_var_scalar. now left.
    + exfalso. simpl length in H. rewrite <- cons_seq in H.
      rewrite (rfoldM_raise_head _ _ _ _ IndexError) in H;
        [discriminate|]. apply init_var_scalar. now right.
Qed.

Section InitValid.

Variable self : PMF.
Variables (ev : events) (sc : list R) (nu ni : nat).
Hypothesis Hsc : length sc = length ev.
Hypothesis Hev : valid_events nu ni ev.

Abbreviation dt1 := (mkDtype nu ni (k self)).
Abbreviation gb := (spec_global_bias sc).
Abbreviation ub := (spec_user_bias ev sc).
Abbreviation ib := (spec_item_bias ev sc).

Lemma scalar_bu : scalar_field dt1 Fbu = negb (bool_decide (nu <> 1%nat)).
Proof.
  simpl. destruct (Nat.eqb_spec nu 1).
  - now rewrite bool_decide_false by tauto.
  - now rewrite bool_decide_true.
Qed.

Lemma scalar_bi : scalar_field dt1 Fbi = negb (bool_decide (ni <> 1%nat)).
Proof.
  simpl. destruct (Nat.eqb_spec ni 1).
  - now rewrite bool_decide_false by tauto.
  - now rewrite bool_decide_true.
Qed.

Lemma array_bu : nu <> 1%nat -> scalar_field dt1 Fbu = false.
Proof. intros H. rewrite scalar_bu. now rewrite bool_decide_true. Qed.

Lemma array_bi : ni <> 1%nat -> scalar_field dt1 Fbi = false.
Proof. intros H. rewrite scalar_bi. now rewrite bool_decide_true. Qed.

(** One iteration of the loop over the users: nothing for a user without
    events, and otherwise the assignment of the user's bias. *)
Lemma init_bu_eval (coef : list R) (i : nat) :
  window dt1 Fmu coef = [gb] ->
  init_bu self ev sc nu ni coef i
  = match filter (fun es => es.1.1 = Z.of_nat i) (zip ev sc) with
    | [] => Ok coef
    | _ => vset dt1 Fbu i (ub i) coef
    end.
Proof.
  intros Hmu. unfold init_bu.
  change (ev.*1) with (map fst ev).
  rewrite (nonzero_eq_length fst ev sc _ Hsc).
  rewrite (take_nonzero_eq fst ev sc _ Hsc).
  unfold spec_user_bias.
  destruct (filter (fun es => es.1.1 = Z.of_nat i) (zip ev sc))
    as [|es mine] eqn:Hmine.
  - reflexivity.
  - cbn [length Nat.ltb Nat.leb rbind]. rewrite Hmu.
    rewrite (getitem_ok _ _ 0) by (simpl; lia). cbn [rbind].
    f_equal. unfold mean. rewrite length_map, map_map. reflexivity.
Qed.

Lemma init_bu_step (coef : list R) (i : nat) :
  nu <> 1%nat ->
  (i < nu)%nat ->
  window dt1 Fmu coef = [gb] ->
  window dt1 Fbu coef !! i = Some 0 ->
  exists coef',
    init_bu self ev sc nu ni coef i = Ok coef' /\
    length coef' = length coef /\
    window dt1 Fmu coef' = window dt1 Fmu coef /\
    window dt1 Fbi coef' = window dt1 Fbi coef /\
    window dt1 Fbu coef' = <[i := ub i]> (window dt1 Fbu coef).
Proof.
  intros Hnu Hi Hmu H0. rewrite init_bu_eval by exact Hmu.
  assert (i < field_size dt1 Fbu)%nat as Hi'
    by (rewrite field_size_eq; exact Hi).
  unfold spec_user_bias.
  destruct (filter (fun es => es.1.1 = Z.of_nat i) (zip ev sc))
    as [|es mine] eqn:Hmine.
  - exists coef. repeat split; try reflexivity.
    symmetry. now apply list_insert_id.
  - rewrite vset_array by (now apply array_bu).
    eexists. split; [reflexivity|].
    rewrite view_set_length.
    rewrite !window_view_set_other by (congruence || assumption).
    rewrite window_view_set by assumption.
    repeat split; reflexivity.
Qed.

Lemma init_bu_loop (coef0 : list R) :
  nu <> 1%nat ->
  window dt1 Fmu coef0 = [gb] ->
  window dt1 Fbu coef0 = replicate nu 0 ->
  exists coef,
    rfoldM (init_bu self ev sc nu ni) coef0 (seq 0 nu) = Ok coef /\
    length coef = length coef0 /\
    window dt1 Fmu coef = [gb] /\
    window dt1 Fbi coef = window dt1 Fbi coef0 /\
    window dt1 Fbu coef = map ub (seq 0 nu).
Proof.
  intros Hnu Hmu Hbu.
  destruct (rfoldM_inv (init_bu self ev sc nu ni)
              (fun done coef =>
                 length coef = length coef0 /\
                 window dt1 Fmu coef = [gb] /\
                 window dt1 Fbi coef = window dt1 Fbi coef0 /\
                 window dt1 Fbu coef
                 = map ub (seq 0 (length done))
                   ++ replicate (nu - length done) 0)
              (seq 0 nu) coef0) as (coef & Hrun & HI).
  - simpl. rewrite Nat.sub_0_r. auto.
  - intros done x rest coef Hsplit (Hl & Hm & Hi & Hu).
    destruct (seq_split _ _ _ _ Hsplit) as (-> & _ & Hlt).
    destruct (init_bu_step coef (length done) Hnu Hlt Hm)
      as (coef' & Hstep & Hl' & Hm' & Hi' & Hu').
    { rewrite Hu, lookup_app_r by (rewrite length_map, length_seq; lia).
      apply lookup_replicate_2.
      rewrite length_map, length_seq. lia. }
    exists coef'. split; [exact Hstep|].
    rewrite Hl', Hm', Hi', Hu', Hu, length_app. simpl length.
    rewrite Nat.add_1_r, fill_progress by assumption. auto.
  - exists coef. destruct HI as (Hl & Hm & Hi & Hu).
    rewrite length_seq, Nat.sub_diag in Hu. simpl in Hu.
    rewrite app_nil_r in Hu. auto.
Qed.


(** One iteration of the loop over the items, once the user biases
    are in place as an array. *)
Lemma init_bi_eval (coef : list R) (i : nat) :
  nu <> 1%nat ->
  window dt1 Fmu coef = [gb] ->
  window dt1 Fbu coef = map ub (seq 0 nu) ->
  init_bi self ev sc nu ni coef i
  = match filter (fun es => es.1.2 = Z.of_nat i) (zip ev sc) with
    | [] => Ok coef
    | _ => vset dt1 Fbi i (ib i) coef
    end.
Proof.
  intros Hnu Hmu Hbu. unfold init_bi.
  change (ev.*1) with (map fst ev). change (ev.*2) with (map snd ev).
  rewrite (nonzero_eq_length snd ev sc _ Hsc).
  rewrite (take_nonzero_eq snd ev sc _ Hsc).
  rewrite (take_nonzero_eq snd ev (map fst ev))
    by now rewrite length_map.
  unfold spec_item_bias.
  destruct (filter (fun es => es.1.2 = Z.of_nat i) (zip ev sc))
    as [|es mine] eqn:Hmine.
  - reflexivity.
  - cbn [length Nat.ltb Nat.leb rbind]. rewrite Hmu.
    rewrite (getitem_ok _ _ 0) by (simpl; lia). cbn [rbind].
    rewrite fwindow_array by (now apply array_bu).
    cbn [vtake].
    rewrite (take_ok _ _ 0).
    2:{ apply (selected_Forall _ snd).
        rewrite Hbu, length_map, length_seq.
        apply Forall_fmap. eapply Forall_impl; [exact Hev|].
        intros e [H _]; exact H. }
    cbn [rbind]. f_equal.
    unfold mean. rewrite length_map. f_equal.
    rewrite <- Hmine at 1.
    rewrite (zip_with_selected snd) by exact Hsc.
    rewrite Hmine. f_equal.
    apply Forall_fmap_ext.
    pose proof (selected_events_Forall _ snd (Z.of_nat i) ev sc Hev)
      as Hval.
    rewrite Hmine in Hval.
    eapply Forall_impl; [exact Hval|].
    intros [[u j] s] [[Hu0 Hu1] _]. simpl in *.
    rewrite Hbu.
    rewrite (nth_lookup_Some _ _ _ (ub (Z.to_nat u))).
    + lra.
    + rewrite list_lookup_fmap, lookup_seq_lt by lia. reflexivity.
Qed.

Lemma init_bi_step (coef : list R) (i : nat) :
  nu <> 1%nat -> ni <> 1%nat ->
  (i < ni)%nat ->
  window dt1 Fmu coef = [gb] ->
  window dt1 Fbu coef = map ub (seq 0 nu) ->
  window dt1 Fbi coef !! i = Some 0 ->
  exists coef',
    init_bi self ev sc nu ni coef i = Ok coef' /\
    length coef' = length coef /\
    window dt1 Fmu coef' = window dt1 Fmu coef /\
    window dt1 Fbu coef' = window dt1 Fbu coef /\
    window dt1 Fbi coef' = <[i := ib i]> (window dt1 Fbi coef).
Proof.
  intros Hnu Hni Hi Hmu Hbu H0.
  rewrite init_bi_eval by assumption.
  assert (i < field_size dt1 Fbi)%nat as Hi'
    by (rewrite field_size_eq; exact Hi).
  unfold spec_item_bias.
  destruct (filter (fun es => es.1.2 = Z.of_nat i) (zip ev sc))
    as [|es mine] eqn:Hmine.
  - exists coef. repeat split; try reflexivity.
    symmetry. now apply list_insert_id.
  - rewrite vset_array by (now apply array_bi).
    eexists. split; [reflexivity|].
    rewrite view_set_length.
    rewrite !window_view_set_other by (congruence || assumption).
    rewrite window_view_set by assumption.
    repeat split; reflexivity.
Qed.

Lemma init_bi_loop (coef0 : list R) :
  nu <> 1%nat -> ni <> 1%nat ->
  window dt1 Fmu coef0 = [gb] ->
  window dt1 Fbu coef0 = map ub (seq 0 nu) ->
  window dt1 Fbi coef0 = replicate ni 0 ->
  exists coef,
    rfoldM (init_bi self ev sc nu ni) coef0 (seq 0 ni) = Ok coef /\
    length coef = length coef0 /\
    window dt1 Fmu coef = [gb] /\
    window dt1 Fbu coef = map ub (seq 0 nu) /\
    window dt1 Fbi coef = map ib (seq 0 ni).
Proof.
  intros Hnu Hni Hmu Hbu Hbi.
  destruct (rfoldM_inv (init_bi self ev sc nu ni)
              (fun done coef =>
                 length coef = length coef0 /\
                 window dt1 Fmu coef = [gb] /\
                 window dt1 Fbu coef = map ub (seq 0 nu) /\
                 window dt1 Fbi coef
                 = map ib (seq 0 (length done))
                   ++ replicate (ni - length done) 0)
              (seq 0 ni) coef0) as (coef & Hrun & HI).
  - simpl. rewrite Nat.sub_0_r. auto.
  - intros done x rest coef Hsplit (Hl & Hm & Hu & Hi).
    destruct (seq_split _ _ _ _ Hsplit) as (-> & _ & Hlt).
    destruct (init_bi_step coef (length done) Hnu Hni Hlt Hm Hu)
      as (coef' & Hstep & Hl' & Hm' & Hu' & Hi').
    { rewrite Hi, lookup_app_r by (rewrite length_map, length_seq; lia).
      apply lookup_replicate_2.
      rewrite length_map, length_seq. lia. }
    exists coef'. split; [exact Hstep|].
    rewrite Hl', Hm', Hu', Hi', Hi, length_app. simpl length.
    rewrite Nat.add_1_r, fill_progress by assumption. auto.
  - exists coef. destruct HI as (Hl & Hm & Hu & Hi).
    rewrite length_seq, Nat.sub_diag in Hi. simpl in Hi.
    rewrite app_nil_r in Hi. auto.
Qed.

Lemma init_var_loop (coef : list R) :
  nu <> 1%nat -> ni <> 1%nat ->
  window dt1 Fmu coef = [gb] ->
  window dt1 Fbu coef = map ub (seq 0 nu) ->
  window dt1 Fbi coef = map ib (seq 0 ni) ->
  exists var,
    rfoldM (init_var self ev sc nu ni coef) 0 (seq 0 (length ev)) = Ok var.
Proof.
  intros Hnu Hni Hmu Hbu Hbi.
  destruct (rfoldM_inv (init_var self ev sc nu ni coef)
              (fun _ _ => True) (seq 0 (length ev)) 0)
    as (var & Hrun & _); [exact I | | now exists var].
  intros done x rest var Hsplit _.
  destruct (seq_split _ _ _ _ Hsplit) as (-> & _ & Hlt).
  unfold init_var.
  rewrite (getitem_ok sc _ 0) by lia. cbn [rbind].
  rewrite Hmu, (getitem_ok _ _ 0) by (simpl; lia). cbn [rbind].
  rewrite (getitem_ok ev _ (0, 0)%Z) by lia. cbn [rbind].
  rewrite Nat2Z.id.
  assert (valid_event nu ni (nth (length done) ev (0, 0)%Z)) as [Hu Hi].
  { apply (proj1 (Forall_forall _ _) Hev).
    apply list_elem_of_In, nth_In. exact Hlt. }
  rewrite (fwindow_array _ Fbu) by (now apply array_bu).
  rewrite (fwindow_array _ Fbi) by (now apply array_bi).
  cbn [vgetitem].
  rewrite Hbu, (getitem_ok _ _ 0)
    by (rewrite length_map, length_seq; exact Hu).
  cbn [rbind].
  rewrite Hbi, (getitem_ok _ _ 0)
    by (rewrite length_map, length_seq; exact Hi).
  cbn [rbind]. eauto.
Qed.

Lemma window_zeros (f : field) :
  window dt1 f (replicate (itemsize dt1) 0)
  = replicate (field_size dt1 f) 0.
Proof.
  unfold window. rewrite drop_replicate, take_replicate. f_equal.
  pose proof (field_fits dt1 f). lia.
Qed.

Lemma init_coef_ok (rng : rng_state) :
  nu <> 1%nat -> ni <> 1%nat ->
  ev <> [] ->
  exists st,
    _init_coef self ev sc nu ni rng = Ok st /\
    _dt st = dt1 /\
    length (_coef st) = itemsize dt1 /\
    window dt1 Fmu (_coef st) = [gb] /\
    window dt1 Fbu (_coef st) = map ub (seq 0 nu) /\
    window dt1 Fbi (_coef st) = map ib (seq 0 ni) /\
    _reg st = C self / INR (1 + (k self + 1) * (nu + ni)).
Proof.
  intros Hnu Hni Hne. rewrite init_coef_unfold. cbv zeta.
  pose proof (alloc_length nu ni (k self)) as Hl0.
  set (zeros := replicate _ 0) in *.
  assert (zeros = replicate (itemsize dt1) 0) as Hz.
  { unfold zeros. now rewrite itemsize_eq. }
  set (coef0 := view_set dt1 Fmu 0 _ zeros).
  assert (window dt1 Fmu coef0 = [gb]) as Hmu0.
  { unfold coef0. rewrite window_view_set
      by (rewrite field_size_eq; lia).
    rewrite Hz, window_zeros. unfold spec_global_bias, mean.
    now rewrite Hsc. }
  assert (forall f, f <> Fmu -> window dt1 f coef0
                                = replicate (field_size dt1 f) 0) as Hw0.
  { intros f Hf. unfold coef0.
    rewrite window_view_set_other
      by (congruence || (rewrite field_size_eq; lia)).
    now rewrite Hz, window_zeros. }
  destruct (init_bu_loop coef0 Hnu Hmu0)
    as (c1 & -> & L1 & M1 & I1 & U1).
  { rewrite Hw0, field_size_eq by congruence. reflexivity. }
  cbn [rbind].
  destruct (init_bi_loop c1 Hnu Hni M1 U1)
    as (c2 & -> & L2 & M2 & U2 & I2).
  { rewrite I1, Hw0, field_size_eq by congruence. reflexivity. }
  cbn [rbind].
  destruct (init_var_loop c2 Hnu Hni M2 U2 I2) as (var & ->).
  cbn [rbind].
  destruct (Nat.eqb_spec (length ev) 0) as [H0|_].
  { destruct ev; [congruence | discriminate]. }
  unfold normal. eexists. split; [reflexivity|]. cbn [_dt _coef _reg].
  unfold view_fill.
  rewrite !view_fill_from_length.
  rewrite !(window_view_fill_from_other dt1 Fq)
    by (congruence ||
        (rewrite length_map, length_seq, field_size_eq; simpl; lia)).
  rewrite !(window_view_fill_from_other dt1 Fp)
    by (congruence ||
        (rewrite length_map, length_seq, field_size_eq; simpl; lia)).
  repeat split; try assumption.
  rewrite L2, L1. unfold coef0. now rewrite view_set_length.
Qed.

(** With one user, or with two users or more and one item, the first
    bias assignment of a batch in range is refused. *)
Lemma init_coef_scalar (rng : rng_state) :
  ev <> [] ->
  nu = 1%nat \/ ni = 1%nat ->
  _init_coef self ev sc nu ni rng = Raise TypeError.
Proof.
  intros Hne Hone. rewrite init_coef_unfold. cbv zeta.
  pose proof (alloc_length nu ni (k self)) as Hl0.
  set (zeros := replicate _ 0) in *.
  assert (zeros = replicate (itemsize dt1) 0) as Hz.
  { unfold zeros. now rewrite itemsize_eq. }
  set (coef0 := view_set dt1 Fmu 0 _ zeros).
  assert (window dt1 Fmu coef0 = [gb]) as Hmu0.
  { unfold coef0. rewrite window_view_set
      by (rewrite field_size_eq; lia).
    rewrite Hz, window_zeros. unfold spec_global_bias, mean.
    now rewrite Hsc. }
  assert (forall f, f <> Fmu -> window dt1 f coef0
                                = replicate (field_size dt1 f) 0) as Hw0.
  { intros f Hf. unfold coef0.
    rewrite window_view_set_other
      by (congruence || (rewrite field_size_eq; lia)).
    now rewrite Hz, window_zeros. }
  destruct (zip_head ev sc nu ni Hne Hsc Hev)
    as (e0 & s0 & rest & Hzip & Hu0 & Hi0).
  destruct (Nat.eq_dec nu 1%nat) as [Hnu|Hnu].
  - replace (seq 0 nu) with [0%nat] by now rewrite Hnu.
    rewrite (rfoldM_raise_head _ _ _ _ TypeError); [reflexivity|].
    rewrite init_bu_eval by exact Hmu0.
    rewrite Hzip, filter_cons, decide_True by (simpl; lia).
    apply vset_scalar. simpl. now apply Nat.eqb_eq.
  - assert (ni = 1%nat) as Hni by tauto.
    destruct (init_bu_loop coef0 Hnu Hmu0)
      as (c1 & -> & L1 & M1 & I1 & U1).
    { rewrite Hw0, field_size_eq by congruence. reflexivity. }
    cbn [rbind].
    replace (seq 0 ni) with [0%nat] by now rewrite Hni.
    rewrite (rfoldM_raise_head _ _ _ _ TypeError); [reflexivity|].
    rewrite init_bi_eval by assumption.
    rewrite Hzip, filter_cons, decide_True by (simpl; lia).
    apply vset_scalar. simpl. now apply Nat.eqb_eq.
Qed.

End InitValid.

Lemma window_region (nu ni kk : nat) (coef : list R) :
  length coef = spec_length nu ni kk ->
  let dt := mkDtype nu ni kk in
  let r := spec_regions nu ni kk coef in
  window dt Fmu coef = r_mu r /\
  window dt Fbu coef = r_bu r /\
  window dt Fbi coef = r_bi r.
Proof.
  intros Hlen dt r.
  destruct (views_are_regions nu ni kk coef Hlen)
    as (Vmu & Vbu & Vbi & _).
  pose proof (spec_length_itemsize nu ni kk coef Hlen) as Hl.
  rewrite (view_ok _ _ Hl) in Vmu, Vbu, Vbi.
  split; [reflexivity|].
  split; [now injection Vbu | now injection Vbi].
Qed.

Lemma itemsize_spec_length (nu ni kk : nat) :
  itemsize (mkDtype nu ni kk) = spec_length nu ni kk.
Proof. rewrite itemsize_eq. unfold spec_length. simpl. lia. Qed.

(** C3.  For every non-empty batch of events with indices in range and
    one score per event, on a layout whose bias fields are arrays (neither
    exactly one user nor exactly one item), the initializer succeeds and
    leaves in the buffer: as global bias the mean of all scores; as bias
    of each user the mean over the user's events of (score - global
    bias), and 0 for a user without events; as bias of each item the mean
    over the item's events of (score - global bias - bias of the event's
    user), and 0 for an item without events.  With exactly one user or
    exactly one item the bias field is a scalar, and the initializer
    raises TypeError at its first bias assignment. *)
Theorem initial_biases (self : PMF) (ev : events) (sc : list R)
  (nu ni : nat) (rng : rng_state) :
  ev <> [] ->
  length sc = length ev ->
  valid_events nu ni ev ->
  (nu <> 1%nat -> ni <> 1%nat ->
   exists st,
     _init_coef self ev sc nu ni rng = Ok st /\
     let r := spec_regions nu ni (k self) (_coef st) in
     r_mu r = [spec_global_bias sc] /\
     r_bu r = map (spec_user_bias ev sc) (seq 0 nu) /\
     r_bi r = map (spec_item_bias ev sc) (seq 0 ni)) /\
  (nu = 1%nat \/ ni = 1%nat ->
   _init_coef self ev sc nu ni rng = Raise TypeError).
Proof.
  intros Hne Hsc Hev. split.
  - intros Hnu Hni.
    destruct (init_coef_ok self ev sc nu ni Hsc Hev rng Hnu Hni Hne)
      as (st & Hrun & Hdt & Hlen & Hmu & Hbu & Hbi & _).
    exists st. split; [exact Hrun|].
    rewrite itemsize_spec_length in Hlen.
    destruct (window_region nu ni (k self) (_coef st) Hlen)
      as (Wmu & Wbu & Wbi).
    cbv zeta. rewrite <- Wmu, <- Wbu, <- Wbi. auto.
  - intros Hone. now apply init_coef_scalar.
Qed.

Lemma init_coef_state (self : PMF) (ev : events) (sc : list R)
  (nu ni : nat) (rng : rng_state) (st : pmf_state) :
  _init_coef self ev sc nu ni rng = Ok st ->
  _dt st = mkDtype nu ni (k self) /\
  _reg st = C self / INR (1 + (k self + 1) * (nu + ni)).
Proof.
  rewrite init_coef_unfold. cbv zeta. intros H.
  apply rbind_ok in H as (c1 & _ & H).
  apply rbind_ok in H as (c2 & _ & H).
  apply rbind_ok in H as (var & _ & H).
  destruct (length ev =? 0)%nat; [discriminate|].
  unfold normal in H. injection H as <-. split; reflexivity.
Qed.

(** C8.  Whenever the initializer succeeds, the regularization scale it
    stores is C / (1 + (k+1) * (n_users + n_items)), and it is the factor
    of the sum of squares in the loss of every batch with at least one
    event. *)
Theorem reg_scale (self : PMF) (ev : events) (sc : list R)
  (nu ni : nat) (rng : rng_state) (st : pmf_state) :
  _init_coef self ev sc nu ni rng = Ok st ->
  _reg st = C self / (1 + (INR (k self) + 1) * (INR nu + INR ni)) /\
  forall coef ev' sc',
    length coef = spec_length nu ni (k self) ->
    ev' <> [] ->
    length sc' = length ev' ->
    valid_events nu ni ev' ->
    loss st coef ev' sc'
    = Ok (spec_loss
            (C self / (1 + (INR (k self) + 1) * (INR nu + INR ni)))
            (spec_regions nu ni (k self) coef) ev' sc').
Proof.
  intros H. destruct (init_coef_state _ _ _ _ _ _ _ H) as [Hdt Hreg].
  destruct (init_coef_sizes _ _ _ _ _ _ _ H) as [Hnu Hni].
  assert (_reg st
          = C self / (1 + (INR (k self) + 1) * (INR nu + INR ni))) as Hr.
  { rewrite Hreg. f_equal.
    rewrite plus_INR, mult_INR, !plus_INR. reflexivity. }
  split; [exact Hr|]. intros coef ev' sc' Hlen _ Hsc Hev.
  rewrite <- Hr.
  pose proof (loss_spec st coef ev' sc') as HL. cbv zeta in HL.
  rewrite Hdt in HL. now apply HL.
Qed.
(** ** Degenerate object counts *)



Lemma vtake_raise_IndexError (b : fview) (idx : list Z) (e : pyexc) :
  vtake b idx = Raise e -> e = IndexError.
Proof.
  destruct b as [x|w]; simpl; [congruence|]. apply take_raise_IndexError.
Qed.










(** ** Fitting *)

Lemma rfoldM_preserve {A S} (P : S -> Prop) (f : S -> A -> result S)
  (l : list A) (s s' : S) :
  (forall s x s', f s x = Ok s' -> P s -> P s') ->
  rfoldM f s l = Ok s' -> P s -> P s'.
Proof.
  intros Hf. revert s. induction l as [|x l IH]; intros s H Hs; simpl in H.
  - now injection H as <-.
  - apply rbind_ok in H as (s1 & H1 & H). eauto.
Qed.

Lemma init_bu_length (self : PMF) (ev : events) (sc : list R)
  (nu ni : nat) (coef coef' : list R) (i : nat) :
  init_bu self ev sc nu ni coef i = Ok coef' ->
  length coef' = length coef.
Proof.
  unfold init_bu. destruct (0 <? _)%nat; [|now intros [= <-]].
  intros H. apply rbind_ok in H as (scj & _ & H).
  apply rbind_ok in H as (mu0 & _ & H).
  exact (vset_length _ _ _ _ _ _ H).
Qed.

Lemma init_bi_length (self : PMF) (ev : events) (sc : list R)
  (nu ni : nat) (coef coef' : list R) (i : nat) :
  init_bi self ev sc nu ni coef i = Ok coef' ->
  length coef' = length coef.
Proof.
  unfold init_bi. destruct (0 <? _)%nat; [|now intros [= <-]].
  intros H. apply rbind_ok in H as (scj & _ & H).
  apply rbind_ok in H as (mu0 & _ & H).
  apply rbind_ok in H as (uj & _ & H).
  apply rbind_ok in H as (buj & _ & H).
  exact (vset_length _ _ _ _ _ _ H).
Qed.

Lemma init_coef_length (self : PMF) (ev : events) (sc : list R)
  (nu ni : nat) (rng : rng_state) (st : pmf_state) :
  _init_coef self ev sc nu ni rng = Ok st ->
  length (_coef st) = spec_length nu ni (k self).
Proof.
  rewrite init_coef_unfold. cbv zeta. intros H.
  apply rbind_ok in H as (c1 & H1 & H).
  apply rbind_ok in H as (c2 & H2 & H).
  apply rbind_ok in H as (var & _ & H).
  destruct (length ev =? 0)%nat; [discriminate|].
  unfold normal in H. injection H as <-. cbn [_coef].
  unfold view_fill. rewrite !view_fill_from_length.
  apply (rfoldM_preserve
           (fun c => length c = spec_length nu ni (k self))) in H2;
    [exact H2 | intros s x s' Hs <-; eapply init_bi_length, Hs |].
  apply (rfoldM_preserve
           (fun c => length c = spec_length nu ni (k self))) in H1;
    [exact H1 | intros s x s' Hs <-; eapply init_bu_length, Hs |].
  rewrite view_set_length, length_replicate. unfold spec_length. lia.
Qed.

Lemma assign_all_length (dst src out : list R) :
  Np.assign_all dst src = Ok out -> length out = length dst.
Proof.
  unfold Np.assign_all.
  destruct (Nat.eqb_spec (length src) (length dst)) as [Heq|_].
  - now intros [= <-].
  - destruct src as [|x [|y src]]; try discriminate.
    intros [= <-]. apply length_replicate.
Qed.

(** What a successful [fit] went through: the initializer, the
    optimizer, the copy of the optimizer's point into the buffer and the
    extension of the views of that buffer. *)
Lemma fit_run fmin_cg (self : PMF) (ev : events) (sc : list R)
  (nu ni : nat) (maxiter_arg : option nat) (rng : rng_state)
  (m : fitted) :
  fit fmin_cg self ev sc nu ni maxiter_arg rng = Ok m ->
  exists st res coef,
    _init_coef self ev sc nu ni rng = Ok st /\
    fmin_cg (fun c => loss st c ev sc) (_coef st)
            (fun c => grad_loss self st c ev sc nu ni) (tol self)
            (default (maxiter self) maxiter_arg
             * spec_length nu ni (k self))%nat
    = Ok res /\
    Np.assign_all (_coef st) (xopt res) = Ok coef /\
    length coef = spec_length nu ni (k self) /\
    extended nu ni (k self) coef m /\
    loss st (_coef st) ev sc = Ok (initial_loss (fit_results_ m)) /\
    final_loss (fit_results_ m) = fopt res.
Proof.
  unfold fit. intros H.
  apply rbind_ok in H as (st & Hinit & H).
  apply rbind_ok in H as (i_loss & Hloss & H).
  apply rbind_ok in H as (res & Hcg & H).
  apply rbind_ok in H as (coef & Hassign & H).
  pose proof (init_coef_length _ _ _ _ _ _ _ Hinit) as Hl.
  destruct (init_coef_state _ _ _ _ _ _ _ Hinit) as [Hdt _].
  destruct (init_coef_sizes _ _ _ _ _ _ _ Hinit) as [Hnu Hni].
  pose proof (assign_all_length _ _ _ Hassign) as Hlen.
  rewrite Hl in Hlen.
  exists st, res, coef. split; [exact Hinit|].
  split.
  { rewrite <- Hcg, Hl. destruct maxiter_arg; reflexivity. }
  split; [exact Hassign|]. split; [exact Hlen|].
  unfold add_unknown in H. rewrite Hdt in H.
  destruct (views_are_regions nu ni (k self) coef Hlen)
    as (Vmu & Vbu & Vbi & Vp & Vq).
  rewrite !view1_array in H by (now apply scalar_field_false).
  rewrite Vmu, Vbu, Vbi, Vp, Vq in H. cbn [rbind vvalues] in H.
  injection H as <-. cbn [fit_results_ initial_loss final_loss].
  split; [|split; [exact Hloss | reflexivity]].
  unfold extended. cbn. auto 6.
Qed.

Lemma assign_all_same (dst src out : list R) :
  Np.assign_all dst src = Ok out -> length src = length dst -> out = src.
Proof.
  unfold Np.assign_all. intros H Hl.
  rewrite Hl, Nat.eqb_refl in H. now injection H as <-.
Qed.

Lemma fit_extended fmin_cg (self : PMF) (ev : events) (sc : list R)
  (nu ni : nat) (maxiter_arg : option nat) (rng : rng_state)
  (m : fitted) :
  fit fmin_cg self ev sc nu ni maxiter_arg rng = Ok m ->
  exists coef,
    length coef = spec_length nu ni (k self) /\
    extended nu ni (k self) coef m.
Proof.
  intros H.
  destruct (fit_run _ _ _ _ _ _ _ _ _ H)
    as (st & res & coef & _ & _ & _ & Hlen & Hext & _).
  now exists coef.
Qed.

(** ** Prediction on internal indices *)

Lemma icolumn_rows (evs : events) :
  icolumn (rows_of evs) 0 = Ok (evs.*1) /\
  icolumn (rows_of evs) 1 = Ok (evs.*2).
Proof.
  unfold icolumn, rows_of.
  induction evs as [|[u i] evs [IH0 IH1]]; simpl; [auto|].
  rewrite IH0, IH1. auto.
Qed.

Lemma raw_predict_rows (m : fitted) (evs : events) :
  raw_predict m (rows_of evs)
  = esc_of (mu_ m) (Array (bu_ m)) (Array (bi_ m)) (p_ m) (q_ m)
           (evs.*1) (evs.*2).
Proof.
  unfold raw_predict. destruct (icolumn_rows evs) as [-> ->].
  reflexivity.
Qed.

Lemma dot_zeros (n : nat) (x : list R) : dot (replicate n 0) x = 0.
Proof.
  unfold dot. revert x. induction n as [|n IH]; intros [|y x]; simpl;
    try reflexivity. rewrite IH. ring.
Qed.

Lemma extended_lengths (nu ni kk : nat) (coef : list R) (m : fitted) :
  length coef = spec_length nu ni kk ->
  extended nu ni kk coef m ->
  length (mu_ m) = 1%nat /\ length (bu_ m) = S nu /\
  length (bi_ m) = S ni /\ length (p_ m) = S nu /\ length (q_ m) = S ni.
Proof.
  intros Hlen (-> & -> & -> & -> & ->).
  destruct (spec_regions_lengths nu ni kk coef Hlen)
    as (Lmu & Lbu & Lbi & Lp & Lq).
  rewrite !length_app, Lmu, Lbu, Lbi, Lp, Lq. simpl. repeat split; lia.
Qed.

(** In range (fallback sentinel included) the predictor does not fail. *)
Lemma raw_predict_ok (nu ni kk : nat) (coef : list R) (m : fitted)
  (evs : events) :
  length coef = spec_length nu ni kk ->
  extended nu ni kk coef m ->
  valid_events (S nu) (S ni) evs ->
  raw_predict m (rows_of evs) = Ok (map (predicted (tensors m)) evs).
Proof.
  intros Hlen Hext Hev.
  destruct (extended_lengths _ _ _ _ _ Hlen Hext)
    as (Lmu & Lbu & Lbi & Lp & Lq).
  rewrite raw_predict_rows.
  apply (esc_of_ok (tensors m) (S nu) (S ni)); simpl;
    try assumption; lia.
Qed.

Lemma fallback_user_score (nu ni kk : nat) (coef : list R) (m : fitted)
  (i : Z) :
  length coef = spec_length nu ni kk ->
  extended nu ni kk coef m ->
  predicted (tensors m) (Z.of_nat nu, i)
  = nth 0 (mu_ m) 0 + nth (Z.to_nat i) (bi_ m) 0.
Proof.
  intros Hlen Hext.
  destruct (spec_regions_lengths nu ni kk coef Hlen)
    as (Lmu & Lbu & Lbi & Lp & Lq).
  destruct Hext as (Emu & Ebu & Ebi & Ep & Eq).
  unfold predicted, tensors. simpl. rewrite Nat2Z.id.
  rewrite Ebu, Ep.
  rewrite !app_nth2 by lia. rewrite Lbu, Lp, Nat.sub_diag. simpl nth.
  rewrite dot_zeros. ring.
Qed.

Lemma fallback_item_score (nu ni kk : nat) (coef : list R) (m : fitted)
  (u : Z) :
  length coef = spec_length nu ni kk ->
  extended nu ni kk coef m ->
  predicted (tensors m) (u, Z.of_nat ni)
  = nth 0 (mu_ m) 0 + nth (Z.to_nat u) (bu_ m) 0.
Proof.
  intros Hlen Hext.
  destruct (spec_regions_lengths nu ni kk coef Hlen)
    as (Lmu & Lbu & Lbi & Lp & Lq).
  destruct Hext as (Emu & Ebu & Ebi & Ep & Eq).
  unfold predicted, tensors. simpl. rewrite Nat2Z.id.
  rewrite Ebi, Eq.
  rewrite !app_nth2 by lia. rewrite Lbi, Lq, Nat.sub_diag. simpl nth.
  unfold dot.
  assert (forall x n, Np.sum (zip_with Rmult x (replicate n 0)) = 0) as Hz.
  { intros x. induction x as [|y x IH]; intros [|n]; simpl;
      try reflexivity. rewrite IH. ring. }
  rewrite Hz. ring.
Qed.

(** C4.  After a successful fit the model consists of the five regions
    of the buffer into which the point returned by the optimizer was
    copied (that point itself whenever it has the length of the layout),
    where exactly one fallback row of zeros is appended to each of the
    user biases, item biases, user factors and item factors, and none to
    the global bias; predicting with the fallback sentinel as user
    (n_users) gives global bias + item bias, and with the fallback
    sentinel as item (n_items) gives global bias + user bias. *)
Theorem fallback_rows fmin_cg (self : PMF) (ev : events) (sc : list R)
  (nu ni : nat) (maxiter_arg : option nat) (rng : rng_state)
  (m : fitted) :
  fit fmin_cg self ev sc nu ni maxiter_arg rng = Ok m ->
  (exists st res coef,
     _init_coef self ev sc nu ni rng = Ok st /\
     fmin_cg (fun c => loss st c ev sc) (_coef st)
             (fun c => grad_loss self st c ev sc nu ni) (tol self)
             (default (maxiter self) maxiter_arg
              * spec_length nu ni (k self))%nat
     = Ok res /\
     Np.assign_all (_coef st) (xopt res) = Ok coef /\
     (length (xopt res) = spec_length nu ni (k self) ->
      coef = xopt res) /\
     length coef = spec_length nu ni (k self) /\
     extended nu ni (k self) coef m) /\
  (forall i, (0 <= i <= Z.of_nat ni)%Z ->
     raw_predict m [[Z.of_nat nu; i]]
     = Ok [nth 0 (mu_ m) 0 + nth (Z.to_nat i) (bi_ m) 0]) /\
  (forall u, (0 <= u <= Z.of_nat nu)%Z ->
     raw_predict m [[u; Z.of_nat ni]]
     = Ok [nth 0 (mu_ m) 0 + nth (Z.to_nat u) (bu_ m) 0]).
Proof.
  intros Hfit.
  destruct (fit_run _ _ _ _ _ _ _ _ _ Hfit)
    as (st & res & coef & Hinit & Hcg & Hassign & Hlen & Hext & _).
  split.
  { exists st, res, coef.
    split; [exact Hinit|]. split; [exact Hcg|].
    split; [exact Hassign|]. split; [|split; assumption].
    intros Hx. apply (assign_all_same _ _ _ Hassign).
    now rewrite (init_coef_length _ _ _ _ _ _ _ Hinit). }
  split.
  - intros i Hi.
    change [[Z.of_nat nu; i]] with (rows_of [(Z.of_nat nu, i)]).
    rewrite (raw_predict_ok nu ni (k self) coef) by
      (try assumption; repeat constructor; simpl; lia).
    simpl map. now rewrite (fallback_user_score nu ni (k self) coef).
  - intros u Hu.
    change [[u; Z.of_nat ni]] with (rows_of [(u, Z.of_nat ni)]).
    rewrite (raw_predict_ok nu ni (k self) coef) by
      (try assumption; repeat constructor; simpl; lia).
    simpl map. now rewrite (fallback_item_score nu ni (k self) coef).
Qed.

(** ** Indices out of range and negative indices *)

Lemma getitem_ok_inv {A} (a : list A) (i : Z) (x : A) :
  Np.getitem a i = Ok x ->
  (- Z.of_nat (length a) <= i < Z.of_nat (length a))%Z.
Proof.
  intros H.
  destruct (Z_lt_ge_dec i (- Z.of_nat (length a))) as [Hlo|Hlo];
    [rewrite getitem_out in H by lia; discriminate|].
  destruct (Z_lt_ge_dec i (Z.of_nat (length a))) as [Hhi|Hhi];
    [lia|rewrite getitem_out in H by lia; discriminate].
Qed.

Lemma take_ok_inv {A} (a : list A) (idx : list Z) (l : list A) :
  Np.take a idx = Ok l ->
  Forall (fun i => - Z.of_nat (length a) <= i < Z.of_nat (length a))%Z
         idx.
Proof.
  unfold Np.take. revert l.
  induction idx as [|i idx IH]; intros l H; simpl in H; [constructor|].
  apply rbind_ok in H as (x & Hx & H).
  apply rbind_ok in H as (xs & Hxs & _).
  constructor; [now apply getitem_ok_inv in Hx | now apply (IH xs)].
Qed.

Lemma esc_of_raise (mu : list R) (bu bi : fview) (p q : list (list R))
  (users items : list Z) (e : pyexc) :
  esc_of mu bu bi p q users items = Raise e -> e = IndexError.
Proof.
  unfold esc_of.
  destruct (Np.getitem mu 0) as [mu0|e0] eqn:H0; cbn [rbind];
    [|intros [= <-]; exact (getitem_raise_IndexError _ _ _ H0)].
  destruct (vtake bu users) as [bu_e|e1] eqn:H1; cbn [rbind];
    [|intros [= <-]; exact (vtake_raise_IndexError _ _ _ H1)].
  destruct (vtake bi items) as [bi_e|e2] eqn:H2; cbn [rbind];
    [|intros [= <-]; exact (vtake_raise_IndexError _ _ _ H2)].
  destruct (Np.take p users) as [p_e|e3] eqn:H3; cbn [rbind];
    [|intros [= <-]; exact (take_raise_IndexError _ _ _ H3)].
  destruct (Np.take q items) as [q_e|e4] eqn:H4; cbn [rbind];
    [discriminate|].
  intros [= <-]. exact (take_raise_IndexError _ _ _ H4).
Qed.

Lemma esc_of_ok_inv (mu bu bi : list R) (p q : list (list R))
  (users items : list Z) (l : list R) :
  esc_of mu (Array bu) (Array bi) p q users items = Ok l ->
  Forall (fun i => - Z.of_nat (length bu) <= i < Z.of_nat (length bu))%Z
         users /\
  Forall (fun i => - Z.of_nat (length bi) <= i < Z.of_nat (length bi))%Z
         items.
Proof.
  unfold esc_of, vtake. intros H.
  apply rbind_ok in H as (mu0 & _ & H).
  apply rbind_ok in H as (bu_e & Hu & H).
  apply rbind_ok in H as (bi_e & Hi & _).
  split; eapply take_ok_inv; eassumption.
Qed.

(** A scalar bias makes the expression of the predicted scores fail,
    whatever the batch is. *)
Lemma esc_of_scalar (mu : list R) (bu bi : fview) (p q : list (list R))
  (users items : list Z) :
  (exists x, bu = Scalar x) \/ (exists x, bi = Scalar x) ->
  esc_of mu bu bi p q users items = Raise IndexError.
Proof.
  intros Hs. unfold esc_of.
  destruct (Np.getitem mu 0) as [mu0|e0] eqn:H0; cbn [rbind];
    [|f_equal; exact (getitem_raise_IndexError _ _ _ H0)].
  destruct (vtake bu users) as [bu_e|e1] eqn:H1; cbn [rbind];
    [|f_equal; exact (vtake_raise_IndexError _ _ _ H1)].
  destruct Hs as [[x ->]|[x ->]]; [discriminate H1|]. reflexivity.
Qed.

Lemma getitem_wrapped {A} (a : list A) (n : nat) (i : Z) :
  length a = S n -> index_accepted n i ->
  Np.getitem a i = Np.getitem a (wrap n i).
Proof.
  intros Hlen [Hlo Hhi]. unfold wrap.
  destruct (Z.ltb_spec i 0) as [Hneg|_]; [|reflexivity].
  rewrite getitem_wrap by lia. f_equal. lia.
Qed.

Lemma take_wrapped {A} (a : list A) (n : nat) (idx : list Z) :
  length a = S n -> Forall (index_accepted n) idx ->
  Np.take a idx = Np.take a (map (wrap n) idx).
Proof.
  intros Hlen Hidx. unfold Np.take.
  induction Hidx as [|i idx Hi _ IH]; simpl; [reflexivity|].
  now rewrite (getitem_wrapped a n i Hlen Hi), IH.
Qed.

Lemma wrap_valid (n : nat) (i : Z) :
  index_accepted n i -> (0 <= wrap n i < Z.of_nat (S n))%Z.
Proof.
  intros [Hlo Hhi]. unfold wrap. destruct (Z.ltb_spec i 0); lia.
Qed.

Section Accepted.

Variables (nu ni kk : nat) (coef : list R) (m : fitted).
Hypothesis Hlen : length coef = spec_length nu ni kk.
Hypothesis Hext : extended nu ni kk coef m.

Lemma raw_predict_rejected (evs : events) :
  Exists (fun e => ~ index_accepted nu e.1 \/ ~ index_accepted ni e.2)
         evs ->
  raw_predict m (rows_of evs) = Raise IndexError.
Proof.
  intros Hbad.
  destruct (extended_lengths _ _ _ _ _ Hlen Hext)
    as (Lmu & Lbu & Lbi & Lp & Lq).
  rewrite raw_predict_rows.
  destruct (esc_of _ _ _ _ _ _ _) as [l|e] eqn:H.
  - exfalso. apply esc_of_ok_inv in H as [Hu Hi].
    rewrite Lbu in Hu. rewrite Lbi in Hi.
    apply Exists_exists in Hbad as (e & Hin & Hbad).
    assert (index_accepted nu e.1) as Hu'.
    { eapply (proj1 (Forall_forall _ _)) in Hu;
        [|apply list_elem_of_fmap; exists e; split; [reflexivity|exact Hin]].
      unfold index_accepted. lia. }
    assert (index_accepted ni e.2) as Hi'.
    { eapply (proj1 (Forall_forall _ _)) in Hi;
        [|apply list_elem_of_fmap; exists e; split; [reflexivity|exact Hin]].
      unfold index_accepted. lia. }
    tauto.
  - f_equal. now apply esc_of_raise in H.
Qed.

Lemma raw_predict_accepted (evs : events) :
  Forall (fun e => index_accepted nu e.1 /\ index_accepted ni e.2) evs ->
  raw_predict m (rows_of evs)
  = Ok (map (predicted (tensors m)) (map (wrap_event nu ni) evs)).
Proof.
  intros Hacc.
  destruct (extended_lengths _ _ _ _ _ Hlen Hext)
    as (Lmu & Lbu & Lbi & Lp & Lq).
  assert (Forall (index_accepted nu) (evs.*1)) as Hu.
  { apply Forall_fmap. eapply Forall_impl; [exact Hacc|]. now intros e []. }
  assert (Forall (index_accepted ni) (evs.*2)) as Hi.
  { apply Forall_fmap. eapply Forall_impl; [exact Hacc|]. now intros e []. }
  assert (valid_events (S nu) (S ni) (map (wrap_event nu ni) evs)) as Hv.
  { unfold valid_events. apply Forall_map.
    eapply Forall_impl; [exact Hacc|].
    intros e [H1 H2]; split; simpl; now apply wrap_valid. }
  rewrite <- (raw_predict_ok nu ni kk coef) by assumption.
  rewrite !raw_predict_rows. unfold esc_of, vtake.
  rewrite (take_wrapped (bu_ m) nu), (take_wrapped (p_ m) nu),
    (take_wrapped (bi_ m) ni), (take_wrapped (q_ m) ni) by assumption.
  replace ((map (wrap_event nu ni) evs).*1) with (map (wrap nu) (evs.*1)).
  2:{ clear. induction evs as [|e evs IH];
      [reflexivity | simpl; f_equal; exact IH]. }
  replace ((map (wrap_event nu ni) evs).*2) with (map (wrap ni) (evs.*2)).
  2:{ clear. induction evs as [|e evs IH];
      [reflexivity | simpl; f_equal; exact IH]. }
  reflexivity.
Qed.

End Accepted.

Lemma example_fit :
  exists m,
    fit cg_stay example_self example_ev example_sc 3 2 None example_rng
    = Ok m.
Proof. eexists. vm_compute. reflexivity. Defined.

(** C5 (amended).  For every fitted model, [raw_predict] fails with
    IndexError as soon as one index of the batch is strictly greater than
    the fallback sentinel or strictly less than -(sentinel + 1); when
    every index lies between -(sentinel + 1) and the sentinel it returns
    the scores, a negative index counting from the end of the extended
    tensor, so that -1 denotes the fallback row.  In particular
    raw_predict(n_users + 1, 0) raises IndexError, and raw_predict(-1, 0)
    returns global bias + bias of item 0. *)
Theorem raw_predict_index_range fmin_cg (self : PMF) (ev : events)
  (sc : list R) (nu ni : nat) (maxiter_arg : option nat)
  (rng : rng_state) (m : fitted) :
  fit fmin_cg self ev sc nu ni maxiter_arg rng = Ok m ->
  (forall evs,
     Exists (fun e => ~ index_accepted nu e.1 \/ ~ index_accepted ni e.2)
            evs ->
     raw_predict m (rows_of evs) = Raise IndexError) /\
  (forall evs,
     Forall (fun e => index_accepted nu e.1 /\ index_accepted ni e.2)
            evs ->
     raw_predict m (rows_of evs)
     = Ok (map (predicted (tensors m)) (map (wrap_event nu ni) evs))) /\
  raw_predict m [[(Z.of_nat nu + 1)%Z; 0%Z]] = Raise IndexError /\
  raw_predict m [[(-1)%Z; 0%Z]]
  = Ok [nth 0 (mu_ m) 0 + nth 0 (bi_ m) 0].
Proof.
  intros Hfit.
  destruct (fit_extended _ _ _ _ _ _ _ _ _ Hfit) as (coef & Hlen & Hext).
  split; [exact (raw_predict_rejected nu ni _ coef m Hlen Hext)|].
  split; [exact (raw_predict_accepted nu ni _ coef m Hlen Hext)|].
  split.
  - change [[(Z.of_nat nu + 1)%Z; 0%Z]]
      with (rows_of [((Z.of_nat nu + 1)%Z, 0%Z)]).
    apply (raw_predict_rejected nu ni _ coef m Hlen Hext).
    constructor. left. unfold index_accepted. simpl. lia.
  - change [[(-1)%Z; 0%Z]] with (rows_of [((-1)%Z, 0%Z)]).
    rewrite (raw_predict_accepted nu ni _ coef m Hlen Hext)
      by (repeat constructor; unfold index_accepted; simpl; lia).
    simpl map. unfold wrap_event, wrap. simpl.
    replace (-1 + (Z.of_nat nu + 1))%Z with (Z.of_nat nu) by lia.
    now rewrite (fallback_user_score nu ni (k self) coef).
Qed.

Lemma raw_predict_index_range_witness :
  exists m,
    fit cg_stay example_self example_ev example_sc 3 2 None example_rng
    = Ok m /\
    raw_predict m [[(-1)%Z; 0%Z]] = Ok [nth 0 (mu_ m) 0 + nth 0 (bi_ m) 0].
Proof.
  destruct example_fit as [m Hm]. exists m. split; [exact Hm|].
  apply (raw_predict_index_range _ _ _ _ _ _ _ _ _ Hm).
Defined.

(** C5, as stated, fails for negative indices: on the model of the small
    training run, raw_predict(-1, 0) returns a score. *)
Lemma negative_index_accepted :
  ~ (forall fmin_cg self ev sc nu ni maxiter_arg rng m (u i : Z),
        fit fmin_cg self ev sc nu ni maxiter_arg rng = Ok m ->
        (u < 0 \/ Z.of_nat nu < u \/ i < 0 \/ Z.of_nat ni < i)%Z ->
        is_raise (raw_predict m [[u; i]])).
Proof.
  intros H. destruct example_fit as [m Hm].
  destruct (H _ _ _ _ _ _ _ _ m (-1)%Z 0%Z Hm) as [e He]; [lia|].
  destruct (fit_extended _ _ _ _ _ _ _ _ _ Hm) as (coef & Hlen & Hext).
  change [[(-1)%Z; 0%Z]] with (rows_of [((-1)%Z, 0%Z)]) in He.
  rewrite (raw_predict_accepted 3 2 _ coef m Hlen Hext) in He
    by (repeat constructor; unfold index_accepted; simpl; lia).
  discriminate He.
Qed.

Lemma fallback_rows_witness :
  exists m st,
    fit cg_stay example_self example_ev example_sc 3 2 None example_rng
    = Ok m /\
    _init_coef example_self example_ev example_sc 3 2 example_rng
    = Ok st /\
    extended 3 2 1 (_coef st) m /\
    raw_predict m [[3%Z; 0%Z]] = Ok [nth 0 (mu_ m) 0 + nth 0 (bi_ m) 0].
Proof.
  destruct example_fit as [m Hm]. exists m.
  destruct (fallback_rows _ _ _ _ _ _ _ _ _ Hm)
    as ((st & res & coef & Hinit & Hcg & _ & Hsame & _ & Hext)
        & Huser & _).
  exists st. split; [exact Hm|]. split; [exact Hinit|]. split.
  - injection Hcg as <-. cbn [xopt] in Hsame.
    rewrite <- Hsame; [exact Hext|].
    exact (init_coef_length _ _ _ _ _ _ _ Hinit).
  - apply (Huser 0%Z). simpl. lia.
Defined.
(** ** The loss and its gradient on a layout with a scalar bias field *)

Lemma fwindow_scalar_bias (nu ni kk : nat) (coef : list R) :
  nu = 1%nat \/ ni = 1%nat ->
  (exists x, fwindow (mkDtype nu ni kk) Fbu coef = Scalar x) \/
  (exists x, fwindow (mkDtype nu ni kk) Fbi coef = Scalar x).
Proof.
  intros [H|H]; [left|right]; eexists; apply fwindow_scalar; simpl;
    now apply Nat.eqb_eq.
Qed.


Lemma grad_loss_scalar (self : PMF) (st : pmf_state) (coef : list R)
  (ev : events) (sc : list R) (n_users n_items : nat) :
  let nu := dt_n_users (_dt st) in
  let ni := dt_n_items (_dt st) in
  let kk := dt_k (_dt st) in
  length coef = spec_length nu ni kk ->
  nu = 1%nat \/ ni = 1%nat ->
  grad_loss self st coef ev sc n_users n_items = Raise IndexError.
Proof.
  intros nu ni kk Hlen Hone.
  pose proof (spec_length_itemsize nu ni kk coef Hlen) as Hl.
  unfold grad_loss, view1.
  replace (_dt st) with (mkDtype nu ni kk) by (now destruct (_dt st)).
  rewrite !(view2_ok _ _ Hl), !(view_ok _ _ Hl). cbn [rbind].
  assert (length (replicate (length coef) 0) = itemsize (mkDtype nu ni kk))
    as Hl0 by now rewrite length_replicate.
  rewrite !(view2_ok _ _ Hl0), !(view_ok _ _ Hl0). cbn [rbind].
  rewrite esc_of_scalar; [reflexivity|].
  now apply fwindow_scalar_bias.
Qed.


(** ** Prediction on external ids *)

Lemma set_icolumns_rows (reqs : events) (c0 c1 : Z -> Z) :
  set_icolumn (set_icolumn (rows_of reqs) 0 (map c0 (reqs.*1))) 1
              (map c1 (reqs.*2))
  = rows_of (map (fun e => (c0 e.1, c1 e.2)) reqs).
Proof.
  unfold set_icolumn, rows_of.
  induction reqs as [|[u i] reqs IH]; [reflexivity|].
  simpl. f_equal. exact IH.
Qed.

Lemma shape1_rows (reqs : events) :
  reqs <> [] -> shape1 (rows_of reqs) = 2%nat.
Proof. destruct reqs; [congruence | reflexivity]. Qed.

Section External.

Variable self : recommender.
Variables (ou oi : Z) (nu ni : nat) (du di : gmap Z Z).
Hypothesis Hs : s_event self = 2%nat.
Hypothesis Hot : event_otypes self = [ou; oi].
Hypothesis Hnu : Np.getitem (n_objects self) ou = Ok (Z.of_nat nu).
Hypothesis Hni : Np.getitem (n_objects self) oi = Ok (Z.of_nat ni).
Hypothesis Hdu : Np.getitem (iid self) ou = Ok du.
Hypothesis Hdi : Np.getitem (iid self) oi = Ok di.

Abbreviation iid_event :=
  (fun e : Z * Z => (to_iid nu du e.1, to_iid ni di e.2)).

Lemma to_iid_event_rows (reqs : events) :
  reqs <> [] ->
  to_iid_event self (rows_of reqs) = Ok (rows_of (map iid_event reqs)).
Proof.
  intros Hne. unfold to_iid_event.
  rewrite Hot. unfold Np.take. simpl rmapM. rewrite Hnu, Hni.
  cbn [rbind]. rewrite Hs.
  rewrite shape1_rows by assumption. cbn [Nat.eqb].
  destruct (icolumn_rows reqs) as [Hc0 Hc1].
  simpl seq. cbn [rfoldM]. unfold to_iid_column at 1.
  rewrite Hot.
  change (Np.getitem [ou; oi] (Z.of_nat 0)) with (Ok (A:=Z) ou).
  cbn [rbind]. rewrite Hdu. cbn [rbind].
  change (Z.of_nat 0) with 0%Z. rewrite Hc0. cbn [rbind].
  rewrite (rmapM_ok _ (to_iid nu du)) by (apply Forall_true; reflexivity).
  cbn [rbind]. unfold to_iid_column. rewrite Hot.
  change (Np.getitem [ou; oi] (Z.of_nat 1)) with (Ok (A:=Z) oi).
  cbn [rbind]. rewrite Hdi. cbn [rbind].
  change (Z.of_nat 1) with 1%Z. rewrite Hc1. cbn [rbind].
  rewrite (rmapM_ok _ (to_iid ni di)) by (apply Forall_true; reflexivity).
  cbn [rbind]. f_equal. apply set_icolumns_rows.
Qed.

Hypothesis Rdu : table_in_range nu du.
Hypothesis Rdi : table_in_range ni di.

Lemma to_iid_valid (reqs : events) :
  valid_events (S nu) (S ni) (map iid_event reqs).
Proof.
  unfold valid_events. apply Forall_map, Forall_true.
  intros [eu ei]. unfold valid_event, to_iid. simpl.
  destruct (du !! eu) as [u|] eqn:Hu; destruct (di !! ei) as [i|] eqn:Hi;
    simpl; try (apply Rdu in Hu); try (apply Rdi in Hi); lia.
Qed.

Lemma predict_rows (kk : nat) (coef : list R) (reqs : events) :
  length coef = spec_length nu ni kk ->
  extended nu ni kk coef (model self) ->
  reqs <> [] ->
  predict self (rows_of reqs)
  = Ok (map (predicted (tensors (model self))) (map iid_event reqs)).
Proof.
  intros Hlen Hext Hne. unfold predict.
  pose proof (shape1_rows reqs Hne) as Hshape.
  pose proof (to_iid_event_rows reqs Hne) as Hconv.
  destruct (rows_of reqs) as [|row rows] eqn:E.
  { destruct reqs; [congruence | discriminate]. }
  assert (length row = 2%nat) as -> by exact Hshape.
  rewrite Hshape, Hs. cbn [Nat.eqb negb].
  rewrite Hconv. cbn [rbind]. rewrite <- E in *.
  apply (raw_predict_ok nu ni kk coef); try assumption.
  apply to_iid_valid.
Qed.

End External.

(** C10.  For a recommender whose model comes from a successful fit and
    whose id tables hold internal indices below the object counts, the
    conversion of a request replaces every external id by its table
    entry and an id that is not in the table by the object count of its
    type (the fallback sentinel); [predict] then never fails, and for an
    unknown user (resp. item) it returns global bias + bias of the item
    (resp. user), the score of the fallback row. *)
Theorem unknown_ids_fall_back fmin_cg (pmf : PMF) (ev : events)
  (sc : list R) (nu ni : nat) (maxiter_arg : option nat)
  (rng : rng_state) (self : recommender) (ou oi : Z) (du di : gmap Z Z) :
  fit fmin_cg pmf ev sc nu ni maxiter_arg rng = Ok (model self) ->
  s_event self = 2%nat ->
  event_otypes self = [ou; oi] ->
  Np.getitem (n_objects self) ou = Ok (Z.of_nat nu) ->
  Np.getitem (n_objects self) oi = Ok (Z.of_nat ni) ->
  Np.getitem (iid self) ou = Ok du ->
  Np.getitem (iid self) oi = Ok di ->
  table_in_range nu du ->
  table_in_range ni di ->
  let iid_event := fun e : Z * Z => (to_iid nu du e.1, to_iid ni di e.2) in
  let m := model self in
  (forall reqs, reqs <> [] ->
     to_iid_event self (rows_of reqs) = Ok (rows_of (map iid_event reqs)) /\
     predict self (rows_of reqs)
     = Ok (map (predicted (tensors m)) (map iid_event reqs))) /\
  (forall eu ei, du !! eu = None ->
     to_iid nu du eu = Z.of_nat nu /\
     predict self [[eu; ei]]
     = Ok [nth 0 (mu_ m) 0 + nth (Z.to_nat (to_iid ni di ei)) (bi_ m) 0]) /\
  (forall eu ei, di !! ei = None ->
     to_iid ni di ei = Z.of_nat ni /\
     predict self [[eu; ei]]
     = Ok [nth 0 (mu_ m) 0 + nth (Z.to_nat (to_iid nu du eu)) (bu_ m) 0]).
Proof.
  intros Hfit Hs Hot Hnu Hni Hdu Hdi Rdu Rdi iid_event m.
  destruct (fit_extended _ _ _ _ _ _ _ _ _ Hfit) as (coef & Hlen & Hext).
  pose proof (predict_rows self ou oi nu ni du di Hs Hot Hnu Hni Hdu Hdi
                Rdu Rdi (k pmf) coef) as Hpred.
  split; [|split].
  - intros reqs Hne. split.
    + now apply (to_iid_event_rows self ou oi).
    + now apply Hpred.
  - intros eu ei Hnone.
    assert (to_iid nu du eu = Z.of_nat nu) as Hsent
      by (unfold to_iid; now rewrite Hnone).
    split; [exact Hsent|].
    change [[eu; ei]] with (rows_of [(eu, ei)]).
    rewrite Hpred by (assumption || discriminate).
    simpl map. rewrite Hsent.
    now rewrite (fallback_user_score nu ni (k pmf) coef).
  - intros eu ei Hnone.
    assert (to_iid ni di ei = Z.of_nat ni) as Hsent
      by (unfold to_iid; now rewrite Hnone).
    split; [exact Hsent|].
    change [[eu; ei]] with (rows_of [(eu, ei)]).
    rewrite Hpred by (assumption || discriminate).
    simpl map. rewrite Hsent.
    now rewrite (fallback_item_score nu ni (k pmf) coef).
Qed.

Lemma unknown_ids_fall_back_witness :
  exists m,
    fit cg_stay example_self example_ev example_sc 3 2 None example_rng
    = Ok m /\
    predict (mkRecommender [3; 2]%Z [example_users; example_items]
               [0; 1]%Z 2 m)
            [[99; 20]%Z]
    = Ok [nth 0 (mu_ m) 0 + nth 0 (bi_ m) 0].
Proof.
  destruct example_fit as [m Hm]. exists m. split; [exact Hm|].
  set (self := mkRecommender _ _ _ _ m).
  assert (table_in_range 3 example_users) as R1.
  { intros eid v H. unfold example_users in H.
    repeat (apply lookup_insert_Some in H as [[_ <-]|[_ H]]; [lia|]).
    apply lookup_singleton_Some in H as [_ <-]. lia. }
  assert (table_in_range 2 example_items) as R2.
  { intros eid v H. unfold example_items in H.
    repeat (apply lookup_insert_Some in H as [[_ <-]|[_ H]]; [lia|]).
    apply lookup_singleton_Some in H as [_ <-]. lia. }
  destruct (unknown_ids_fall_back cg_stay example_self example_ev
              example_sc 3 2 None example_rng self 0%Z 1%Z
              example_users example_items Hm eq_refl eq_refl eq_refl
              eq_refl eq_refl eq_refl R1 R2) as (_ & Huser & _).
  destruct (Huser 99%Z 20%Z eq_refl) as [_ Hp]. exact Hp.
Defined.

(** ** Scatter-accumulate *)

Lemma nth_insert {A} (l : list A) (j b : nat) (v d : A) :
  (j < length l)%nat ->
  nth b (<[j := v]> l) d = if decide (b = j) then v else nth b l d.
Proof.
  intros Hj. destruct (decide (b = j)) as [->|Hne].
  - apply nth_lookup_Some. now apply list_lookup_insert_eq.
  - destruct (l !! b) as [x|] eqn:Hb.
    + rewrite (nth_lookup_Some l b d x Hb).
      apply nth_lookup_Some. now rewrite list_lookup_insert_ne.
    + apply lookup_ge_None in Hb.
      rewrite !nth_overflow; rewrite ?length_insert; lia || reflexivity.
Qed.

Lemma map_nth_seq (l : list R) (n : nat) :
  length l = n -> map (fun b => nth b l 0) (seq 0 n) = l.
Proof.
  intros <-. apply list_eq. intros i. rewrite list_lookup_fmap.
  destruct (l !! i) as [x|] eqn:Hx.
  - rewrite lookup_seq_lt by (now apply lookup_lt_Some in Hx). simpl.
    f_equal. now apply nth_lookup_Some.
  - apply lookup_ge_None in Hx. now rewrite lookup_seq_ge.
Qed.

Lemma bin_add_insert (out : list R) (i : nat) (w : R) :
  (i < length out)%nat ->
  Np.bin_add out i w = <[i := nth i out 0 + w]> out.
Proof.
  intros Hi. unfold Np.bin_add.
  destruct (out !! i) as [x|] eqn:Hx.
  - now rewrite (nth_lookup_Some out i 0 x Hx).
  - apply lookup_ge_None in Hx. lia.
Qed.

Lemma bincount_loop (m : nat) (idx : list Z) (w acc : list R) :
  Forall (fun i => 0 <= i < Z.of_nat m)%Z idx ->
  length idx = length w ->
  length acc = m ->
  foldl (fun out iw => Np.bin_add out (Z.to_nat iw.1) iw.2) acc
        (zip idx w)
  = map (fun b => nth b acc 0 + bin idx w b) (seq 0 m).
Proof.
  intros Hidx. revert w acc.
  induction Hidx as [|i idx Hi _ IH]; intros [|x w] acc Hlen Hacc;
    simpl in Hlen; try discriminate.
  - simpl. unfold bin. simpl.
    rewrite <- (map_nth_seq acc m Hacc) at 1.
    apply map_ext. intros b. ring.
  - simpl foldl. rewrite bin_add_insert by lia.
    rewrite IH by (rewrite ?length_insert; lia).
    apply map_ext_in. intros b Hb.
    rewrite nth_insert by lia. unfold bin. simpl.
    destruct (decide (b = Z.to_nat i)) as [->|Hne].
    + rewrite Z2Nat.id, Z.eqb_refl by lia. ring.
    + destruct (Z.eqb_spec i (Z.of_nat b)) as [->|_].
      * rewrite Nat2Z.id in Hne. congruence.
      * ring.
Qed.

Lemma bincount_ok (idx : list Z) (w : list R) (m : nat) :
  Forall (fun i => 0 <= i < Z.of_nat m)%Z idx ->
  length idx = length w ->
  Np.bincount idx w m = Ok (map (bin idx w) (seq 0 m)).
Proof.
  intros Hidx Hlen. unfold Np.bincount.
  assert (forallb (fun i => (0 <=? i)%Z) idx = true) as ->.
  { apply forallb_forall. intros i Hin. apply list_elem_of_In in Hin.
    apply (proj1 (Forall_forall _ _) Hidx) in Hin as [H0 _].
    now apply Z.leb_le. }
  rewrite Hlen, Nat.eqb_refl.
  assert (foldr (fun i acc => Nat.max (S (Z.to_nat i)) acc) m idx = m)
    as ->.
  { clear Hlen. induction Hidx as [|i idx Hi _ IH]; cbn [foldr];
      [reflexivity|].
    rewrite IH. apply Nat.max_r. lia. }
  rewrite (bincount_loop m) by (rewrite ?length_replicate; auto).
  f_equal. apply map_ext_in. intros b Hb. apply in_seq in Hb.
  rewrite (nth_lookup_Some _ _ _ 0) by (apply lookup_replicate_2; lia).
  ring.
Qed.

(** ** Block and column writes through a view *)

Section ViewWrites.

Variable dt : dtype.

Lemma view_fill_from_window (f : field) (block : list R) (i : nat)
  (coef : list R) :
  length coef = itemsize dt ->
  (i + length block <= field_size dt f)%nat ->
  window dt f (view_fill_from dt f i block coef)
  = take i (window dt f coef) ++ block
    ++ drop (i + length block) (window dt f coef).
Proof.
  revert i coef. induction block as [|v block IH]; intros i coef Hl Hi.
  - simpl. now rewrite Nat.add_0_r, take_drop.
  - simpl in *. rewrite IH by (rewrite ?view_set_length; lia).
    rewrite window_view_set by lia.
    pose proof (window_length dt coef Hl f) as HW.
    rewrite (take_S_r _ _ v) by (apply list_lookup_insert_eq; lia).
    rewrite take_insert_ge by lia.
    rewrite drop_insert_lt by lia.
    rewrite <- app_assoc. simpl. now rewrite Nat.add_succ_r.
Qed.

Lemma window_view_fill (f : field) (block : list R) (coef : list R) :
  length coef = itemsize dt ->
  length block = field_size dt f ->
  window dt f (view_fill dt f block coef) = block.
Proof.
  intros Hl Hb. unfold view_fill.
  rewrite view_fill_from_window by (assumption || lia).
  simpl. rewrite drop_ge, app_nil_r by (rewrite window_length; lia).
  reflexivity.
Qed.

Lemma window_view_fill_other (f g : field) (block : list R)
  (coef : list R) :
  f <> g -> length block = field_size dt f ->
  window dt g (view_fill dt f block coef) = window dt g coef.
Proof.
  intros Hfg Hb. apply window_view_fill_from_other; [assumption | lia].
Qed.

Lemma view_fill_length (f : field) (block : list R) (coef : list R) :
  length (view_fill dt f block coef) = length coef.
Proof. apply view_fill_from_length. Qed.

Lemma window_map (f : field) (h : R -> R) (g : list R) :
  window dt f (map h g) = map h (window dt f g).
Proof. unfold window. now rewrite skipn_map, firstn_map. Qed.

(** Writing the column [i] of a two-dimensional view from row [s] on. *)
Lemma view_set_column_from (f : field) (i s : nat) (col : list R)
  (grad : list R) :
  let rows := (field_shape dt f).1 in
  let cols := (field_shape dt f).2 in
  let grad' :=
    foldl (fun g uv => view_set dt f (uv.1 * cols + i) uv.2 g) grad
          (zip (seq s (length col)) col) in
  length grad = itemsize dt ->
  (i < cols)%nat -> (s + length col <= rows)%nat ->
  length grad' = length grad /\
  (forall g, f <> g -> window dt g grad' = window dt g grad) /\
  (forall u, (s <= u < s + length col)%nat ->
     window dt f grad' !! (u * cols + i)%nat = col !! (u - s)%nat) /\
  (forall j, (forall u, (s <= u < s + length col)%nat ->
                j <> (u * cols + i)%nat) ->
     window dt f grad' !! j = window dt f grad !! j).
Proof.
  intros rows cols. revert s grad.
  induction col as [|v col IH]; intros s grad grad' Hlg Hi Hs.
  - subst grad'. simpl. repeat split; auto. intros u Hu. simpl in Hu. lia.
  - simpl in Hs. subst grad'. simpl length. cbn [seq zip zip_with foldl].
    cbn [fst snd].
    set (g1 := view_set dt f (s * cols + i) v grad).
    assert (s * cols + i < field_size dt f)%nat as Hpos.
    { unfold field_size. fold rows cols. nia. }
    assert (length g1 = itemsize dt) as Hlg1
      by (unfold g1; now rewrite view_set_length).
    destruct (IH (S s) g1 Hlg1 Hi ltac:(lia)) as (Hl & Ho & Hset & Hkeep).
    split; [|split; [|split]].
    + rewrite Hl. apply view_set_length.
    + intros g Hg. rewrite Ho by assumption.
      now apply window_view_set_other.
    + intros u Hu. destruct (decide (u = s)) as [->|Hne].
      * rewrite Hkeep by (intros u' Hu' Heq; nia).
        rewrite Nat.sub_diag. simpl.
        unfold g1. rewrite window_view_set by assumption.
        apply list_lookup_insert_eq. now rewrite window_length.
      * rewrite Hset by lia.
        replace (u - s)%nat with (S (u - S s)) by lia. reflexivity.
    + intros j Hj. rewrite Hkeep by (intros u Hu; apply Hj; lia).
      unfold g1. rewrite window_view_set by assumption.
      apply list_lookup_insert_ne. intros Heq. apply (Hj s); lia.
Qed.

End ViewWrites.

(** ** The column loops of the gradient *)

Lemma column_length (a : list (list R)) (i : nat) :
  length (column a i) = length a.
Proof. unfold column. apply length_map. Qed.

Section GradColumns.


Variable st : pmf_state.
Variable f : field.
Variables (idx : list Z) (m : nat) (weights : list (list R)).
Abbreviation dt2 := (_dt st).
Abbreviation cols := ((field_shape dt2 f).2).
Hypothesis Hrows : (field_shape dt2 f).1 = m.
Hypothesis Hidx : Forall (fun i => 0 <= i < Z.of_nat m)%Z idx.
Hypothesis Hw : length weights = length idx.

Lemma grad_column_ok (grad : list R) (i : nat) :
  length grad = itemsize dt2 ->
  (i < cols)%nat ->
  exists grad',
    grad_column st f idx m weights grad i = Ok grad' /\
    length grad' = length grad /\
    (forall g, f <> g -> window dt2 g grad' = window dt2 g grad) /\
    (forall u, (u < m)%nat ->
       window dt2 f grad' !! (u * cols + i)%nat
       = Some (bin idx (column weights i) u)) /\
    (forall j, (forall u, (u < m)%nat -> j <> (u * cols + i)%nat) ->
       window dt2 f grad' !! j = window dt2 f grad !! j).
Proof.
  intros Hlg Hi. unfold grad_column.
  rewrite bincount_ok by (rewrite ?column_length; auto).
  cbn [rbind]. unfold Np.assign_all.
  rewrite length_map, length_seq, column_length, reshape_length, Hrows,
    Nat.eqb_refl.
  cbn [rbind]. eexists. split; [reflexivity|].
  unfold view_set_column. rewrite length_map, length_seq.
  pose proof (view_set_column_from dt2 f i 0
                (map (bin idx (column weights i)) (seq 0 m)) grad)
    as H.
  cbv zeta in H. rewrite length_map, length_seq in H.
  destruct H as (Hl & Ho & Hset & Hkeep); [assumption | assumption | lia |].
  split; [exact Hl|]. split; [exact Ho|]. split.
  - intros u Hu. rewrite Hset by lia.
    rewrite Nat.sub_0_r, list_lookup_fmap, lookup_seq_lt by lia.
    reflexivity.
  - intros j Hj. apply Hkeep. intros u Hu. apply Hj. lia.
Qed.

Lemma grad_column_loop (grad0 : list R) :
  length grad0 = itemsize dt2 ->
  exists grad,
    rfoldM (grad_column st f idx m weights) grad0 (seq 0 cols) = Ok grad /\
    length grad = length grad0 /\
    (forall g, f <> g -> window dt2 g grad = window dt2 g grad0) /\
    (forall u i, (u < m)%nat -> (i < cols)%nat ->
       window dt2 f grad !! (u * cols + i)%nat
       = Some (bin idx (column weights i) u)).
Proof.
  intros Hl0.
  destruct (rfoldM_inv (grad_column st f idx m weights)
              (fun done grad =>
                 length grad = length grad0 /\
                 (forall g, f <> g ->
                    window dt2 g grad = window dt2 g grad0) /\
                 (forall u i, (u < m)%nat -> (i < length done)%nat ->
                    window dt2 f grad !! (u * cols + i)%nat
                    = Some (bin idx (column weights i) u)))
              (seq 0 cols) grad0) as (grad & Hrun & HI).
  - repeat split; auto. intros u i _ Hi. simpl in Hi. lia.
  - intros done x rest grad Hsplit (Hl & Ho & Hin).
    destruct (seq_split _ _ _ _ Hsplit) as (-> & _ & Hlt).
    destruct (grad_column_ok grad (length done))
      as (grad' & Hstep & Hl' & Ho' & Hset & Hkeep);
      [congruence | exact Hlt |].
    exists grad'. split; [exact Hstep|].
    split; [congruence|]. split.
    + intros g Hg. rewrite Ho' by assumption. now apply Ho.
    + intros u i Hu Hi. rewrite length_app in Hi. simpl in Hi.
      destruct (decide (i = length done)) as [->|Hne].
      * now apply Hset.
      * rewrite Hkeep; [apply Hin; lia|].
        intros u' Hu' Heq.
        destruct (Nat.lt_trichotomy u u') as [H|[H|H]].
        -- assert (S u * cols <= u' * cols)%nat as Hm
             by (apply Nat.mul_le_mono_r; lia).
           rewrite Nat.mul_succ_l in Hm. lia.
        -- subst u'. lia.
        -- assert (S u' * cols <= u * cols)%nat as Hm
             by (apply Nat.mul_le_mono_r; lia).
           rewrite Nat.mul_succ_l in Hm. lia.
  - exists grad. destruct HI as (Hl & Ho & Hin).
    rewrite length_seq in Hin. auto.
Qed.

End GradColumns.

(** ** The value of the gradient *)

Lemma lookup_scaled (a : R) (row : list R) (f : nat) :
  default 0 (map (Rmult a) row !! f) = a * nth f row 0.
Proof.
  change (map (Rmult a) row) with (Rmult a <$> row).
  rewrite list_lookup_fmap.
  destruct (row !! f) as [x|] eqn:Hx; simpl.
  - now rewrite (nth_lookup_Some row f 0 x Hx).
  - apply lookup_ge_None in Hx. rewrite nth_overflow by lia. ring.
Qed.

Lemma column_weights {A} (phi : A -> R) (rho : A -> list R) (L : list A)
  (f : nat) :
  column (zip_with (fun r row => map (Rmult r) row) (map phi L) (map rho L))
         f
  = map (fun x => phi x * nth f (rho x) 0) L.
Proof.
  unfold column. rewrite zip_with_map2, map_map.
  apply map_ext. intros x. apply lookup_scaled.
Qed.

Lemma bin_map {A} (a : A -> Z) (phi : A -> R) (L : list A) (u : nat) :
  bin (map a L) (map phi L) u
  = Np.sum (map (fun x => if (a x =? Z.of_nat u)%Z then phi x else 0) L).
Proof. unfold bin. now rewrite zip_with_map2. Qed.

Lemma reshape_zip_with (op : R -> R -> R) (n c : nat) (A B : list R) :
  zip_with (zip_with op) (reshape n c A) (reshape n c B)
  = reshape n c (zip_with op A B).
Proof.
  unfold reshape. rewrite zip_with_map2. apply map_ext. intros u.
  now rewrite zip_with_drop, zip_with_take.
Qed.

Lemma reshape_map (h : R -> R) (n c : nat) (B : list R) :
  map (map h) (reshape n c B) = reshape n c (map h B).
Proof.
  unfold reshape. rewrite map_map. apply map_ext. intros u.
  now rewrite skipn_map, firstn_map.
Qed.

Lemma sum_scale (a : R) (l : list R) :
  Np.sum (map (fun x => x / a) l) = Np.sum l / a.
Proof.
  induction l as [|x l IH]; simpl; [unfold Rdiv; ring|].
  rewrite IH. unfold Rdiv. ring.
Qed.

(** The last two steps of [grad_loss]: rescaling by the number of
    events, then adding the gradient of the regularization term region by
    region. *)
Lemma window_replicate (dt : dtype) (f : field) (x : R) (n : nat) :
  n = itemsize dt ->
  window dt f (replicate n x) = replicate (field_size dt f) x.
Proof.
  intros ->. unfold window. rewrite drop_replicate, take_replicate.
  f_equal. pose proof (field_fits dt f). lia.
Qed.

Lemma nth_reshape (n c : nat) (w : list R) (u j : nat) :
  (u < n)%nat -> (j < c)%nat ->
  nth j (nth u (reshape n c w) []) 0 = nth (u * c + j) w 0.
Proof.
  intros Hu Hj.
  rewrite (nth_lookup_Some _ _ _ _ (reshape_lookup n c w u Hu)).
  destruct (w !! (u * c + j)%nat) as [x|] eqn:Hx.
  - rewrite (nth_lookup_Some _ _ _ _ Hx). apply nth_lookup_Some.
    now rewrite lookup_take_lt, lookup_drop.
  - apply lookup_ge_None in Hx. rewrite (nth_overflow w) by lia.
    apply nth_overflow. rewrite length_take, length_drop. lia.
Qed.

Lemma lookup_map_Some {A B} (h : A -> B) (l : list A) (i : nat) (x : A) :
  l !! i = Some x -> map h l !! i = Some (h x).
Proof.
  intros H. change (map h l) with (h <$> l).
  now rewrite list_lookup_fmap, H.
Qed.

Lemma lookup_zip_with_both {A B C} (op : A -> B -> C) (l : list A)
  (l' : list B) (i : nat) (x : A) (y : B) :
  l !! i = Some x -> l' !! i = Some y ->
  zip_with op l l' !! i = Some (op x y).
Proof. intros Hx Hy. now rewrite lookup_zip_with, Hx, Hy. Qed.

Lemma lookup_nth (l : list R) (i : nat) :
  (i < length l)%nat -> l !! i = Some (nth i l 0).
Proof.
  intros Hi. destruct (l !! i) as [x|] eqn:Hx.
  - now rewrite (nth_lookup_Some _ _ _ _ Hx).
  - apply lookup_ge_None in Hx. lia.
Qed.

Lemma grad_epilogue (dt : dtype) (n reg : R) (bu bi Pw Qw : list R)
  (p q : list (list R)) (g4 : list R) :
  let nu := dt_n_users dt in
  let ni := dt_n_items dt in
  let kk := dt_k dt in
  length g4 = itemsize dt ->
  length bu = nu -> length bi = ni ->
  length Pw = (nu * kk)%nat -> length Qw = (ni * kk)%nat ->
  p = reshape nu kk Pw -> q = reshape ni kk Qw ->
  let grad := map (fun g => g / n) g4 in
  let grad :=
    view_fill dt Fbu
      (zip_with Rplus (window dt Fbu grad) (map (Rmult reg) bu)) grad in
  let grad :=
    view_fill dt Fbi
      (zip_with Rplus (window dt Fbi grad) (map (Rmult reg) bi)) grad in
  let grad :=
    view_fill dt Fp
      (concat (zip_with (zip_with Rplus)
                 (reshape (field_shape dt Fp).1 (field_shape dt Fp).2
                          (window dt Fp grad))
                 (map (map (Rmult reg)) p)))
      grad in
  let grad :=
    view_fill dt Fq
      (concat (zip_with (zip_with Rplus)
                 (reshape (field_shape dt Fq).1 (field_shape dt Fq).2
                          (window dt Fq grad))
                 (map (map (Rmult reg)) q)))
      grad in
  length grad = length g4 /\
  window dt Fmu grad = map (fun g => g / n) (window dt Fmu g4) /\
  window dt Fbu grad
  = zip_with Rplus (map (fun g => g / n) (window dt Fbu g4))
                   (map (Rmult reg) bu) /\
  window dt Fbi grad
  = zip_with Rplus (map (fun g => g / n) (window dt Fbi g4))
                   (map (Rmult reg) bi) /\
  window dt Fp grad
  = zip_with Rplus (map (fun g => g / n) (window dt Fp g4))
                   (map (Rmult reg) Pw) /\
  window dt Fq grad
  = zip_with Rplus (map (fun g => g / n) (window dt Fq g4))
                   (map (Rmult reg) Qw).
Proof.
  intros nu ni kk Hl Hbu Hbi HP HQ -> ->.
  intros g5.
  assert (length g5 = itemsize dt) as Hl5
    by (unfold g5; now rewrite length_map).
  assert (forall f, window dt f g5 = map (fun g => g / n) (window dt f g4))
    as W5 by (intros f; apply window_map).
  set (X6 := zip_with Rplus (window dt Fbu g5) (map (Rmult reg) bu)).
  assert (length X6 = field_size dt Fbu) as HX6.
  { unfold X6. rewrite length_zip_with, (window_length _ _ Hl5),
      length_map, field_size_eq. fold nu. lia. }
  intros g6.
  assert (length g6 = itemsize dt) as Hl6
    by (unfold g6; now rewrite view_fill_length).
  assert (forall f, f <> Fbu -> window dt f g6 = window dt f g5) as W6.
  { intros f Hf. unfold g6.
    apply window_view_fill_other; [congruence | exact HX6]. }
  set (X7 := zip_with Rplus (window dt Fbi g6) (map (Rmult reg) bi)).
  assert (length X7 = field_size dt Fbi) as HX7.
  { unfold X7. rewrite length_zip_with, (window_length _ _ Hl6),
      length_map, field_size_eq. fold ni. lia. }
  intros g7.
  assert (length g7 = itemsize dt) as Hl7
    by (unfold g7; now rewrite view_fill_length).
  assert (forall f, f <> Fbi -> window dt f g7 = window dt f g6) as W7.
  { intros f Hf. unfold g7.
    apply window_view_fill_other; [congruence | exact HX7]. }
  change ((field_shape dt Fp).1) with nu.
  change ((field_shape dt Fp).2) with kk.
  change ((field_shape dt Fq).1) with ni.
  change ((field_shape dt Fq).2) with kk.
  rewrite reshape_map, reshape_zip_with.
  rewrite concat_reshape
    by (rewrite length_zip_with, (window_length _ _ Hl7), length_map,
          field_size_eq; fold nu kk; lia).
  set (X8 := zip_with Rplus (window dt Fp g7) (map (Rmult reg) Pw)).
  assert (length X8 = field_size dt Fp) as HX8.
  { unfold X8. rewrite length_zip_with, (window_length _ _ Hl7),
      length_map, field_size_eq. fold nu kk. lia. }
  intros g8.
  assert (length g8 = itemsize dt) as Hl8
    by (unfold g8; now rewrite view_fill_length).
  assert (forall f, f <> Fp -> window dt f g8 = window dt f g7) as W8.
  { intros f Hf. unfold g8.
    apply window_view_fill_other; [congruence | exact HX8]. }
  rewrite reshape_map, reshape_zip_with.
  rewrite concat_reshape
    by (rewrite length_zip_with, (window_length _ _ Hl8), length_map,
          field_size_eq; fold ni kk; lia).
  set (X9 := zip_with Rplus (window dt Fq g8) (map (Rmult reg) Qw)).
  assert (length X9 = field_size dt Fq) as HX9.
  { unfold X9. rewrite length_zip_with, (window_length _ _ Hl8),
      length_map, field_size_eq. fold ni kk. lia. }
  intros g9.
  assert (forall f, f <> Fq -> window dt f g9 = window dt f g8) as W9.
  { intros f Hf. unfold g9.
    apply window_view_fill_other; [congruence | exact HX9]. }
  split.
  { unfold g9. rewrite view_fill_length, Hl8. now symmetry. }
  split.
  { rewrite W9, W8, W7, W6, W5 by congruence. reflexivity. }
  split.
  { rewrite W9, W8, W7 by congruence. unfold g6.
    rewrite window_view_fill by assumption. unfold X6. now rewrite W5. }
  split.
  { rewrite W9, W8 by congruence. unfold g7.
    rewrite window_view_fill by assumption. unfold X7.
    now rewrite W6, W5 by congruence. }
  split.
  { rewrite W9 by congruence. unfold g8.
    rewrite window_view_fill by assumption. unfold X8.
    now rewrite W7, W6, W5 by congruence. }
  unfold g9. rewrite window_view_fill by assumption. unfold X9.
  now rewrite W8, W7, W6, W5 by congruence.
Qed.

Section GradValue.

Variable self : PMF.
Variables (nu ni : nat) (reg : R) (c0 : list R) (rng : rng_state).
Variable coef : list R.
Variable L : list (Z * Z * R).
Abbreviation dt3 := (mkDtype nu ni (k self)).
Abbreviation st3 := (mkState dt3 c0 reg rng).
Abbreviation r3 := (spec_regions nu ni (k self) coef).
Abbreviation phi := (fun x : Z * Z * R => - (x.2 - predicted r3 x.1)).
Abbreviation n3 := (INR (length L)).
Hypothesis Hlen : length coef = spec_length nu ni (k self).
Hypothesis HL : valid_events nu ni (map fst L).
Hypothesis Hnu : nu <> 1%nat.
Hypothesis Hni : ni <> 1%nat.

Lemma grad_loss_windows :
  exists g,
    grad_loss self st3 coef (map fst L) (map snd L) nu ni = Ok g /\
    length g = length coef /\
    window dt3 Fmu g = [Np.sum (map phi L) / n3] /\
    window dt3 Fbu g
    = zip_with Rplus
        (map (fun b => b / n3)
             (map (bin (map (fun x => x.1.1) L) (map phi L)) (seq 0 nu)))
        (map (Rmult reg) (r_bu r3)) /\
    window dt3 Fbi g
    = zip_with Rplus
        (map (fun b => b / n3)
             (map (bin (map (fun x => x.1.2) L) (map phi L)) (seq 0 ni)))
        (map (Rmult reg) (r_bi r3)) /\
    (forall u f, (u < nu)%nat -> (f < k self)%nat ->
       window dt3 Fp g !! (u * k self + f)%nat
       = Some (bin (map (fun x => x.1.1) L)
                   (map (fun x => phi x
                                  * nth f (nth (Z.to_nat x.1.2)
                                               (r_q r3) []) 0) L) u
               / n3
               + reg * nth f (nth u (r_p r3) []) 0)) /\
    (forall i f, (i < ni)%nat -> (f < k self)%nat ->
       window dt3 Fq g !! (i * k self + f)%nat
       = Some (bin (map (fun x => x.1.2) L)
                   (map (fun x => phi x
                                  * nth f (nth (Z.to_nat x.1.1)
                                               (r_p r3) []) 0) L) i
               / n3
               + reg * nth f (nth i (r_q r3) []) 0)).
Proof.
  pose proof (spec_length_itemsize nu ni (k self) coef Hlen) as Hl.
  destruct (views_are_regions nu ni (k self) coef Hlen)
    as (Vmu & Vbu & Vbi & Vp & Vq).
  destruct (spec_regions_lengths nu ni (k self) coef Hlen)
    as (Lmu & Lbu & Lbi & Lp & Lq).
  assert (Forall (fun i => 0 <= i < Z.of_nat nu)%Z (map (fun x => x.1.1) L))
    as Hu.
  { apply Forall_map.
    eapply Forall_impl; [exact (proj1 (Forall_map _ _ _) HL)|].
    now intros x []. }
  assert (Forall (fun i => 0 <= i < Z.of_nat ni)%Z (map (fun x => x.1.2) L))
    as Hi.
  { apply Forall_map.
    eapply Forall_impl; [exact (proj1 (Forall_map _ _ _) HL)|].
    now intros x []. }
  unfold grad_loss. cbn [_dt _reg].
  rewrite !view1_array by (now apply scalar_field_false).
  rewrite Vmu, Vbu, Vbi, Vp, Vq. cbn [rbind vvalues].
  set (grad0 := replicate (length coef) 0).
  assert (length grad0 = itemsize dt3) as Hl0
    by (unfold grad0; now rewrite length_replicate).
  rewrite !(view2_ok _ _ Hl0), !(view_ok _ _ Hl0). cbn [rbind].
  rewrite (esc_of_ok _ nu ni) by (assumption || lia). cbn [rbind].
  rewrite broadcast2_same by (now rewrite !length_map). cbn [rbind].
  change ((map fst L).*1) with (map fst (map fst L)).
  change ((map fst L).*2) with (map snd (map fst L)).
  rewrite !(map_map fst).
  rewrite zip_with_map2, (map_map _ Ropp).
  change (map (fun x => - (x.2 - predicted r3 x.1)) L) with (map phi L).
  set (grad1 := view_set dt3 Fmu 0 _ grad0).
  assert (length grad1 = itemsize dt3) as Hl1
    by (unfold grad1; now rewrite view_set_length).
  (* user biases *)
  rewrite bincount_ok by (rewrite ?length_map; auto). cbn [rbind].
  set (Bu := map (bin (map (fun x => x.1.1) L) (map phi L)) (seq 0 nu)).
  assert (length Bu = field_size dt3 Fbu) as HBu.
  { unfold Bu. now rewrite length_map, length_seq, field_size_eq. }
  unfold Np.assign_all at 1.
  rewrite HBu, (window_length _ _ Hl1), Nat.eqb_refl. cbn [rbind].
  set (grad2 := view_fill dt3 Fbu Bu grad1).
  assert (length grad2 = itemsize dt3) as Hl2
    by (unfold grad2; now rewrite view_fill_length).
  (* item biases *)
  rewrite bincount_ok by (rewrite ?length_map; auto). cbn [rbind].
  set (Bi := map (bin (map (fun x => x.1.2) L) (map phi L)) (seq 0 ni)).
  assert (length Bi = field_size dt3 Fbi) as HBi.
  { unfold Bi. now rewrite length_map, length_seq, field_size_eq. }
  unfold Np.assign_all at 1.
  rewrite HBi, (window_length _ _ Hl2), Nat.eqb_refl. cbn [rbind].
  set (grad3 := view_fill dt3 Fbi Bi grad2).
  assert (length grad3 = itemsize dt3) as Hl3
    by (unfold grad3; now rewrite view_fill_length).
  (* user factors *)
  rewrite (take_ok (r_q r3) _ []) by now rewrite Lq. cbn [rbind].
  rewrite (map_map _ (fun i => nth (Z.to_nat i) (r_q r3) [])).
  destruct (grad_column_loop st3 Fp (map (fun x => x.1.1) L) nu
              (zip_with (fun r row => map (Rmult r) row) (map phi L)
                 (map (fun x => nth (Z.to_nat x.1.2) (r_q r3) []) L))
              eq_refl Hu) with (grad0 := grad3)
    as (g4 & Hrun4 & Hl4 & Ho4 & Hp4);
    [now rewrite length_zip_with, !length_map, Nat.min_id | exact Hl3 |].
  cbn [_dt field_shape fst snd dt_k] in Hrun4, Ho4, Hp4.
  rewrite Hrun4. cbn [rbind].
  (* item factors *)
  rewrite (take_ok (r_p r3) _ []) by now rewrite Lp. cbn [rbind].
  rewrite (map_map _ (fun i => nth (Z.to_nat i) (r_p r3) [])).
  destruct (grad_column_loop st3 Fq (map (fun x => x.1.2) L) ni
              (zip_with (fun r row => map (Rmult r) row) (map phi L)
                 (map (fun x => nth (Z.to_nat x.1.1) (r_p r3) []) L))
              eq_refl Hi) with (grad0 := g4)
    as (g5 & Hrun5 & Hl5 & Ho5 & Hq5);
    [now rewrite length_zip_with, !length_map, Nat.min_id
    | rewrite Hl4; exact Hl3 |].
  cbn [_dt field_shape fst snd dt_k] in Hrun5, Ho5, Hq5.
  rewrite Hrun5. cbn [rbind]. rewrite (length_map fst).
  (* rescaling and regularization *)
  pose proof (window_length _ _ Hl) as WL.
  pose proof (grad_epilogue dt3 n3 reg (r_bu r3) (r_bi r3)
                (window dt3 Fp coef) (window dt3 Fq coef)
                (r_p r3) (r_q r3) g5) as E.
  cbv zeta in E.
  destruct E as (El & Emu & Ebu & Ebi & Ep & Eq);
    [congruence | exact Lbu | exact Lbi
    | now rewrite WL, field_size_eq | now rewrite WL, field_size_eq
    | symmetry; apply (reshape_window_p nu ni (k self) coef Hlen)
    | symmetry; apply (reshape_window_q nu ni (k self) coef Hlen) |].
  match goal with
  | |- exists g, Ok ?G = Ok g /\ _ => set (gfinal := G) in *
  end.
  exists gfinal. split; [reflexivity|].
  assert (forall f, f <> Fp -> f <> Fq ->
            window dt3 f g5 = window dt3 f grad3) as W53.
  { intros f H1 H2. rewrite Ho5, Ho4 by congruence. reflexivity. }
  split; [congruence|]. split.
  { rewrite Emu, W53 by congruence. unfold grad3, grad2, grad1.
    rewrite !window_view_fill_other by (congruence || assumption).
    rewrite window_view_set by (rewrite field_size_eq; lia).
    unfold grad0. rewrite window_replicate by exact Hl. reflexivity. }
  split.
  { rewrite Ebu, W53 by congruence. unfold grad3.
    rewrite window_view_fill_other by (congruence || assumption).
    unfold grad2. rewrite window_view_fill by assumption. reflexivity. }
  split.
  { rewrite Ebi, W53 by congruence. unfold grad3.
    rewrite window_view_fill by assumption. reflexivity. }
  split.
  - intros u f Hu' Hf. rewrite Ep, Ho5 by congruence.
    assert (u * k self + f < nu * k self)%nat as Hpos by nia.
    apply lookup_zip_with_both.
    + apply (lookup_map_Some (fun g => g / n3)).
      rewrite Hp4, column_weights by assumption. reflexivity.
    + apply lookup_map_Some.
      rewrite <- (reshape_window_p nu ni (k self) coef Hlen).
      rewrite nth_reshape by assumption.
      apply lookup_nth. now rewrite WL, field_size_eq.
  - intros i f Hi' Hf. rewrite Eq.
    assert (i * k self + f < ni * k self)%nat as Hpos by nia.
    apply lookup_zip_with_both.
    + apply (lookup_map_Some (fun g => g / n3)).
      rewrite Hq5, column_weights by assumption. reflexivity.
    + apply lookup_map_Some.
      rewrite <- (reshape_window_q nu ni (k self) coef Hlen).
      rewrite nth_reshape by assumption.
      apply lookup_nth. now rewrite WL, field_size_eq.
Qed.



Lemma sum_ext {A} (f g : A -> R) (l : list A) :
  (forall x, f x = g x) -> Np.sum (map f l) = Np.sum (map g l).
Proof. intros H. f_equal. now apply map_ext. Qed.

Lemma grad_loss_entries_zip :
  exists g,
    grad_loss self st3 coef (map fst L) (map snd L) nu ni = Ok g /\
    length g = length coef /\
    forall c, coord_valid nu ni (k self) c ->
      g !! coord_index nu ni (k self) c
      = Some (half_grad reg r3 (map fst L) (map snd L) c).
Proof.
  destruct grad_loss_windows
    as (g & Hrun & Hlg & Wmu & Wbu & Wbi & Wp & Wq).
  exists g. split; [exact Hrun|]. split; [exact Hlg|].
  pose proof (spec_length_itemsize nu ni (k self) coef Hlen) as Hl.
  assert (length g = itemsize dt3) as Hlg' by congruence.
  destruct (spec_regions_lengths nu ni (k self) coef Hlen)
    as (Lmu & Lbu & Lbi & Lp & Lq).
  assert (forall f pos, (pos < field_size dt3 f)%nat ->
            g !! (field_offset dt3 f + pos)%nat = window dt3 f g !! pos)
    as Hflat.
  { intros f pos Hpos. symmetry. apply window_lookup; assumption. }
  unfold half_grad.
  change (zip (map fst L) (map snd L)) with (zip (L.*1) (L.*2)).
  rewrite zip_fst_snd, (length_map fst).
  intros [|u|i|u f|i f] Hc; simpl in Hc.
  - replace (coord_index nu ni (k self) Cmu)
      with (field_offset dt3 Fmu + 0)%nat by reflexivity.
    rewrite (Hflat Fmu 0%nat) by (rewrite field_size_eq; lia).
    rewrite Wmu. simpl. f_equal.
    rewrite (sum_ext (fun es => - (es.2 - predicted r3 es.1) * 1) phi)
      by (intros x; ring).
    ring.
  - replace (coord_index nu ni (k self) (Cbu u))
      with (field_offset dt3 Fbu + u)%nat
      by (rewrite field_offset_eq; reflexivity).
    rewrite Hflat, Wbu by (rewrite field_size_eq; exact Hc).
    rewrite (lookup_zip_with_both _ _ _ _
               (bin (map (fun x => x.1.1) L) (map phi L) u / n3)
               (reg * nth u (r_bu r3) 0)).
    + f_equal. f_equal. f_equal. rewrite bin_map. apply sum_ext.
      intros x. simpl. destruct (_ =? _)%Z; ring.
    + apply (lookup_map_Some (fun b => b / n3)).
      apply lookup_map_Some, lookup_seq_lt. exact Hc.
    + apply lookup_map_Some, lookup_nth. now rewrite Lbu.
  - replace (coord_index nu ni (k self) (Cbi i))
      with (field_offset dt3 Fbi + i)%nat
      by (rewrite field_offset_eq; reflexivity).
    rewrite Hflat, Wbi by (rewrite field_size_eq; exact Hc).
    rewrite (lookup_zip_with_both _ _ _ _
               (bin (map (fun x => x.1.2) L) (map phi L) i / n3)
               (reg * nth i (r_bi r3) 0)).
    + f_equal. f_equal. f_equal. rewrite bin_map. apply sum_ext.
      intros x. simpl. destruct (_ =? _)%Z; ring.
    + apply (lookup_map_Some (fun b => b / n3)).
      apply lookup_map_Some, lookup_seq_lt. exact Hc.
    + apply lookup_map_Some, lookup_nth. now rewrite Lbi.
  - destruct Hc as [Hu Hf].
    replace (coord_index nu ni (k self) (Cp u f))
      with (field_offset dt3 Fp + (u * k self + f))%nat
      by (rewrite field_offset_eq; reflexivity).
    rewrite Hflat, Wp by (rewrite ?field_size_eq; simpl; nia).
    f_equal. f_equal. f_equal. rewrite bin_map. apply sum_ext.
    intros x. simpl. destruct (_ =? _)%Z; ring.
  - destruct Hc as [Hi Hf].
    replace (coord_index nu ni (k self) (Cq i f))
      with (field_offset dt3 Fq + (i * k self + f))%nat
      by (rewrite field_offset_eq; reflexivity).
    rewrite Hflat, Wq by (rewrite ?field_size_eq; simpl; nia).
    f_equal. f_equal. f_equal. rewrite bin_map. apply sum_ext.
    intros x. simpl. destruct (_ =? _)%Z; ring.
Qed.


End GradValue.

Lemma grad_loss_entries (self : PMF) (st : pmf_state) (coef : list R)
  (ev : events) (sc : list R) (nu ni : nat) :
  _dt st = mkDtype nu ni (k self) ->
  nu <> 1%nat -> ni <> 1%nat ->
  length coef = spec_length nu ni (k self) ->
  length sc = length ev ->
  valid_events nu ni ev ->
  exists g,
    grad_loss self st coef ev sc nu ni = Ok g /\
    length g = length coef /\
    forall c, coord_valid nu ni (k self) c ->
      g !! coord_index nu ni (k self) c
      = Some (half_grad (_reg st) (spec_regions nu ni (k self) coef)
                        ev sc c).
Proof.
  intros Hdt Hnu Hni Hlen Hsc Hev.
  destruct st as [dt c0 reg rng]. simpl in Hdt. subst dt. cbn [_reg].
  assert (map fst (zip ev sc) = ev) as Hfst
    by (apply (fst_zip ev sc); lia).
  assert (map snd (zip ev sc) = sc) as Hsnd
    by (apply (snd_zip ev sc); lia).
  pose proof (grad_loss_entries_zip self nu ni reg c0 rng coef
                (zip ev sc) Hlen) as H.
  rewrite Hfst, Hsnd in H. now apply H.
Qed.

(** ** The partial derivatives of the loss *)

Lemma slice_insert_in (a len j : nat) (t : R) (l : list R) :
  (a <= j < a + len)%nat ->
  slice a len (<[j := t]> l) = <[(j - a)%nat := t]> (slice a len l).
Proof.
  intros Hj. unfold slice.
  rewrite drop_insert_ge, take_insert_lt by lia. reflexivity.
Qed.

Lemma slice_insert_at (a len i : nat) (t : R) (l : list R) :
  (i < len)%nat ->
  slice a len (<[(a + i)%nat := t]> l) = <[i := t]> (slice a len l).
Proof.
  intros Hi. rewrite slice_insert_in by lia. f_equal. lia.
Qed.

Lemma slice_insert_out (a len j : nat) (t : R) (l : list R) :
  (j < a \/ a + len <= j)%nat ->
  slice a len (<[j := t]> l) = slice a len l.
Proof.
  intros Hj. unfold slice. destruct (Nat.lt_ge_cases j a) as [H|H].
  - now rewrite drop_insert_lt.
  - rewrite drop_insert_ge, take_insert_ge by lia. reflexivity.
Qed.

Lemma rows_insert_out (off n c j : nat) (t : R) (l : list R) :
  (j < off \/ off + n * c <= j)%nat ->
  map (fun u => slice (off + u * c) c (<[j := t]> l)) (seq 0 n)
  = map (fun u => slice (off + u * c) c l) (seq 0 n).
Proof.
  intros Hj. apply map_ext_in. intros u Hu. apply in_seq in Hu.
  apply slice_insert_out. nia.
Qed.

Lemma rows_insert_in (off n c u f : nat) (t : R) (l : list R) :
  (u < n)%nat -> (f < c)%nat ->
  map (fun u' => slice (off + u' * c) c (<[(off + (u * c + f))%nat := t]> l))
      (seq 0 n)
  = <[u := <[f := t]> (slice (off + u * c) c l)]>
      (map (fun u' => slice (off + u' * c) c l) (seq 0 n)).
Proof.
  intros Hu Hf. apply list_eq. intros u'.
  destruct (decide (u' = u)) as [->|Hne].
  - rewrite list_lookup_insert_eq by (rewrite length_map, length_seq; lia).
    rewrite list_lookup_fmap, lookup_seq_lt by lia. simpl. f_equal.
    rewrite slice_insert_in by lia. f_equal. lia.
  - rewrite list_lookup_insert_ne by congruence.
    rewrite !list_lookup_fmap.
    destruct (seq 0 n !! u') as [x|] eqn:Hx; [|reflexivity]. simpl.
    apply lookup_seq in Hx as [-> Hlt]. simpl. f_equal.
    apply slice_insert_out.
    destruct (Nat.lt_trichotomy u u') as [H|[H|H]]; [|congruence|].
    + assert (S u * c <= u' * c)%nat as Hm
        by (apply Nat.mul_le_mono_r; lia).
      rewrite Nat.mul_succ_l in Hm. lia.
    + assert (S u' * c <= u * c)%nat as Hm
        by (apply Nat.mul_le_mono_r; lia).
      rewrite Nat.mul_succ_l in Hm. lia.
Qed.

Lemma nth_rows (off n c u : nat) (l : list R) :
  (u < n)%nat ->
  nth u (map (fun u' => slice (off + u' * c) c l) (seq 0 n)) []
  = slice (off + u * c) c l.
Proof.
  intros Hu. apply nth_lookup_Some.
  rewrite list_lookup_fmap, lookup_seq_lt by lia. reflexivity.
Qed.

Lemma spec_regions_insert (nu ni kk : nat) (coef : list R) (c : coord)
  (t : R) :
  coord_valid nu ni kk c ->
  spec_regions nu ni kk (<[coord_index nu ni kk c := t]> coef)
  = update c t (spec_regions nu ni kk coef).
Proof.
  intros Hc. unfold spec_regions, update.
  destruct c as [|u|i|u f|i f]; simpl in Hc; unfold coord_index;
    cbn [r_mu r_bu r_bi r_p r_q].
  - rewrite (slice_insert_in 0 1) by lia.
    rewrite !slice_insert_out by lia.
    rewrite !rows_insert_out by lia. reflexivity.
  - rewrite (slice_insert_at 1 nu) by lia.
    rewrite !slice_insert_out by lia.
    rewrite !rows_insert_out by lia. reflexivity.
  - rewrite (slice_insert_at (1 + nu) ni) by lia.
    rewrite !slice_insert_out by lia.
    rewrite !rows_insert_out by lia. reflexivity.
  - destruct Hc as [Hu Hf].
    assert (u * kk + f < nu * kk)%nat by nia.
    rewrite !slice_insert_out by lia.
    rewrite (rows_insert_in (1 + nu + ni)) by assumption.
    rewrite (rows_insert_out (1 + nu + ni + nu * kk)) by lia.
    rewrite nth_rows by assumption. reflexivity.
  - destruct Hc as [Hi Hf].
    rewrite !slice_insert_out by lia.
    rewrite (rows_insert_in (1 + nu + ni + nu * kk)) by assumption.
    rewrite (rows_insert_out (1 + nu + ni)) by lia.
    rewrite nth_rows by assumption. reflexivity.
Qed.

Lemma dot_comm (a b : list R) : dot a b = dot b a.
Proof.
  unfold dot. revert b. induction a as [|x a IH]; intros [|y b]; simpl;
    try reflexivity. rewrite IH. ring.
Qed.

Lemma dot_insert_l (a b : list R) (f : nat) (t : R) :
  (f < length a)%nat ->
  dot (<[f := t]> a) b = dot a b + (t - nth f a 0) * nth f b 0.
Proof.
  unfold dot. revert f b.
  induction a as [|x a IH]; intros f b Hf; simpl in Hf; [lia|].
  destruct f as [|f], b as [|y b]; simpl; try ring.
  rewrite IH by lia. ring.
Qed.

Lemma dot_insert_r (a b : list R) (f : nat) (t : R) :
  (f < length b)%nat ->
  dot a (<[f := t]> b) = dot a b + (t - nth f b 0) * nth f a 0.
Proof.
  intros Hf. rewrite dot_comm, dot_insert_l by assumption.
  now rewrite (dot_comm b a).
Qed.

Lemma sumsq_app (a b : list R) : sumsq (a ++ b) = sumsq a + sumsq b.
Proof. unfold sumsq. now rewrite map_app, sum_app. Qed.

Lemma sum_map_insert (h : R -> R) (l : list R) (u : nat) (t : R) :
  (u < length l)%nat ->
  Np.sum (map h (<[u := t]> l)) = Np.sum (map h l) + (h t - h (nth u l 0)).
Proof.
  revert u. induction l as [|x l IH]; intros u Hu; simpl in Hu; [lia|].
  destruct u as [|u]; simpl; [ring|]. rewrite IH by lia. ring.
Qed.

Lemma sumsq_insert (l : list R) (u : nat) (t : R) :
  (u < length l)%nat ->
  sumsq (<[u := t]> l) = sumsq l + (t ^ 2 - nth u l 0 ^ 2).
Proof. apply sum_map_insert. Qed.

Lemma sumsq_concat_insert (p : list (list R)) (u : nat) (row : list R) :
  (u < length p)%nat ->
  sumsq (concat (<[u := row]> p))
  = sumsq (concat p) + (sumsq row - sumsq (nth u p [])).
Proof.
  revert u. induction p as [|row0 p IH]; intros u Hu; simpl in Hu; [lia|].
  destruct u as [|u]; simpl; rewrite !sumsq_app; [ring|].
  rewrite IH by lia. ring.
Qed.

Lemma sum_square_shift {A} (f a : A -> R) (d : R) (L : list A) :
  Np.sum (map (fun x => (f x - d * a x) ^ 2) L)
  = Np.sum (map (fun x => f x ^ 2) L)
    + 2 * d * Np.sum (map (fun x => - f x * a x) L)
    + d ^ 2 * Np.sum (map (fun x => a x ^ 2) L).
Proof.
  induction L as [|x L IH]; [simpl; ring|].
  rewrite !map_cons. unfold Np.sum in *. rewrite !foldr_cons, IH. ring.
Qed.

Lemma sum_ext_Forall {A} (P : A -> Prop) (f g : A -> R) (L : list A) :
  Forall P L -> (forall x, P x -> f x = g x) ->
  Np.sum (map f L) = Np.sum (map g L).
Proof.
  intros HL Hfg. induction HL as [|x L Hx _ IH]; simpl; [reflexivity|].
  now rewrite IH, (Hfg x Hx).
Qed.

Section Expansion.

Variables (nu ni kk : nat) (coef : list R).
Hypothesis Hlen : length coef = spec_length nu ni kk.
Abbreviation r4 := (spec_regions nu ni kk coef).

Lemma row_p_length (u : nat) :
  (u < nu)%nat -> length (nth u (r_p r4) []) = kk.
Proof.
  intros Hu. unfold spec_regions. cbn [r_p]. rewrite nth_rows by assumption.
  unfold slice. rewrite length_take, length_drop, Hlen.
  unfold spec_length. nia.
Qed.

Lemma row_q_length (i : nat) :
  (i < ni)%nat -> length (nth i (r_q r4) []) = kk.
Proof.
  intros Hi. unfold spec_regions. cbn [r_q]. rewrite nth_rows by assumption.
  unfold slice. rewrite length_take, length_drop, Hlen.
  unfold spec_length. nia.
Qed.

Lemma predicted_update (c : coord) (t : R) (e : Z * Z) :
  coord_valid nu ni kk c ->
  valid_event nu ni e ->
  predicted (update c t r4) e
  = predicted r4 e + (t - coord_value r4 c) * dpred r4 c e.
Proof.
  intros Hc [[Hu0 Hu1] [Hi0 Hi1]].
  destruct (spec_regions_lengths nu ni kk coef Hlen)
    as (Lmu & Lbu & Lbi & Lp & Lq).
  unfold predicted.
  destruct c as [|u|i|u f|i f]; simpl in Hc;
    cbn [update r_mu r_bu r_bi r_p r_q coord_value dreg dpred].
  - rewrite nth_insert by lia. simpl. ring.
  - rewrite nth_insert by lia.
    destruct (decide (Z.to_nat e.1 = u)) as [Heq|Hne].
    + rewrite <- Heq, Z2Nat.id, Z.eqb_refl by lia. ring.
    + destruct (Z.eqb_spec e.1 (Z.of_nat u)) as [Heq|_]; [|ring].
      rewrite Heq, Nat2Z.id in Hne. congruence.
  - rewrite nth_insert by lia.
    destruct (decide (Z.to_nat e.2 = i)) as [Heq|Hne].
    + rewrite <- Heq, Z2Nat.id, Z.eqb_refl by lia. ring.
    + destruct (Z.eqb_spec e.2 (Z.of_nat i)) as [Heq|_]; [|ring].
      rewrite Heq, Nat2Z.id in Hne. congruence.
  - destruct Hc as [Hu Hf]. rewrite nth_insert by lia.
    destruct (decide (Z.to_nat e.1 = u)) as [Heq|Hne].
    + rewrite <- Heq, Z2Nat.id, Z.eqb_refl by lia.
      rewrite dot_insert_l by (rewrite row_p_length; lia). ring.
    + destruct (Z.eqb_spec e.1 (Z.of_nat u)) as [Heq|_]; [|ring].
      rewrite Heq, Nat2Z.id in Hne. congruence.
  - destruct Hc as [Hi Hf]. rewrite nth_insert by lia.
    destruct (decide (Z.to_nat e.2 = i)) as [Heq|Hne].
    + rewrite <- Heq, Z2Nat.id, Z.eqb_refl by lia.
      rewrite dot_insert_r by (rewrite row_q_length; lia). ring.
    + destruct (Z.eqb_spec e.2 (Z.of_nat i)) as [Heq|_]; [|ring].
      rewrite Heq, Nat2Z.id in Hne. congruence.
Qed.

Lemma sumsq_update (c : coord) (t : R) :
  coord_valid nu ni kk c ->
  let S := fun r => sumsq (r_bu r) + sumsq (r_bi r)
                    + sumsq (concat (r_p r)) + sumsq (concat (r_q r)) in
  S (update c t r4)
  = S r4 + match c with
           | Cmu => 0
           | _ => t ^ 2 - coord_value r4 c ^ 2
           end.
Proof.
  intros Hc S. unfold S.
  destruct (spec_regions_lengths nu ni kk coef Hlen)
    as (Lmu & Lbu & Lbi & Lp & Lq).
  destruct c as [|u|i|u f|i f]; simpl in Hc;
    cbn [update r_mu r_bu r_bi r_p r_q coord_value dreg].
  - ring.
  - rewrite sumsq_insert by lia. ring.
  - rewrite sumsq_insert by lia. ring.
  - destruct Hc as [Hu Hf].
    rewrite sumsq_concat_insert by lia.
    rewrite sumsq_insert by (rewrite row_p_length; lia). ring.
  - destruct Hc as [Hi Hf].
    rewrite sumsq_concat_insert by lia.
    rewrite sumsq_insert by (rewrite row_q_length; lia). ring.
Qed.

(** Along one coordinate the loss is a polynomial of degree two. *)
Lemma loss_expansion (reg : R) (ev : events) (sc : list R) (c : coord)
  (t : R) :
  coord_valid nu ni kk c ->
  valid_events nu ni ev ->
  let d := t - coord_value r4 c in
  spec_loss reg (update c t r4) ev sc
  = spec_loss reg r4 ev sc
    + 2 * half_grad reg r4 ev sc c * d
    + curvature reg r4 ev sc c * d ^ 2.
Proof.
  intros Hc Hev d. unfold spec_loss, half_grad, curvature.
  assert (Forall (fun es : Z * Z * R => valid_event nu ni es.1)
                 (zip ev sc)) as HL.
  { apply Forall_forall. intros [e s] Hin. apply elem_of_zip_l in Hin.
    exact (proj1 (Forall_forall _ _) Hev _ Hin). }
  rewrite (sum_ext_Forall _ _
             (fun es => ((es.2 - predicted r4 es.1)
                         - d * dpred r4 c es.1) ^ 2) _ HL).
  2:{ intros es Hes. rewrite predicted_update by assumption.
      fold d. ring. }
  rewrite sum_square_shift.
  pose proof (sumsq_update c t Hc) as HS. cbv zeta in HS. rewrite HS.
  subst d. destruct c; cbn [coord_value dreg]; unfold Rdiv; ring.
Qed.

End Expansion.

Lemma quadratic_derivative (F : R -> R) (x F0 A K : R) :
  (forall t, F t = F0 + A * (t - x) + K * (t - x) ^ 2) ->
  derivable_pt_lim F x A.
Proof.
  intros HF eps Heps.
  assert (0 < Rabs K + 1) as HK by (pose proof (Rabs_pos K); lra).
  assert (0 < eps / (Rabs K + 1)) as Hd by (apply Rdiv_lt_0_compat; lra).
  exists (mkposreal _ Hd). intros h Hh0 Hh. simpl in Hh.
  rewrite !HF.
  replace ((F0 + A * (x + h - x) + K * (x + h - x) ^ 2
            - (F0 + A * (x - x) + K * (x - x) ^ 2)) / h - A)
    with (K * h) by (field; exact Hh0).
  rewrite Rabs_mult.
  apply Rle_lt_trans with (Rabs K * (eps / (Rabs K + 1))).
  - apply Rmult_le_compat_l; [apply Rabs_pos | lra].
  - unfold Rdiv. rewrite (Rmult_comm eps), <- Rmult_assoc.
    apply Rlt_le_trans with (1 * eps); [|lra].
    apply Rmult_lt_compat_r; [exact Heps|].
    apply (Rmult_lt_reg_r (Rabs K + 1)); [exact HK|].
    rewrite Rmult_assoc, Rinv_l by lra. lra.
Qed.

(** ** The gradient and the partial derivatives *)

Lemma nth_slice (a len u : nat) (l : list R) :
  (u < len)%nat -> nth u (slice a len l) 0 = nth (a + u) l 0.
Proof.
  intros Hu. unfold slice.
  destruct (l !! (a + u)%nat) as [x|] eqn:Hx.
  - rewrite (nth_lookup_Some _ _ _ _ Hx). apply nth_lookup_Some.
    now rewrite lookup_take_lt, lookup_drop.
  - apply lookup_ge_None in Hx. rewrite (nth_overflow l) by lia.
    apply nth_overflow. rewrite length_take, length_drop. lia.
Qed.

Lemma coord_value_nth (nu ni kk : nat) (coef : list R) (c : coord) :
  coord_valid nu ni kk c ->
  coord_value (spec_regions nu ni kk coef) c
  = nth (coord_index nu ni kk c) coef 0.
Proof.
  intros Hc. unfold spec_regions.
  destruct c as [|u|i|u f|i f]; simpl in Hc;
    cbn [coord_value dreg coord_index r_mu r_bu r_bi r_p r_q].
  - now rewrite nth_slice by lia.
  - now rewrite nth_slice by lia.
  - now rewrite nth_slice by lia.
  - destruct Hc as [Hu Hf]. rewrite nth_rows, nth_slice by assumption.
    f_equal. lia.
  - destruct Hc as [Hi Hf]. rewrite nth_rows, nth_slice by assumption.
    f_equal. lia.
Qed.

(** Every position of the buffer is a coordinate. *)
Lemma coord_index_surj (nu ni kk j : nat) :
  (j < spec_length nu ni kk)%nat ->
  exists c, coord_valid nu ni kk c /\ coord_index nu ni kk c = j.
Proof.
  unfold spec_length. intros Hj.
  destruct (Nat.lt_ge_cases j 1) as [H1|H1].
  { exists Cmu. simpl. split; [exact I | lia]. }
  destruct (Nat.lt_ge_cases j (1 + nu)) as [H2|H2].
  { exists (Cbu (j - 1)). simpl. split; lia. }
  destruct (Nat.lt_ge_cases j (1 + nu + ni)) as [H3|H3].
  { exists (Cbi (j - (1 + nu))). simpl. split; lia. }
  assert (kk <> 0)%nat as Hk by (intros ->; lia).
  destruct (Nat.lt_ge_cases j (1 + nu + ni + nu * kk)) as [H4|H4].
  - set (o := (j - (1 + nu + ni))%nat).
    exists (Cp (o / kk) (o mod kk)). simpl.
    pose proof (Nat.div_mod_eq o kk) as Hdm.
    pose proof (Nat.mod_upper_bound o kk Hk) as Hm.
    assert (o < nu * kk)%nat as Ho by (unfold o; lia).
    repeat split; [|lia|].
    + apply Nat.Div0.div_lt_upper_bound. lia.
    + rewrite (Nat.mul_comm (o / kk) kk). unfold o in *. lia.
  - set (o := (j - (1 + nu + ni + nu * kk))%nat).
    exists (Cq (o / kk) (o mod kk)). simpl.
    pose proof (Nat.div_mod_eq o kk) as Hdm.
    pose proof (Nat.mod_upper_bound o kk Hk) as Hm.
    assert (o < ni * kk)%nat as Ho by (unfold o; lia).
    repeat split; [|lia|].
    + apply Nat.Div0.div_lt_upper_bound. lia.
    + rewrite (Nat.mul_comm (o / kk) kk). unfold o in *. lia.
Qed.

(** On a layout whose bias fields are arrays, for every buffer of the
    layout's length, every non-empty event batch with indices in range
    and one score per event, [grad_loss] returns a
    buffer of the same length, and the partial derivative of [loss] with
    respect to each entry of the buffer is twice the corresponding entry
    of that result: the code's gradient is one half of the gradient of
    its loss. *)
Lemma grad_loss_half_gradient (self : PMF) (st : pmf_state)
  (coef : list R) (ev : events) (sc : list R) (nu ni : nat) :
  _dt st = mkDtype nu ni (k self) ->
  nu <> 1%nat -> ni <> 1%nat ->
  length coef = spec_length nu ni (k self) ->
  ev <> [] ->
  length sc = length ev ->
  valid_events nu ni ev ->
  exists g,
    grad_loss self st coef ev sc nu ni = Ok g /\
    length g = length coef /\
    (forall c, coord_valid nu ni (k self) c ->
       g !! coord_index nu ni (k self) c
       = Some (half_grad (_reg st) (spec_regions nu ni (k self) coef)
                         ev sc c)) /\
    (forall j gj, g !! j = Some gj ->
       derivable_pt_lim
         (fun t => loss_value st (<[j := t]> coef) ev sc)
         (nth j coef 0) (2 * gj)).
Proof.
  intros Hdt Hnu Hni Hlen _ Hsc Hev.
  destruct (grad_loss_entries self st coef ev sc nu ni Hdt Hnu Hni Hlen
              Hsc Hev)
    as (g & Hrun & Hlg & Hent).
  exists g. split; [exact Hrun|]. split; [exact Hlg|].
  split; [exact Hent|].
  intros j gj Hj.
  assert (j < spec_length nu ni (k self))%nat as Hjl.
  { apply lookup_lt_Some in Hj. lia. }
  destruct (coord_index_surj nu ni (k self) j Hjl) as (c & Hc & <-).
  rewrite Hent in Hj by exact Hc. injection Hj as <-.
  set (r := spec_regions nu ni (k self) coef).
  apply (quadratic_derivative _ _
           (spec_loss (_reg st) r ev sc) _
           (curvature (_reg st) r ev sc c)).
  intros t. unfold loss_value.
  pose proof (loss_spec st (<[coord_index nu ni (k self) c := t]> coef)
                ev sc) as HL.
  cbv zeta in HL. rewrite Hdt in HL. cbn [dt_n_users dt_n_items dt_k] in HL.
  rewrite HL by (rewrite ?length_insert; assumption).
  rewrite spec_regions_insert by exact Hc.
  rewrite (loss_expansion nu ni (k self) coef Hlen) by assumption.
  cbv zeta. fold r. rewrite <- (coord_value_nth nu ni (k self) coef c Hc).
  fold r. ring.
Qed.

(** C1 (failing input).  On the events of the small training run and the
    zero buffer, [grad_loss] returns
    (-7/2, -2, -1, -1/2, -9/4, -5/4, 0, 0, 0, 0, 0), whereas the partial
    derivative of [loss] with respect to the global bias is -7 there, and
    is not -7/2. *)
Theorem grad_loss_misses_factor_two :
  let st := mkState (mkDtype 3 2 1) [] (1 / 10) example_rng in
  let coef := example_zeros in
  let along_mu :=
    fun t => loss_value st (<[0%nat := t]> coef) example_ev example_sc in
  grad_loss example_self st coef example_ev example_sc 3 2
  = Ok [-7 / 2; -2; -1; -1 / 2; -9 / 4; -5 / 4; 0; 0; 0; 0; 0] /\
  derivable_pt_lim along_mu 0 (-7) /\
  ~ derivable_pt_lim along_mu 0 (-7 / 2).
Proof.
  intros st coef along_mu.
  assert (grad_loss example_self st coef example_ev example_sc 3 2
          = Ok [-7 / 2; -2; -1; -1 / 2; -9 / 4; -5 / 4; 0; 0; 0; 0; 0]) as Hg.
  { vm_compute. f_equal. repeat (f_equal; try lra). }
  assert (valid_events 3 2 example_ev) as Hv
    by (repeat constructor; simpl; lia).
  destruct (grad_loss_half_gradient example_self st coef example_ev
              example_sc 3 2 eq_refl ltac:(discriminate)
              ltac:(discriminate) eq_refl ltac:(discriminate) eq_refl Hv)
    as (g & Hrun & _ & _ & Hd).
  rewrite Hg in Hrun. injection Hrun as <-.
  assert (derivable_pt_lim along_mu 0 (-7)) as D.
  { pose proof (Hd 0%nat (-7 / 2) eq_refl) as H. simpl nth in H.
    replace (-7) with (2 * (-7 / 2)) by lra. exact H. }
  split; [exact Hg|]. split; [exact D|].
  intros D'. pose proof (uniqueness_limite _ _ _ _ D D'). lra.
Qed.
(** ** The statements at concrete inputs *)

Lemma layout_roundtrip_witness :
  length [1; 2; 3; 4; 5; 6; 7] = spec_length 1 2 1 /\
  view1 (mkDtype 1 2 1) [1; 2; 3; 4; 5; 6; 7] Fbu = Ok (Scalar 2) /\
  view1 (mkDtype 1 2 1) [1; 2; 3; 4; 5; 6; 7] Fbi = Ok (Array [3; 4]) /\
  view2 (mkDtype 1 2 1) [1; 2; 3; 4; 5; 6; 7] Fq = Ok [[6]; [7]] /\
  vset (mkDtype 1 2 1) Fbu 0 9 [1; 2; 3; 4; 5; 6; 7] = Raise TypeError /\
  vset (mkDtype 1 2 1) Fbi 1 9 [1; 2; 3; 4; 5; 6; 7]
  = Ok [1; 2; 3; 9; 5; 6; 7].
Proof.
  split; [reflexivity|].
  destruct (layout_roundtrip 1 2 1 [1; 2; 3; 4; 5; 6; 7] eq_refl)
    as ((_ & Hbu & Hbi & _ & Hq) & _ & _ & _ & Harr & Hsca & _).
  split; [exact Hbu|]. split; [exact Hbi|]. split; [exact Hq|].
  split.
  - exact (proj1 (proj2 (Hsca Fbu 9 eq_refl))).
  - assert (1 < field_size (mkDtype 1 2 1) Fbi)%nat as Hi
      by (rewrite field_size_eq; simpl; lia).
    exact (proj1 (Harr Fbi 1%nat 9 eq_refl Hi)).
Defined.


Lemma initial_biases_witness :
  example_ev <> [] /\
  length example_sc = length example_ev /\
  valid_events 3 2 example_ev /\
  (exists st,
     _init_coef example_self example_ev example_sc 3 2 example_rng
     = Ok st /\
     r_bu (spec_regions 3 2 1 (_coef st))
     = map (spec_user_bias example_ev example_sc) [0; 1; 2]%nat) /\
  _init_coef example_self [(0, 0); (0, 1)]%Z [5; 3] 1 2 example_rng
  = Raise TypeError.
Proof.
  assert (valid_events 3 2 example_ev) as Hv.
  { repeat constructor; simpl; lia. }
  assert (example_ev <> []) as Hne by discriminate.
  split; [exact Hne|]. split; [reflexivity|]. split; [exact Hv|].
  split.
  - destruct (initial_biases example_self example_ev example_sc 3 2
                example_rng Hne eq_refl Hv) as [H _].
    destruct H as (st & Hrun & _ & Hbu & _); [discriminate..|].
    exists st. split; [exact Hrun | exact Hbu].
  - apply (initial_biases example_self [(0, 0); (0, 1)]%Z [5; 3] 1 2
             example_rng); try discriminate; try reflexivity.
    + repeat constructor; simpl; lia.
    + now left.
Defined.

Lemma reg_scale_witness :
  exists st,
    _init_coef example_self example_ev example_sc 3 2 example_rng = Ok st /\
    _reg st = 1 / 10 / (1 + (INR 1 + 1) * (INR 3 + INR 2)).
Proof.
  assert (exists st,
            _init_coef example_self example_ev example_sc 3 2 example_rng
            = Ok st) as [st Hst]
    by (eexists; vm_compute; reflexivity).
  exists st. split; [exact Hst|].
  apply (reg_scale example_self example_ev example_sc 3 2 example_rng
           st Hst).
Defined.

(** * Further properties of the code *)

(** ** The loss on arbitrary indices *)

Lemma getitem_axis_wrap {A} (a : list A) (i : Z) :
  axis_accepted (length a) i ->
  Np.getitem a i = Np.getitem a (axis_wrap (length a) i).
Proof.
  intros [Hlo Hhi]. unfold axis_wrap.
  destruct (Z.ltb_spec i 0) as [Hneg|_]; [|reflexivity].
  now rewrite getitem_wrap by lia.
Qed.

Lemma take_axis_wrap {A} (a : list A) (idx : list Z) :
  Forall (axis_accepted (length a)) idx ->
  Np.take a idx = Np.take a (map (axis_wrap (length a)) idx).
Proof.
  intros Hidx. unfold Np.take.
  induction Hidx as [|i idx Hi _ IH]; simpl; [reflexivity|].
  now rewrite (getitem_axis_wrap a i Hi), IH.
Qed.

Lemma axis_wrap_valid (n : nat) (i : Z) :
  axis_accepted n i -> (0 <= axis_wrap n i < Z.of_nat n)%Z.
Proof.
  intros [Hlo Hhi]. unfold axis_wrap. destruct (Z.ltb_spec i 0); lia.
Qed.

Lemma fst_axis_wrap_event (nu ni : nat) (ev : events) :
  (map (axis_wrap_event nu ni) ev).*1 = map (axis_wrap nu) (ev.*1).
Proof.
  induction ev as [|e ev IH]; [reflexivity | simpl; f_equal; exact IH].
Qed.

Lemma snd_axis_wrap_event (nu ni : nat) (ev : events) :
  (map (axis_wrap_event nu ni) ev).*2 = map (axis_wrap ni) (ev.*2).
Proof.
  induction ev as [|e ev IH]; [reflexivity | simpl; f_equal; exact IH].
Qed.

Lemma wrapped_events_valid (nu ni : nat) (ev : events) :
  Forall (fun e => axis_accepted nu e.1 /\ axis_accepted ni e.2) ev ->
  valid_events nu ni (map (axis_wrap_event nu ni) ev).
Proof.
  intros Hacc. unfold valid_events. apply Forall_map.
  eapply Forall_impl; [exact Hacc|].
  intros e [H1 H2]; split; simpl; now apply axis_wrap_valid.
Qed.

(** The predicted scores over the regions of a buffer, for indices that
    numpy accepts. *)
Lemma esc_of_wrapped (r : regions) (nu ni : nat) (ev : events) :
  (0 < length (r_mu r))%nat ->
  length (r_bu r) = nu -> length (r_bi r) = ni ->
  length (r_p r) = nu -> length (r_q r) = ni ->
  Forall (fun e => axis_accepted nu e.1 /\ axis_accepted ni e.2) ev ->
  esc_of (r_mu r) (Array (r_bu r)) (Array (r_bi r)) (r_p r) (r_q r)
         (ev.*1) (ev.*2)
  = Ok (map (predicted r) (map (axis_wrap_event nu ni) ev)).
Proof.
  intros Hmu Hbu Hbi Hp Hq Hacc.
  assert (Forall (axis_accepted nu) (ev.*1)) as Hu.
  { apply Forall_fmap. eapply Forall_impl; [exact Hacc|]. now intros e []. }
  assert (Forall (axis_accepted ni) (ev.*2)) as Hi.
  { apply Forall_fmap. eapply Forall_impl; [exact Hacc|]. now intros e []. }
  rewrite <- (esc_of_ok r nu ni)
    by (assumption || now apply wrapped_events_valid).
  unfold esc_of, vtake.
  rewrite fst_axis_wrap_event, snd_axis_wrap_event.
  rewrite (take_axis_wrap (r_bu r)), (take_axis_wrap (r_p r)),
    (take_axis_wrap (r_bi r)), (take_axis_wrap (r_q r))
    by (rewrite ?Hbu, ?Hbi, ?Hp, ?Hq; assumption).
  now rewrite Hbu, Hbi, Hp, Hq.
Qed.

Lemma esc_of_rejected (r : regions) (nu ni : nat) (ev : events) :
  length (r_bu r) = nu -> length (r_bi r) = ni ->
  Exists (fun e => ~ axis_accepted nu e.1 \/ ~ axis_accepted ni e.2) ev ->
  esc_of (r_mu r) (Array (r_bu r)) (Array (r_bi r)) (r_p r) (r_q r)
         (ev.*1) (ev.*2)
  = Raise IndexError.
Proof.
  intros Hbu Hbi Hbad.
  destruct (esc_of _ _ _ _ _ _ _) as [l|e] eqn:H.
  - exfalso. apply esc_of_ok_inv in H as [Hu Hi].
    rewrite Hbu in Hu. rewrite Hbi in Hi.
    apply Exists_exists in Hbad as (e & Hin & Hbad).
    assert (axis_accepted nu e.1) as Hu'.
    { eapply (proj1 (Forall_forall _ _)) in Hu;
        [|apply list_elem_of_fmap; exists e; split; [reflexivity|exact Hin]].
      exact Hu. }
    assert (axis_accepted ni e.2) as Hi'.
    { eapply (proj1 (Forall_forall _ _)) in Hi;
        [|apply list_elem_of_fmap; exists e; split; [reflexivity|exact Hin]].
      exact Hi. }
    tauto.
  - f_equal. now apply esc_of_raise in H.
Qed.

(** [loss] read over the five regions of the buffer. *)
Lemma loss_regions (st : pmf_state) (coef : list R) (ev : events)
  (sc : list R) (nu ni kk : nat) :
  _dt st = mkDtype nu ni kk ->
  nu <> 1%nat -> ni <> 1%nat ->
  length coef = spec_length nu ni kk ->
  loss st coef ev sc
  = let r := spec_regions nu ni kk coef in
    let* esc :=
      esc_of (r_mu r) (Array (r_bu r)) (Array (r_bi r)) (r_p r) (r_q r)
             (ev.*1) (ev.*2) in
    let* res := Np.broadcast2 Rminus sc esc in
    Ok (sumsq res / INR (length ev)
        + _reg st * (sumsq (r_bu r) + sumsq (r_bi r)
                     + sumsq (concat (r_p r)) + sumsq (concat (r_q r)))).
Proof.
  intros Hdt Hnu Hni Hlen.
  destruct (views_are_regions nu ni kk coef Hlen)
    as (Vmu & Vbu & Vbi & Vp & Vq).
  unfold loss. rewrite Hdt.
  rewrite !view1_array by (now apply scalar_field_false).
  rewrite Vmu, Vbu, Vbi, Vp, Vq. reflexivity.
Qed.

Lemma sumsq_residuals (f : Z * Z -> R) (ev : events) (sc : list R) :
  length sc = length ev ->
  sumsq (zip_with Rminus sc (map f ev))
  = Np.sum (map (fun es => (es.2 - f es.1) ^ 2) (zip ev sc)).
Proof.
  unfold sumsq. revert sc.
  induction ev as [|e ev IH]; intros [|s sc] H; simpl in *;
    try discriminate; try reflexivity.
  f_equal. apply IH. lia.
Qed.

Lemma loss_rejected (st : pmf_state) (coef : list R) (ev : events)
  (sc : list R) (nu ni kk : nat) :
  _dt st = mkDtype nu ni kk ->
  nu <> 1%nat -> ni <> 1%nat ->
  length coef = spec_length nu ni kk ->
  Exists (fun e => ~ axis_accepted nu e.1 \/ ~ axis_accepted ni e.2) ev ->
  loss st coef ev sc = Raise IndexError.
Proof.
  intros Hdt Hnu Hni Hlen Hbad.
  destruct (spec_regions_lengths nu ni kk coef Hlen)
    as (Lmu & Lbu & Lbi & Lp & Lq).
  rewrite (loss_regions st coef ev sc nu ni kk Hdt Hnu Hni Hlen).
  cbv zeta.
  now rewrite (esc_of_rejected _ nu ni ev Lbu Lbi Hbad).
Qed.

Lemma loss_accepted (st : pmf_state) (coef : list R) (ev : events)
  (sc : list R) (nu ni kk : nat) :
  _dt st = mkDtype nu ni kk ->
  nu <> 1%nat -> ni <> 1%nat ->
  length coef = spec_length nu ni kk ->
  length sc = length ev ->
  Forall (fun e => axis_accepted nu e.1 /\ axis_accepted ni e.2) ev ->
  loss st coef ev sc
  = Ok (spec_loss (_reg st) (spec_regions nu ni kk coef)
          (map (axis_wrap_event nu ni) ev) sc).
Proof.
  intros Hdt Hnu Hni Hlen Hsc Hacc.
  destruct (spec_regions_lengths nu ni kk coef Hlen)
    as (Lmu & Lbu & Lbi & Lp & Lq).
  rewrite (loss_regions st coef ev sc nu ni kk Hdt Hnu Hni Hlen).
  cbv zeta.
  rewrite (esc_of_wrapped _ nu ni ev) by (assumption || lia).
  cbn [rbind].
  rewrite broadcast2_same by now rewrite !length_map.
  cbn [rbind]. unfold spec_loss. rewrite length_map.
  rewrite sumsq_residuals by now rewrite length_map.
  reflexivity.
Qed.

(** X1.  On a layout whose bias fields are arrays (neither exactly one
    user nor exactly one item), a buffer of the layout's length and a
    non-empty batch with one score per event, [loss] fails with
    IndexError as soon as one user index lies outside
    -n_users .. n_users - 1 or one item index outside
    -n_items .. n_items - 1; when every index lies inside, it returns
    the loss of the events with each negative index replaced by the
    position it denotes from the end of its axis. *)
Theorem loss_index_range (st : pmf_state) (coef : list R) (ev : events)
  (sc : list R) (nu ni kk : nat) :
  _dt st = mkDtype nu ni kk ->
  nu <> 1%nat -> ni <> 1%nat ->
  length coef = spec_length nu ni kk ->
  ev <> [] ->
  length sc = length ev ->
  (Exists (fun e => ~ axis_accepted nu e.1 \/ ~ axis_accepted ni e.2) ev ->
   loss st coef ev sc = Raise IndexError) /\
  (Forall (fun e => axis_accepted nu e.1 /\ axis_accepted ni e.2) ev ->
   loss st coef ev sc
   = Ok (spec_loss (_reg st) (spec_regions nu ni kk coef)
           (map (axis_wrap_event nu ni) ev) sc)).
Proof.
  intros Hdt Hnu Hni Hlen _ Hsc. split.
  - now apply (loss_rejected st coef ev sc nu ni kk).
  - now apply (loss_accepted st coef ev sc nu ni kk).
Qed.

(** ** The gradient on negative indices *)

Lemma bincount_negative (idx : list Z) (w : list R) (m : nat) :
  Exists (fun i => (i < 0)%Z) idx ->
  Np.bincount idx w m = Raise ValueError.
Proof.
  intros H. unfold Np.bincount.
  destruct (forallb _ idx) eqn:E; [|reflexivity].
  exfalso. apply Exists_exists in H as (i & Hin & Hi).
  rewrite forallb_forall in E.
  apply list_elem_of_In in Hin. apply E in Hin.
  apply Z.leb_le in Hin. lia.
Qed.

(** X2.  [grad_loss] does not share the index range of [loss]: on a
    layout whose bias fields are arrays (neither exactly one user nor
    exactly one item) and a buffer of the layout's length, with one score
    per event and every index accepted by numpy's indexing, one negative
    user or item index makes [grad_loss] fail with ValueError (raised by
    np.bincount), whereas [loss] returns a value on the same
    arguments. *)
Theorem grad_loss_rejects_negative (self : PMF) (st : pmf_state)
  (coef : list R) (ev : events) (sc : list R) (nu ni : nat) :
  _dt st = mkDtype nu ni (k self) ->
  nu <> 1%nat -> ni <> 1%nat ->
  length coef = spec_length nu ni (k self) ->
  length sc = length ev ->
  Forall (fun e => axis_accepted nu e.1 /\ axis_accepted ni e.2) ev ->
  Exists (fun e => (e.1 < 0)%Z \/ (e.2 < 0)%Z) ev ->
  grad_loss self st coef ev sc nu ni = Raise ValueError /\
  exists x, loss st coef ev sc = Ok x.
Proof.
  intros Hdt Hnu Hni Hlen Hsc Hacc Hneg.
  split; [|eexists; now apply (loss_accepted st coef ev sc nu ni (k self))].
  destruct st as [dt c0 reg rng]. simpl in Hdt. subst dt.
  pose proof (spec_length_itemsize nu ni (k self) coef Hlen) as Hl.
  destruct (views_are_regions nu ni (k self) coef Hlen)
    as (Vmu & Vbu & Vbi & Vp & Vq).
  destruct (spec_regions_lengths nu ni (k self) coef Hlen)
    as (Lmu & Lbu & Lbi & Lp & Lq).
  unfold grad_loss. cbn [_dt _reg].
  rewrite !view1_array by (now apply scalar_field_false).
  rewrite Vmu, Vbu, Vbi, Vp, Vq. cbn [rbind vvalues].
  set (grad0 := replicate (length coef) 0).
  assert (length grad0 = itemsize (mkDtype nu ni (k self))) as Hl0
    by (unfold grad0; now rewrite length_replicate).
  rewrite !(view2_ok _ _ Hl0), !(view_ok _ _ Hl0). cbn [rbind].
  rewrite (esc_of_wrapped _ nu ni) by (assumption || lia). cbn [rbind].
  rewrite broadcast2_same by (now rewrite !length_map). cbn [rbind].
  set (neg_res := map Ropp _).
  assert (length neg_res = length ev) as Hn.
  { unfold neg_res.
    rewrite length_map, length_zip_with, !length_map. lia. }
  set (grad1 := view_set _ Fmu 0 _ grad0).
  assert (length grad1 = itemsize (mkDtype nu ni (k self))) as Hl1
    by (unfold grad1; now rewrite view_set_length).
  destruct (forallb (fun i => (0 <=? i)%Z) (ev.*1)) eqn:Eu.
  - assert (Forall (fun i => 0 <= i < Z.of_nat nu)%Z (ev.*1)) as Hu.
    { rewrite forallb_forall in Eu. apply Forall_forall. intros i Hin.
      pose proof Hin as Hin'. apply list_elem_of_In in Hin'.
      apply Eu, Z.leb_le in Hin'.
      apply list_elem_of_fmap in Hin as (e & -> & He).
      apply (proj1 (Forall_forall _ _) Hacc) in He as [[_ Hhi] _]. lia. }
    rewrite bincount_ok by (rewrite ?length_fmap; auto). cbn [rbind].
    unfold Np.assign_all at 1.
    rewrite (window_length _ _ Hl1), length_map, length_seq,
      field_size_eq.
    cbn [dt_n_users]. rewrite Nat.eqb_refl. cbn [rbind].
    rewrite bincount_negative; [reflexivity|].
    apply Exists_exists in Hneg as (e & Hin & [Hu'|Hi']).
    + exfalso.
      assert (e.1 ∈ ev.*1) as H1
        by (apply list_elem_of_fmap; now exists e).
      apply (proj1 (Forall_forall _ _) Hu) in H1. lia.
    + apply Exists_exists. exists e.2. split; [|exact Hi'].
      apply list_elem_of_fmap. now exists e.
  - unfold Np.bincount at 1. now rewrite Eu.
Qed.

(** ** Sign of the loss; users and items without events *)

Lemma sum_nonneg (l : list R) : Forall (fun x => 0 <= x) l -> 0 <= Np.sum l.
Proof.
  induction 1 as [|x l Hx _ IH]; simpl; [lra|]. lra.
Qed.

Lemma sumsq_nonneg (l : list R) : 0 <= sumsq l.
Proof.
  unfold sumsq. apply sum_nonneg, Forall_map, Forall_true.
  intros x. apply pow2_ge_0.
Qed.

Lemma spec_loss_nonneg (reg : R) (r : regions) (ev : events)
  (sc : list R) :
  0 <= reg -> ev <> [] -> 0 <= spec_loss reg r ev sc.
Proof.
  intros Hreg Hne. unfold spec_loss.
  assert (0 < INR (length ev)) as Hn.
  { apply lt_0_INR. destruct ev; [congruence | simpl; lia]. }
  assert (0 <= Np.sum (map (fun es => (es.2 - predicted r es.1) ^ 2)
                         (zip ev sc))) as Hs.
  { apply sum_nonneg, Forall_map, Forall_true. intros x.
    apply pow2_ge_0. }
  pose proof (sumsq_nonneg (r_bu r)). pose proof (sumsq_nonneg (r_bi r)).
  pose proof (sumsq_nonneg (concat (r_p r))).
  pose proof (sumsq_nonneg (concat (r_q r))).
  apply Rplus_le_le_0_compat.
  - apply Rmult_le_pos; [exact Hs|]. left. now apply Rinv_0_lt_compat.
  - apply Rmult_le_pos; lra.
Qed.

(** X3.  With a regularization parameter C >= 0, the loss of the state
    set up by the initializer is never negative: for every buffer of the
    layout's length and every non-empty batch with indices in range and
    one score per event, [loss] returns a value >= 0. *)
Theorem loss_nonnegative (self : PMF) (ev0 : events) (sc0 : list R)
  (nu ni : nat) (rng : rng_state) (st : pmf_state) (coef : list R)
  (ev : events) (sc : list R) :
  _init_coef self ev0 sc0 nu ni rng = Ok st ->
  0 <= C self ->
  length coef = spec_length nu ni (k self) ->
  ev <> [] ->
  length sc = length ev ->
  valid_events nu ni ev ->
  exists x, loss st coef ev sc = Ok x /\ 0 <= x.
Proof.
  intros Hinit HC Hlen Hne Hsc Hev.
  destruct (init_coef_state _ _ _ _ _ _ _ Hinit) as [Hdt Hreg].
  destruct (init_coef_sizes _ _ _ _ _ _ _ Hinit) as [Hnu Hni].
  pose proof (loss_spec st coef ev sc) as HL. cbv zeta in HL.
  rewrite Hdt in HL. cbn [dt_n_users dt_n_items dt_k] in HL.
  rewrite HL by assumption.
  eexists. split; [reflexivity|].
  apply spec_loss_nonneg; [|exact Hne].
  rewrite Hreg. apply Rmult_le_pos; [exact HC|].
  left. apply Rinv_0_lt_compat, lt_0_INR. lia.
Qed.

Lemma sum_zero {A} (f : A -> R) (l : list A) :
  Forall (fun x => f x = 0) l -> Np.sum (map f l) = 0.
Proof.
  induction 1 as [|x l Hx _ IH]; simpl; [reflexivity|]. rewrite Hx, IH.
  ring.
Qed.

Lemma dpred_inactive (r : regions) (ev : events) (sc : list R)
  (c : coord) :
  coord_inactive ev c ->
  Forall (fun es : Z * Z * R => dpred r c es.1 = 0) (zip ev sc).
Proof.
  intros Hc. apply Forall_forall. intros [e s] Hin.
  apply elem_of_zip_l in Hin. simpl.
  destruct c as [|u|i|u f|i f]; simpl in Hc; [contradiction| | | |];
    apply (proj1 (Forall_forall _ _) Hc) in Hin; simpl;
    match goal with
    | |- context [(?a =? ?b)%Z] =>
        destruct (Z.eqb_spec a b); [congruence | reflexivity]
    end.
Qed.

(** X5.  The parameters of a user or of an item without any event only
    feel the regularizer: on a layout whose bias fields are arrays
    (neither exactly one user nor exactly one item), for a buffer of the
    layout's length and a non-empty batch with indices in range and one
    score per event, the entry of [grad_loss] at the position of such a
    bias or factor is the regularization scale times the entry of the
    buffer at the same position. *)
Theorem grad_loss_without_events (self : PMF) (st : pmf_state)
  (coef : list R) (ev : events) (sc : list R) (nu ni : nat) :
  _dt st = mkDtype nu ni (k self) ->
  nu <> 1%nat -> ni <> 1%nat ->
  length coef = spec_length nu ni (k self) ->
  ev <> [] ->
  length sc = length ev ->
  valid_events nu ni ev ->
  exists g,
    grad_loss self st coef ev sc nu ni = Ok g /\
    forall c, coord_valid nu ni (k self) c -> coord_inactive ev c ->
      g !! coord_index nu ni (k self) c
      = Some (_reg st * nth (coord_index nu ni (k self) c) coef 0).
Proof.
  intros Hdt Hnu Hni Hlen _ Hsc Hev.
  destruct (grad_loss_entries self st coef ev sc nu ni Hdt Hnu Hni Hlen
              Hsc Hev)
    as (g & Hrun & Hlg & Hent).
  exists g. split; [exact Hrun|]. intros c Hc Hin.
  rewrite Hent by exact Hc. f_equal. unfold half_grad.
  rewrite (sum_zero _ (zip ev sc)).
  2:{ eapply Forall_impl;
        [exact (dpred_inactive (spec_regions nu ni (k self) coef)
                  ev sc c Hin)|].
      intros es Hes. simpl in Hes. rewrite Hes. ring. }
  rewrite <- (coord_value_nth nu ni (k self) coef c Hc).
  destruct c; simpl in Hin; [contradiction| | | |];
    cbn [coord_value]; unfold Rdiv; ring.
Qed.

(** ** No latent factor; score arrays of another length *)

Lemma valid_zip (nu ni : nat) (ev : events) (sc : list R) :
  valid_events nu ni ev ->
  Forall (fun es : Z * Z * R => valid_event nu ni es.1) (zip ev sc).
Proof.
  intros Hev. apply Forall_forall. intros [e s] Hin.
  apply elem_of_zip_l in Hin.
  exact (proj1 (Forall_forall _ _) Hev e Hin).
Qed.

Lemma concat_nils {A} (l : list (list A)) :
  Forall (fun row => row = []) l -> concat l = [].
Proof.
  induction 1 as [|row l -> _ IH]; simpl; [reflexivity | exact IH].
Qed.

Lemma nth_nils {A} (l : list (list A)) (u : nat) :
  Forall (fun row => row = []) l -> nth u l [] = [].
Proof.
  intros H. revert u.
  induction H as [|row l -> _ IH]; intros [|u]; simpl; auto.
Qed.

Lemma rows_without_columns (off n : nat) (l : list R) :
  Forall (fun row => row = [])
         (map (fun u => slice (off + u * 0) 0 l) (seq 0 n)).
Proof. apply Forall_map, Forall_true. reflexivity. Qed.

(** X6.  With k = 0 latent factors the model is the bias-only
    predictor: on a layout whose bias fields are arrays (neither exactly
    one user nor exactly one item), for a buffer of 1 + n_users + n_items
    entries and a non-empty batch with indices in range and one score per
    event, [loss] returns the mean over the events of
    (score - (coef[0] + coef[1 + u] + coef[1 + n_users + i]))^2 plus the
    regularization scale times the sum of the squares of the user and
    item biases. *)
Theorem loss_without_factors (st : pmf_state) (coef : list R)
  (ev : events) (sc : list R) (nu ni : nat) :
  _dt st = mkDtype nu ni 0 ->
  nu <> 1%nat -> ni <> 1%nat ->
  length coef = (1 + nu + ni)%nat ->
  ev <> [] ->
  length sc = length ev ->
  valid_events nu ni ev ->
  loss st coef ev sc
  = Ok (Np.sum
          (map (fun es : Z * Z * R =>
                  (es.2 - (nth 0 coef 0
                           + nth (1 + Z.to_nat es.1.1) coef 0
                           + nth (1 + nu + Z.to_nat es.1.2) coef 0)) ^ 2)
               (zip ev sc))
        / INR (length ev)
        + _reg st * (sumsq (slice 1 nu coef)
                     + sumsq (slice (1 + nu) ni coef))).
Proof.
  intros Hdt Hnu Hni Hlen _ Hsc Hev.
  pose proof (loss_spec st coef ev sc) as HL. cbv zeta in HL.
  rewrite Hdt in HL. cbn [dt_n_users dt_n_items dt_k] in HL.
  rewrite HL by (assumption || (unfold spec_length; lia)).
  f_equal. unfold spec_loss, spec_regions.
  cbn [r_mu r_bu r_bi r_p r_q].
  pose proof (rows_without_columns (1 + nu + ni) nu coef) as Np0.
  pose proof (rows_without_columns (1 + nu + ni + nu * 0) ni coef) as Nq0.
  rewrite (concat_nils _ Np0), (concat_nils _ Nq0).
  f_equal.
  - f_equal.
    apply (sum_ext_Forall (fun es : Z * Z * R => valid_event nu ni es.1));
      [now apply valid_zip|].
    intros [[u i] s] [[Hu0 Hu] [Hi0 Hi]]. simpl in *.
    unfold predicted. cbn [r_mu r_bu r_bi r_p r_q fst snd].
    rewrite (nth_nils _ _ Np0), (nth_nils _ _ Nq0).
    rewrite !nth_slice by lia.
    unfold dot. simpl. ring.
  - unfold sumsq at 3 4. simpl. ring.
Qed.

(** X7.  [loss] compares the lengths of the score array and of the
    event array only through numpy's broadcasting.  On a layout whose
    bias fields are arrays (neither exactly one user nor exactly one
    item), for a buffer of the layout's length and a non-empty batch with
    indices in range: scores
    of another length than the events raise ValueError unless one of the
    two lengths is 1; a single score is compared with the prediction of
    every event; and with a single event every score is compared with
    that event's prediction, the sum being divided by 1. *)
Theorem loss_score_length (st : pmf_state) (coef : list R) (ev : events)
  (sc : list R) (nu ni kk : nat) :
  _dt st = mkDtype nu ni kk ->
  nu <> 1%nat -> ni <> 1%nat ->
  length coef = spec_length nu ni kk ->
  ev <> [] ->
  valid_events nu ni ev ->
  let r := spec_regions nu ni kk coef in
  let reg := _reg st * (sumsq (r_bu r) + sumsq (r_bi r)
                        + sumsq (concat (r_p r))
                        + sumsq (concat (r_q r))) in
  (length sc <> length ev -> length sc <> 1%nat -> length ev <> 1%nat ->
   loss st coef ev sc = Raise ValueError) /\
  (forall s, sc = [s] ->
     loss st coef ev sc
     = Ok (sumsq (map (fun e => s - predicted r e) ev) / INR (length ev)
           + reg)) /\
  (forall e, ev = [e] -> sc <> [] ->
     loss st coef ev sc
     = Ok (sumsq (map (fun s => s - predicted r e) sc) / 1 + reg)).
Proof.
  intros Hdt Hnu Hni Hlen Hne Hev r reg.
  destruct (spec_regions_lengths nu ni kk coef Hlen)
    as (Lmu & Lbu & Lbi & Lp & Lq).
  rewrite (loss_regions st coef ev sc nu ni kk Hdt Hnu Hni Hlen).
  cbv zeta.
  rewrite (esc_of_ok _ nu ni) by (assumption || lia). cbn [rbind].
  fold r. fold reg.
  split; [|split].
  - intros H1 H2 H3. unfold Np.broadcast2. rewrite length_map.
    destruct (Nat.eqb_spec (length sc) (length ev)) as [|_]; [easy|].
    destruct sc as [|s [|s' sc]], ev as [|e [|e' ev]]; simpl in *;
      easy.
  - intros s ->. unfold Np.broadcast2. rewrite length_map.
    destruct (Nat.eqb_spec (length [s]) (length ev)) as [Heq|_].
    + destruct ev as [|e [|e' ev]]; simpl in Heq; easy.
    + cbn [rbind]. now rewrite map_map.
  - intros e -> Hsc. unfold Np.broadcast2.
    destruct (Nat.eqb_spec (length sc) (length (map (predicted r) [e])))
      as [Heq|Hneq].
    + destruct sc as [|s [|s' sc]]; simpl in Heq; easy.
    + destruct sc as [|s [|s' sc]]; simpl in *; easy.
Qed.

(** ** The initial latent factors *)

Lemma nth_map_seq {A} (h : nat -> A) (n j : nat) (d : A) :
  (j < n)%nat -> nth j (map h (seq 0 n)) d = h j.
Proof.
  intros Hj. apply nth_lookup_Some.
  rewrite list_lookup_fmap, lookup_seq_lt by lia. reflexivity.
Qed.

Lemma lookup_nth_lt {A} (l : list A) (j : nat) (d : A) :
  (j < length l)%nat -> l !! j = Some (nth j l d).
Proof.
  intros Hj. destruct (l !! j) as [x|] eqn:Hx.
  - f_equal. symmetry. now apply nth_lookup_Some.
  - apply lookup_ge_None in Hx. lia.
Qed.

Section InitFactors.

Variable self : PMF.
Variables (ev : events) (sc : list R) (nu ni : nat).
Hypothesis Hsc : length sc = length ev.
Hypothesis Hev : valid_events nu ni ev.

Abbreviation dt5 := (mkDtype nu ni (k self)).
Abbreviation sq_res :=
  (fun es : Z * Z * R =>
     (es.2 - (spec_global_bias sc
              + spec_user_bias ev sc (Z.to_nat es.1.1)
              + spec_item_bias ev sc (Z.to_nat es.1.2))) ^ 2).

(** The loop over the events accumulates the squared residuals of the
    bias-only prediction. *)
Lemma init_var_value (coef : list R) :
  nu <> 1%nat -> ni <> 1%nat ->
  window dt5 Fmu coef = [spec_global_bias sc] ->
  window dt5 Fbu coef = map (spec_user_bias ev sc) (seq 0 nu) ->
  window dt5 Fbi coef = map (spec_item_bias ev sc) (seq 0 ni) ->
  rfoldM (init_var self ev sc nu ni coef) 0 (seq 0 (length ev))
  = Ok (Np.sum (map sq_res (zip ev sc))).
Proof.
  intros Hnu Hni Hmu Hbu Hbi.
  destruct (rfoldM_inv (init_var self ev sc nu ni coef)
              (fun done var =>
                 var = Np.sum (map sq_res
                                 (take (length done) (zip ev sc))))
              (seq 0 (length ev)) 0)
    as (var & Hrun & Hvar).
  - reflexivity.
  - intros done x rest var Hsplit ->.
    destruct (seq_split _ _ _ _ Hsplit) as (-> & _ & Hlt).
    unfold init_var.
    rewrite (getitem_ok sc _ 0) by lia. cbn [rbind].
    rewrite Hmu, (getitem_ok _ _ 0) by (simpl; lia). cbn [rbind].
    rewrite (getitem_ok ev _ (0, 0)%Z) by lia. cbn [rbind].
    rewrite Nat2Z.id.
    set (e := nth (length done) ev (0, 0)%Z).
    assert (valid_event nu ni e) as [Hu Hi].
    { apply (proj1 (Forall_forall _ _) Hev).
      apply list_elem_of_In, nth_In. exact Hlt. }
    rewrite !fwindow_array by (now apply scalar_field_false).
    cbn [vgetitem].
    rewrite Hbu, (getitem_ok _ _ 0)
      by (rewrite length_map, length_seq; exact Hu).
    cbn [rbind].
    rewrite Hbi, (getitem_ok _ _ 0)
      by (rewrite length_map, length_seq; exact Hi).
    cbn [rbind]. eexists. split; [reflexivity|].
    rewrite length_app. simpl length. rewrite Nat.add_1_r.
    assert (zip ev sc !! length done
            = Some (e, nth (length done) sc 0)) as Hz.
    { apply lookup_zip_with_Some. exists e, (nth (length done) sc 0).
      split; [reflexivity|].
      split; apply lookup_nth_lt; lia. }
    rewrite (take_S_r _ _ _ Hz), map_app, sum_app. simpl.
    rewrite !nth_map_seq by lia. simpl. ring.
  - rewrite Hrun. f_equal. rewrite Hvar. do 2 f_equal.
    apply take_ge. rewrite length_seq, length_zip. lia.
Qed.

Lemma init_coef_factors (rng : rng_state) :
  nu <> 1%nat -> ni <> 1%nat ->
  ev <> [] ->
  let sd := sqrt (spec_residual_var ev sc) in
  exists st,
    _init_coef self ev sc nu ni rng = Ok st /\
    length (_coef st) = itemsize dt5 /\
    window dt5 Fp (_coef st)
    = map (fun j => 0 + sd * rng j) (seq 0 (nu * k self)) /\
    window dt5 Fq (_coef st)
    = map (fun j => 0 + sd * rng (nu * k self + j)%nat)
          (seq 0 (ni * k self)) /\
    _rng st = fun j => rng (nu * k self + (ni * k self + j))%nat.
Proof.
  intros Hnu Hni Hne sd. rewrite init_coef_unfold. cbv zeta.
  pose proof (alloc_length nu ni (k self)) as Hl0.
  set (zeros := replicate _ 0) in *.
  assert (zeros = replicate (itemsize dt5) 0) as Hz.
  { unfold zeros. now rewrite itemsize_eq. }
  set (coef0 := view_set dt5 Fmu 0 _ zeros).
  assert (window dt5 Fmu coef0 = [spec_global_bias sc]) as Hmu0.
  { unfold coef0. rewrite window_view_set
      by (rewrite field_size_eq; lia).
    rewrite Hz, window_replicate by reflexivity.
    unfold spec_global_bias, mean. now rewrite Hsc. }
  assert (forall f, f <> Fmu -> window dt5 f coef0
                                = replicate (field_size dt5 f) 0) as Hw0.
  { intros f Hf. unfold coef0.
    rewrite window_view_set_other
      by (congruence || (rewrite field_size_eq; lia)).
    now rewrite Hz, window_replicate. }
  destruct (init_bu_loop self ev sc nu ni Hsc coef0 Hnu Hmu0)
    as (c1 & -> & L1 & M1 & I1 & U1).
  { rewrite Hw0, field_size_eq by congruence. reflexivity. }
  cbn [rbind].
  destruct (init_bi_loop self ev sc nu ni Hsc Hev c1 Hnu Hni M1 U1)
    as (c2 & -> & L2 & M2 & U2 & I2).
  { rewrite I1, Hw0, field_size_eq by congruence. reflexivity. }
  cbn [rbind].
  rewrite (init_var_value c2 Hnu Hni M2 U2 I2). cbn [rbind].
  destruct (Nat.eqb_spec (length ev) 0) as [H0|_].
  { destruct ev; [congruence | discriminate]. }
  unfold normal. eexists. split; [reflexivity|]. cbn [_dt _coef _rng].
  assert (length c2 = itemsize dt5) as Hc2.
  { rewrite L2, L1. unfold coef0. now rewrite view_set_length. }
  fold (spec_residual_var ev sc). fold sd.
  split; [|split; [|split]].
  - now rewrite !view_fill_length.
  - rewrite window_view_fill_other
      by (congruence ||
          (rewrite length_map, length_seq, field_size_eq; reflexivity)).
    rewrite window_view_fill
      by (assumption ||
          (rewrite length_map, length_seq, field_size_eq; reflexivity)).
    reflexivity.
  - rewrite window_view_fill
      by (rewrite ?view_fill_length; assumption ||
          (rewrite length_map, length_seq, field_size_eq; reflexivity)).
    reflexivity.
  - reflexivity.
Qed.

End InitFactors.

(** X8.  On a layout whose bias fields are arrays (neither exactly one
    user nor exactly one item), for every non-empty batch with indices in
    range and one score per event, the initializer fills the latent
    factors with the normal
    variates of the random source scaled by the standard deviation
    sqrt(var), where var is the mean over the events of the squared
    residual of the bias-only prediction: the user factors take the
    first n_users * k variates in row-major order, the item factors the
    next n_items * k, and the source is left advanced by
    (n_users + n_items) * k. *)
Theorem initial_factors (self : PMF) (ev : events) (sc : list R)
  (nu ni : nat) (rng : rng_state) :
  nu <> 1%nat -> ni <> 1%nat ->
  ev <> [] ->
  length sc = length ev ->
  valid_events nu ni ev ->
  exists st,
    _init_coef self ev sc nu ni rng = Ok st /\
    let r := spec_regions nu ni (k self) (_coef st) in
    let sd := sqrt (spec_residual_var ev sc) in
    (forall u f, (u < nu)%nat -> (f < k self)%nat ->
       nth f (nth u (r_p r) []) 0 = sd * rng (u * k self + f)%nat) /\
    (forall i f, (i < ni)%nat -> (f < k self)%nat ->
       nth f (nth i (r_q r) []) 0
       = sd * rng (nu * k self + (i * k self + f))%nat) /\
    (forall j, _rng st j = rng ((nu + ni) * k self + j)%nat).
Proof.
  intros Hnu Hni Hne Hsc Hev.
  destruct (init_coef_factors self ev sc nu ni Hsc Hev rng Hnu Hni Hne)
    as (st & Hrun & Hlen & Hp & Hq & Hrng).
  exists st. split; [exact Hrun|]. cbv zeta.
  assert (length (_coef st) = spec_length nu ni (k self)) as Hl
    by now rewrite Hlen, itemsize_spec_length.
  split; [|split].
  - intros u f Hu Hf. unfold spec_regions. cbn [r_p].
    rewrite nth_rows, nth_slice by assumption.
    assert (u * k self + f < nu * k self)%nat as Hj by nia.
    pose proof (window_lookup (mkDtype nu ni (k self)) (_coef st) Fp
                  (u * k self + f)) as Hw.
    rewrite field_size_eq, field_offset_eq in Hw.
    cbn [dt_n_users dt_n_items dt_k] in Hw. specialize (Hw Hj).
    rewrite Hp, list_lookup_fmap, lookup_seq_lt in Hw by exact Hj.
    simpl in Hw. symmetry in Hw.
    replace (1 + nu + ni + u * k self + f)%nat
      with (S (nu + ni + (u * k self + f))) by lia.
    rewrite (nth_lookup_Some _ _ _ _ Hw). ring.
  - intros i f Hi Hf. unfold spec_regions. cbn [r_q].
    rewrite nth_rows, nth_slice by assumption.
    assert (i * k self + f < ni * k self)%nat as Hj by nia.
    pose proof (window_lookup (mkDtype nu ni (k self)) (_coef st) Fq
                  (i * k self + f)) as Hw.
    rewrite field_size_eq, field_offset_eq in Hw.
    cbn [dt_n_users dt_n_items dt_k] in Hw. specialize (Hw Hj).
    rewrite Hq, list_lookup_fmap, lookup_seq_lt in Hw by exact Hj.
    simpl in Hw. symmetry in Hw.
    replace (1 + nu + ni + nu * k self + i * k self + f)%nat
      with (S (nu + ni + nu * k self + (i * k self + f))) by lia.
    rewrite (nth_lookup_Some _ _ _ _ Hw). ring.
  - intros j. rewrite Hrng. f_equal. lia.
Qed.

(** ** Fitting, the optimizer and the fitted model *)

Lemma sumsq_zeros (n : nat) : sumsq (replicate n 0) = 0.
Proof.
  induction n as [|n IH]; [reflexivity|].
  change (sumsq (replicate (S n) 0)) with (0 ^ 2 + sumsq (replicate n 0)).
  rewrite IH. ring.
Qed.

Lemma sumsq_extended (l : list R) : sumsq (l ++ [0]) = sumsq l.
Proof.
  rewrite sumsq_app. change (sumsq [0]) with (0 ^ 2 + 0). ring.
Qed.

Lemma sumsq_concat_extended (p : list (list R)) (n : nat) :
  sumsq (concat (p ++ [replicate n 0])) = sumsq (concat p).
Proof.
  rewrite concat_app, sumsq_app. simpl. rewrite app_nil_r, sumsq_zeros.
  ring.
Qed.

(** On the indices of the training objects, the fitted model predicts
    what the regions of the final buffer predict. *)
Lemma predicted_extended (nu ni kk : nat) (coef : list R) (m : fitted)
  (e : Z * Z) :
  length coef = spec_length nu ni kk ->
  extended nu ni kk coef m ->
  valid_event nu ni e ->
  predicted (tensors m) e = predicted (spec_regions nu ni kk coef) e.
Proof.
  intros Hlen (Hmu & Hbu & Hbi & Hp & Hq) [[Hu0 Hu] [Hi0 Hi]].
  destruct (spec_regions_lengths nu ni kk coef Hlen)
    as (Lmu & Lbu & Lbi & Lp & Lq).
  unfold predicted, tensors. cbn [r_mu r_bu r_bi r_p r_q].
  rewrite Hmu, Hbu, Hbi, Hp, Hq.
  rewrite !app_nth1 by lia. reflexivity.
Qed.

Lemma valid_events_succ (nu ni : nat) (evs : events) :
  valid_events nu ni evs -> valid_events (S nu) (S ni) evs.
Proof.
  intros H. eapply Forall_impl; [exact H|].
  intros e [H1 H2]. split; lia.
Qed.

Section FitOptimizer.

Variable fmin_cg :
  (list R -> result R) -> list R -> (list R -> result (list R)) ->
  option R -> nat -> result cg_result.

(** What the code relies on from [scipy.optimize.fmin_cg]: the point it
    returns has the shape of the initial point. *)
Hypothesis xopt_shape :
  forall f x0 g gtol maxit res,
    fmin_cg f x0 g gtol maxit = Ok res -> length (xopt res) = length x0.

Lemma fit_inv (self : PMF) (ev : events) (sc : list R) (nu ni : nat)
  (maxiter_arg : option nat) (rng : rng_state) (m : fitted) :
  fit fmin_cg self ev sc nu ni maxiter_arg rng = Ok m ->
  exists st res,
    _init_coef self ev sc nu ni rng = Ok st /\
    fmin_cg (fun c => loss st c ev sc) (_coef st)
            (fun c => grad_loss self st c ev sc nu ni) (tol self)
            (default (maxiter self) maxiter_arg
             * spec_length nu ni (k self))
    = Ok res /\
    length (xopt res) = spec_length nu ni (k self) /\
    extended nu ni (k self) (xopt res) m /\
    loss st (_coef st) ev sc = Ok (initial_loss (fit_results_ m)) /\
    final_loss (fit_results_ m) = fopt res.
Proof.
  intros H.
  destruct (fit_run _ _ _ _ _ _ _ _ _ H)
    as (st & res & coef & Hinit & Hcg & Hassign & Hlen & Hext & Hloss
        & Hfinal).
  pose proof (init_coef_length _ _ _ _ _ _ _ Hinit) as Hl.
  pose proof (xopt_shape _ _ _ _ _ _ Hcg) as Hx. rewrite Hl in Hx.
  assert (coef = xopt res) as ->
    by (apply (assign_all_same _ _ _ Hassign); now rewrite Hl).
  exists st, res.
  split; [exact Hinit|]. split; [exact Hcg|]. split; [exact Hx|].
  split; [exact Hext|]. split; [exact Hloss | exact Hfinal].
Qed.

(** X9.  Behind every successful [fit] there is a call of the
    initializer and a call of the optimizer on the loss and the
    gradient of the initialized state, started from the initialized
    buffer with gtol = self.tol and with the iteration budget
    maxiter * (number of parameters), the argument of [fit] taking
    precedence over the constructor's; and on every pair of a training
    user and a training item the fitted model predicts global bias +
    user bias + item bias + dot product of the factor rows read from
    the point that call returned. *)
Theorem fit_predicts_optimum (self : PMF) (ev : events) (sc : list R)
  (nu ni : nat) (maxiter_arg : option nat) (rng : rng_state)
  (m : fitted) :
  fit fmin_cg self ev sc nu ni maxiter_arg rng = Ok m ->
  exists st res,
    _init_coef self ev sc nu ni rng = Ok st /\
    fmin_cg (fun c => loss st c ev sc) (_coef st)
            (fun c => grad_loss self st c ev sc nu ni) (tol self)
            (default (maxiter self) maxiter_arg
             * spec_length nu ni (k self))
    = Ok res /\
    forall evs, valid_events nu ni evs ->
      raw_predict m (rows_of evs)
      = Ok (map (predicted (spec_regions nu ni (k self) (xopt res)))
                evs).
Proof.
  intros Hfit.
  destruct (fit_inv _ _ _ _ _ _ _ _ Hfit)
    as (st & res & Hinit & Hcg & Hx & Hext & _).
  exists st, res. split; [exact Hinit|]. split; [exact Hcg|].
  intros evs Hev.
  rewrite (raw_predict_ok nu ni (k self) (xopt res))
    by (assumption || now apply valid_events_succ).
  f_equal. apply Forall_fmap_ext_1.
  eapply Forall_impl; [exact Hev|].
  intros e He. now apply (predicted_extended nu ni (k self)).
Qed.

(** The other half of the contract: the value reported is the objective
    at the point returned. *)
Hypothesis fopt_value :
  forall f x0 g gtol maxit res,
    fmin_cg f x0 g gtol maxit = Ok res -> f (xopt res) = Ok (fopt res).

(** X10.  After a successful [fit] on a batch with indices in range and
    one score per event, the final loss kept in [fit_results_] is the
    mean over the training events of (score - score predicted by the
    fitted model)^2 plus the regularization scale
    C / (1 + (k+1)(n_users + n_items)) times the sum of the squares of
    the fitted user biases, item biases, user factors and item factors
    (the fallback rows add nothing). *)
Theorem fit_final_loss (self : PMF) (ev : events) (sc : list R)
  (nu ni : nat) (maxiter_arg : option nat) (rng : rng_state)
  (m : fitted) :
  fit fmin_cg self ev sc nu ni maxiter_arg rng = Ok m ->
  length sc = length ev ->
  valid_events nu ni ev ->
  exists pred,
    raw_predict m (rows_of ev) = Ok pred /\
    final_loss (fit_results_ m)
    = sumsq (zip_with Rminus sc pred) / INR (length ev)
      + C self / INR (1 + (k self + 1) * (nu + ni))
        * (sumsq (bu_ m) + sumsq (bi_ m)
           + sumsq (concat (p_ m)) + sumsq (concat (q_ m))).
Proof.
  intros Hfit Hsc Hev.
  destruct (fit_inv _ _ _ _ _ _ _ _ Hfit)
    as (st & res & Hinit & Hcg & Hx & Hext & _ & Hfinal).
  destruct (init_coef_state _ _ _ _ _ _ _ Hinit) as [Hdt Hreg].
  destruct (init_coef_sizes _ _ _ _ _ _ _ Hinit) as [Hnu Hni].
  exists (map (predicted (spec_regions nu ni (k self) (xopt res))) ev).
  split.
  - rewrite (raw_predict_ok nu ni (k self) (xopt res))
      by (assumption || now apply valid_events_succ).
    f_equal. apply Forall_fmap_ext_1.
    eapply Forall_impl; [exact Hev|].
    intros e He. now apply (predicted_extended nu ni (k self)).
  - pose proof (fopt_value _ _ _ _ _ _ Hcg) as Hval. cbv beta in Hval.
    pose proof (loss_spec st (xopt res) ev sc) as HL. cbv zeta in HL.
    rewrite Hdt in HL. cbn [dt_n_users dt_n_items dt_k] in HL.
    rewrite HL in Hval by assumption. injection Hval as Hval.
    rewrite Hfinal, <- Hval. unfold spec_loss.
    destruct Hext as (_ & -> & -> & -> & ->).
    rewrite !sumsq_extended, !sumsq_concat_extended, Hreg.
    now rewrite sumsq_residuals.
Qed.

End FitOptimizer.

(** ** Object ids *)

Lemma getitem_lookup {A} (a : list A) (j : nat) (x : A) :
  a !! j = Some x -> Np.getitem a (Z.of_nat j) = Ok x.
Proof.
  intros H. pose proof (lookup_lt_Some _ _ _ H) as Hj.
  rewrite (getitem_ok a _ x) by lia.
  rewrite Nat2Z.id. f_equal. now apply nth_lookup_Some.
Qed.

Lemma getitem_accepted {A} (a : list A) (i : Z) (d : A) :
  axis_accepted (length a) i ->
  Np.getitem a i = Ok (nth (Z.to_nat (axis_wrap (length a) i)) a d).
Proof.
  intros Hi. rewrite (getitem_axis_wrap a i Hi).
  apply getitem_ok. now apply axis_wrap_valid.
Qed.

Lemma getitem_rejected {A} (a : list A) (i : Z) :
  ~ axis_accepted (length a) i -> Np.getitem a i = Raise IndexError.
Proof.
  intros Hi. apply getitem_out. unfold axis_accepted in Hi. lia.
Qed.

Lemma take_accepted {A} (a : list A) (idx : list Z) (d : A) :
  Forall (axis_accepted (length a)) idx ->
  Np.take a idx
  = Ok (map (fun i => nth (Z.to_nat (axis_wrap (length a) i)) a d) idx).
Proof.
  intros H. apply rmapM_ok.
  eapply Forall_impl; [exact H|]. intros i Hi. now apply getitem_accepted.
Qed.

Section ScalarIds.

Context {F : Type}.
Variable self : Container.t F.

Lemma to_eid_raise (otype i : Z) (e : pyexc) :
  Container.to_eid self otype i = Raise e -> e = ValueError.
Proof.
  unfold Container.to_eid.
  destruct (Np.getitem (Container.eid self) otype) as [tbl|e0] eqn:H0;
    cbn [rbind].
  - destruct (Np.getitem tbl i) as [x|e1] eqn:H1; [discriminate|].
    apply getitem_raise_IndexError in H1 as ->. congruence.
  - apply getitem_raise_IndexError in H0 as ->. congruence.
Qed.

(** X11.  [to_eid] never lets an IndexError out: whatever the object
    type and the internal id, a failure is a ValueError.  For an object
    type with a table of n external ids, the ids 0 .. n - 1 give the
    entries of the table, the ids -n .. -1 are not rejected but give
    the entries counted from the end, and every other id raises
    ValueError. *)
Theorem to_eid_range (ot : nat) (tbl : list Z) (i : Z) :
  Container.eid self !! ot = Some tbl ->
  (forall otype j e,
     Container.to_eid self otype j = Raise e -> e = ValueError) /\
  ((0 <= i < Z.of_nat (length tbl))%Z ->
   Container.to_eid self (Z.of_nat ot) i = Ok (nth (Z.to_nat i) tbl 0%Z)) /\
  ((- Z.of_nat (length tbl) <= i < 0)%Z ->
   Container.to_eid self (Z.of_nat ot) i
   = Ok (nth (Z.to_nat (i + Z.of_nat (length tbl))) tbl 0%Z)) /\
  ((i < - Z.of_nat (length tbl) \/ Z.of_nat (length tbl) <= i)%Z ->
   Container.to_eid self (Z.of_nat ot) i = Raise ValueError).
Proof.
  intros Htbl. split; [exact to_eid_raise|].
  unfold Container.to_eid. rewrite (getitem_lookup _ _ _ Htbl).
  cbn [rbind]. split; [|split].
  - intros Hi. now rewrite (getitem_ok tbl i 0%Z).
  - intros Hi. rewrite getitem_wrap by exact Hi.
    now rewrite (getitem_ok tbl _ 0%Z) by lia.
  - intros Hi. now rewrite getitem_out.
Qed.

(** X12.  Where the dictionary of internal ids of an object type is the
    inverse of its array of external ids, [to_iid] returns the internal
    id of a known external id and raises ValueError for an unknown one,
    and the two conversions undo each other: [to_eid] maps the result
    of [to_iid] back to the external id, and [to_iid] maps the result
    of [to_eid] on an id in 0 .. n - 1 back to that id. *)
Theorem to_iid_to_eid_roundtrip (ot : nat) (tbl : list Z) (d : gmap Z Z) :
  Container.tables_inverse self ->
  Container.eid self !! ot = Some tbl ->
  Container.iid self !! ot = Some d ->
  (forall x, d !! x = None ->
     Container.to_iid self (Z.of_nat ot) x = Raise ValueError) /\
  (forall x i, d !! x = Some i ->
     Container.to_iid self (Z.of_nat ot) x = Ok i /\
     Container.to_eid self (Z.of_nat ot) i = Ok x) /\
  (forall i x, (0 <= i < Z.of_nat (length tbl))%Z ->
     Container.to_eid self (Z.of_nat ot) i = Ok x ->
     Container.to_iid self (Z.of_nat ot) x = Ok i).
Proof.
  intros Hinv Htbl Hd.
  pose proof (Hinv ot tbl d Htbl Hd) as Hiff.
  unfold Container.to_iid, Container.to_eid.
  rewrite (getitem_lookup _ _ _ Htbl), (getitem_lookup _ _ _ Hd).
  cbn [rbind]. split; [|split].
  - intros x ->. reflexivity.
  - intros x i Hx. rewrite Hx. split; [reflexivity|].
    apply Hiff in Hx as [H0 Hx].
    pose proof (lookup_lt_Some _ _ _ Hx) as Hlt.
    rewrite (getitem_ok tbl i 0%Z) by lia.
    f_equal. now apply nth_lookup_Some.
  - intros i x Hi Hx.
    rewrite (getitem_ok tbl i 0%Z) in Hx by lia. injection Hx as <-.
    assert (d !! nth (Z.to_nat i) tbl 0%Z = Some i) as ->; [|reflexivity].
    apply Hiff. split; [lia|]. apply lookup_nth_lt. lia.
Qed.

End ScalarIds.

(** ** Events in external and in internal ids *)

Lemma icolumn_wf (rows : list (list Z)) (c e : nat) :
  Forall (fun row => length row = c) rows -> (e < c)%nat ->
  icolumn rows (Z.of_nat e) = Ok (map (fun row => nth e row 0%Z) rows).
Proof.
  intros Hrows He. unfold icolumn. apply rmapM_ok.
  eapply Forall_impl; [exact Hrows|]. intros row Hrow. simpl in Hrow.
  rewrite (getitem_ok row _ 0%Z) by lia. now rewrite Nat2Z.id.
Qed.

(** A row whose columns before [e] have been converted by [f]. *)
Lemma converted_start (f : nat -> Z -> Z) (row : list Z) :
  imap (fun j x => if (j <? 0)%nat then f j x else x) row = row.
Proof.
  apply list_eq. intros j. rewrite list_lookup_imap.
  destruct (row !! j); reflexivity.
Qed.

Lemma converted_step (f : nat -> Z -> Z) (row : list Z) (e : nat) :
  <[e := f e (nth e row 0%Z)]>
    (imap (fun j x => if (j <? e)%nat then f j x else x) row)
  = imap (fun j x => if (j <? S e)%nat then f j x else x) row.
Proof.
  apply list_eq. intros j.
  destruct (decide (j = e)) as [->|Hne].
  - destruct (row !! e) as [x|] eqn:Hx.
    + rewrite list_lookup_insert_eq
        by (rewrite length_imap; now apply lookup_lt_Some in Hx).
      rewrite list_lookup_imap, Hx. simpl.
      rewrite (nth_lookup_Some _ _ _ _ Hx).
      destruct (Nat.ltb_spec e (S e)); [reflexivity | lia].
    + apply lookup_ge_None in Hx.
      rewrite list_insert_ge by now rewrite length_imap.
      rewrite !list_lookup_imap.
      now rewrite (proj2 (lookup_ge_None row e) Hx).
  - rewrite list_lookup_insert_ne by congruence.
    rewrite !list_lookup_imap. destruct (row !! j) as [x|]; [|reflexivity].
    simpl. destruct (Nat.ltb_spec j e), (Nat.ltb_spec j (S e));
      try reflexivity; lia.
Qed.

Lemma converted_all (f : nat -> Z -> Z) (row : list Z) (c : nat) :
  length row = c ->
  imap (fun j x => if (j <? c)%nat then f j x else x) row = imap f row.
Proof.
  intros Hc. apply list_eq. intros j. rewrite !list_lookup_imap.
  destruct (row !! j) as [x|] eqn:Hx; [|reflexivity]. simpl.
  apply lookup_lt_Some in Hx.
  destruct (Nat.ltb_spec j c); [reflexivity | lia].
Qed.

Lemma imap_seq_nth (f : nat -> Z -> Z) (row : list Z) :
  map (fun e => f e (nth e row 0%Z)) (seq 0 (length row)) = imap f row.
Proof.
  apply list_eq. intros j. rewrite list_lookup_fmap, list_lookup_imap.
  destruct (row !! j) as [x|] eqn:Hx.
  - rewrite lookup_seq_lt by now apply lookup_lt_Some in Hx.
    simpl. now rewrite (nth_lookup_Some _ _ _ _ Hx).
  - apply lookup_ge_None in Hx. now rewrite lookup_seq_ge.
Qed.

Section EventIds.

Context {F : Type}.
Variable self : Container.t F.
Variable n_otypes : nat.
Hypothesis Hwf : Container.wf self n_otypes.

Lemma otype_lookup (e : nat) :
  (e < Container.s_event self)%nat ->
  Np.getitem (Container.event_otypes self) (Z.of_nat e)
  = Ok (Z.of_nat (Container.otype_at self e)) /\
  (Container.otype_at self e < n_otypes)%nat.
Proof.
  intros He. destruct Hwf as (_ & _ & _ & Hl & Hot).
  assert (Container.event_otypes self !! e
          = Some (nth e (Container.event_otypes self) 0%Z)) as Hx
    by (apply lookup_nth_lt; lia).
  pose proof (proj1 (Forall_forall _ _) Hot _
                (list_elem_of_lookup_2 _ _ _ Hx)) as Hr.
  cbv beta in Hr. unfold Container.otype_at. rewrite (getitem_lookup _ _ _ Hx).
  rewrite Z2Nat.id by lia. split; [reflexivity | lia].
Qed.

Lemma iid_table_lookup (e : nat) :
  (e < Container.s_event self)%nat ->
  Np.getitem (Container.iid self) (Z.of_nat (Container.otype_at self e))
  = Ok (nth (Container.otype_at self e) (Container.iid self) ∅).
Proof.
  intros He. destruct (otype_lookup e He) as [_ Hlt].
  destruct Hwf as (_ & _ & Hi & _).
  apply getitem_lookup, lookup_nth_lt. lia.
Qed.

Lemma eid_table_lookup (e : nat) :
  (e < Container.s_event self)%nat ->
  Np.getitem (Container.eid self) (Z.of_nat (Container.otype_at self e))
  = Ok (nth (Container.otype_at self e) (Container.eid self) []).
Proof.
  intros He. destruct (otype_lookup e He) as [_ Hlt].
  destruct Hwf as (_ & He' & _).
  apply getitem_lookup, lookup_nth_lt. lia.
Qed.

Lemma counts_take :
  Np.take (Container.n_objects self) (Container.event_otypes self)
  = Ok (Container.counts self) /\
  length (Container.counts self) = Container.s_event self.
Proof.
  destruct Hwf as (Hn & _ & _ & Hl & Hot). split.
  - unfold Container.counts. apply take_ok.
    eapply Forall_impl; [exact Hot|]. intros ot Hr. simpl in Hr. lia.
  - unfold Container.counts. now rewrite length_map.
Qed.

(** *** External to internal *)

Lemma fetched_default (d : gmap Z Z) (x mv : Z) :
  fetched_value (dict_get d x mv) = default mv (d !! x).
Proof. unfold dict_get. now destruct (d !! x). Qed.

Lemma store_int_fits (given : bool) (d : gmap Z Z) (x mv : Z) :
  given = false \/ is_int64 mv = true ->
  store_int given (dict_get d x mv) = Ok (default mv (d !! x)).
Proof.
  intros H. unfold dict_get. destruct (d !! x) as [i|]; [reflexivity|].
  simpl. destruct H as [-> | ->]; [reflexivity|].
  now rewrite andb_false_r.
Qed.

Lemma store_int_raise (given : bool) (v : fetched) (x : pyexc) :
  store_int given v = Raise x -> x = OverflowError.
Proof.
  destruct v as [i|mv]; simpl; [discriminate|].
  destruct (given && negb (is_int64 mv)); [congruence | discriminate].
Qed.

Lemma rfoldM_ok_steps {A S} (f : S -> A -> result S) (l : list A)
  (s s' : S) :
  rfoldM f s l = Ok s' ->
  Forall (fun x => exists s1 s2, f s1 x = Ok s2) l.
Proof.
  revert s. induction l as [|x l IH]; intros s H; simpl in H;
    [constructor|].
  apply rbind_ok in H as (s1 & Hx & H).
  constructor; [eauto | now apply (IH s1)].
Qed.

Lemma rmapM_ok_elem {A B} (f : A -> result B) (l : list A) (l' : list B) :
  rmapM f l = Ok l' -> Forall (fun x => exists y, f x = Ok y) l.
Proof.
  revert l'. induction l as [|x l IH]; intros l' H; simpl in H;
    [constructor|].
  apply rbind_ok in H as (y & Hy & H).
  apply rbind_ok in H as (ys & Hys & _).
  constructor; [eauto | now apply (IH ys)].
Qed.

Lemma rfoldM_raise_elem {A S} (f : S -> A -> result S) (e : pyexc)
  (l : list A) (s : S) (e' : pyexc) :
  (forall s x e', x ∈ l -> f s x = Raise e' -> e' = e) ->
  rfoldM f s l = Raise e' -> e' = e.
Proof.
  revert s. induction l as [|x l IH]; intros s Hf H; simpl in H.
  - discriminate.
  - destruct (f s x) as [s'|e''] eqn:Hx; cbn [rbind] in H.
    + apply (IH s'); [|exact H].
      intros s0 y e0 Hy. apply Hf. now right.
    + inversion H; subst. apply (Hf s x); [left | exact Hx].
Qed.

Lemma mv_fits (given : bool) (mv : list Z) (e : nat) :
  given = false \/ Forall (fun x => is_int64 x = true) mv ->
  (e < length mv)%nat ->
  given = false \/ is_int64 (nth e mv 0%Z) = true.
Proof.
  intros [H|H] He; [now left | right].
  apply (proj1 (Forall_forall _ _) H).
  apply list_elem_of_In, nth_In. exact He.
Qed.

(** The list comprehension of column [e]. *)
Lemma iid_column_fetch (rows : list (list Z)) (mv : list Z) (e : nat) :
  Forall (fun row => length row = Container.s_event self) rows ->
  length mv = Container.s_event self ->
  (e < Container.s_event self)%nat ->
  forall given new_ev,
    Container.iid_column self given rows mv new_ev e
    = let* new_col :=
        rmapM (store_int given)
          (map (fun row =>
                  dict_get (nth (Container.otype_at self e)
                                (Container.iid self) ∅)
                           (nth e row 0%Z) (nth e mv 0%Z)) rows) in
      Ok (set_icolumn new_ev e new_col).
Proof.
  intros Hrows Hmv He given new_ev. unfold Container.iid_column.
  destruct (otype_lookup e He) as [-> _]. cbn [rbind].
  rewrite (iid_table_lookup e He). cbn [rbind].
  rewrite (icolumn_wf rows _ e Hrows He). cbn [rbind].
  rewrite (rmapM_ok _ (fun x =>
                         dict_get (nth (Container.otype_at self e)
                                       (Container.iid self) ∅)
                                  x (nth e mv 0%Z))).
  2:{ apply Forall_true. intros x.
      rewrite (getitem_ok mv _ 0%Z) by lia. cbn [rbind].
      now rewrite Nat2Z.id. }
  cbn [rbind]. now rewrite map_map.
Qed.

Lemma iid_column_step (given : bool) (rows new_ev : list (list Z))
  (mv : list Z) (e : nat) :
  Forall (fun row => length row = Container.s_event self) rows ->
  length mv = Container.s_event self ->
  given = false \/ Forall (fun x => is_int64 x = true) mv ->
  (e < Container.s_event self)%nat ->
  new_ev
  = map (imap (fun j x => if (j <? e)%nat
                          then Container.iid_entry self mv j x else x))
        rows ->
  Container.iid_column self given rows mv new_ev e
  = Ok (map (imap (fun j x => if (j <? S e)%nat
                              then Container.iid_entry self mv j x
                              else x)) rows).
Proof.
  intros Hrows Hmv Hfit He ->.
  rewrite (iid_column_fetch rows mv e Hrows Hmv He).
  rewrite (rmapM_ok _ fetched_value).
  2:{ apply Forall_map, Forall_true. intros row.
      rewrite store_int_fits by (apply mv_fits; [exact Hfit | lia]).
      now rewrite fetched_default. }
  cbn [rbind]. f_equal. unfold set_icolumn.
  rewrite !map_map, zip_with_map2. apply map_ext. intros row.
  rewrite fetched_default.
  apply (converted_step (Container.iid_entry self mv)).
Qed.

Lemma iid_columns (given : bool) (rows : list (list Z)) (mv : list Z) :
  Forall (fun row => length row = Container.s_event self) rows ->
  length mv = Container.s_event self ->
  given = false \/ Forall (fun x => is_int64 x = true) mv ->
  rfoldM (Container.iid_column self given rows mv) rows
         (seq 0 (Container.s_event self))
  = Ok (map (imap (Container.iid_entry self mv)) rows).
Proof.
  intros Hrows Hmv Hfit.
  destruct (rfoldM_inv (Container.iid_column self given rows mv)
              (fun done new_ev =>
                 new_ev
                 = map (imap (fun j x =>
                                if (j <? length done)%nat
                                then Container.iid_entry self mv j x
                                else x)) rows)
              (seq 0 (Container.s_event self)) rows)
    as (new_ev & Hrun & Hnew).
  - simpl. symmetry. rewrite <- (map_id rows) at 2.
    apply map_ext. intros row.
    apply (converted_start (Container.iid_entry self mv)).
  - intros done x rest new_ev Hsplit Hinv.
    destruct (seq_split _ _ _ _ Hsplit) as (-> & _ & Hlt).
    eexists. split; [now apply iid_column_step|].
    rewrite length_app. simpl. now rewrite Nat.add_1_r.
  - rewrite Hrun, Hnew, length_seq. f_equal.
    apply Forall_fmap_ext_1. eapply Forall_impl; [exact Hrows|].
    intros row Hrow. now apply converted_all.
Qed.

(** A missing value of the caller that does not fit in 64 bits stops
    the conversion as soon as it has to be stored. *)
Lemma iid_columns_overflow (rows : list (list Z)) (mv : list Z) :
  Forall (fun row => length row = Container.s_event self) rows ->
  length mv = Container.s_event self ->
  (exists e, Container.column_unknown self rows e /\
             is_int64 (nth e mv 0%Z) = false) ->
  rfoldM (Container.iid_column self true rows mv) rows
         (seq 0 (Container.s_event self))
  = Raise OverflowError.
Proof.
  intros Hrows Hmv (e & Hunk & Hbig).
  destruct (rfoldM _ _ _) as [new_ev|x] eqn:H.
  - exfalso. apply rfoldM_ok_steps in H.
    apply Exists_exists in Hunk as (row & Hin & x & Hx & Hnone).
    pose proof (proj1 (Forall_forall _ _) Hrows row Hin) as Hl.
    cbv beta in Hl. pose proof (lookup_lt_Some _ _ _ Hx) as He.
    rewrite Hl in He.
    assert (e ∈ seq 0 (Container.s_event self)) as Hes
      by (apply list_elem_of_In, in_seq; lia).
    apply (proj1 (Forall_forall _ _) H) in Hes as (s1 & s2 & Hstep).
    rewrite (iid_column_fetch rows mv e Hrows Hmv He) in Hstep.
    apply rbind_ok in Hstep as (new_col & Hstore & _).
    apply rmapM_ok_elem in Hstore.
    rewrite Forall_map in Hstore.
    apply (proj1 (Forall_forall _ _) Hstore) in Hin as [y Hy].
    cbv beta in Hy. rewrite (nth_lookup_Some _ _ _ _ Hx) in Hy.
    unfold dict_get in Hy. rewrite Hnone in Hy. simpl in Hy.
    rewrite Hbig in Hy. discriminate Hy.
  - f_equal. revert H. apply rfoldM_raise_elem.
    intros s e0 x' He0 Hstep.
    apply list_elem_of_In, in_seq in He0.
    rewrite (iid_column_fetch rows mv e0 Hrows Hmv) in Hstep by lia.
    destruct (rmapM (store_int true) _) as [new_col|x0] eqn:Hs;
      cbn [rbind] in Hstep; [discriminate|].
    injection Hstep as <-. revert Hs. apply rmapM_raise_only.
    intros v x1. apply store_int_raise.
Qed.

Lemma iid_entries (given : bool) (v mv : list Z) :
  length v = Container.s_event self ->
  length mv = Container.s_event self ->
  given = false \/ Forall (fun x => is_int64 x = true) mv ->
  (let* vals :=
     rmapM (Container.iid_of_entry self v mv)
           (seq 0 (Container.s_event self)) in
   rmapM (store_int given) vals)
  = Ok (imap (Container.iid_entry self mv) v).
Proof.
  intros Hv Hmv Hfit.
  rewrite (rmapM_ok _ (fun e =>
                         dict_get (nth (Container.otype_at self e)
                                       (Container.iid self) ∅)
                                  (nth e v 0%Z) (nth e mv 0%Z))).
  2:{ apply Forall_forall. intros e He.
      apply list_elem_of_In, in_seq in He.
      unfold Container.iid_of_entry.
      destruct (otype_lookup e) as [-> _]; [lia|]. cbn [rbind].
      rewrite (iid_table_lookup e) by lia. cbn [rbind].
      rewrite (getitem_ok v _ 0%Z) by lia. cbn [rbind].
      rewrite (getitem_ok mv _ 0%Z) by lia. cbn [rbind].
      now rewrite Nat2Z.id. }
  cbn [rbind].
  rewrite (rmapM_ok _ fetched_value).
  2:{ apply Forall_map, Forall_forall. intros e He.
      apply list_elem_of_In, in_seq in He.
      rewrite store_int_fits by (apply mv_fits; [exact Hfit | lia]).
      now rewrite fetched_default. }
  f_equal. rewrite map_map, <- imap_seq_nth, Hv.
  apply map_ext. intros e. now rewrite fetched_default.
Qed.

(** X13.  [to_iid_event] on the ids it is given: with [missing_values]
    left out, or holding one integer of 64 bits per column, every
    well-shaped array is converted entry by entry, an external id
    becoming its entry in the table of its column's object type and an
    id that is not in the table becoming the missing value of the
    column (the object count of the column's type when [missing_values]
    is left out).  A two-dimensional array is converted exactly as the
    one-dimensional branch converts each of its rows, and an array whose
    width is not s_event raises TypeError.  A missing value of the caller
    that does not fit in 64 bits raises OverflowError as soon as a
    column that needs it holds an unknown id. *)
Theorem to_iid_event_entries (missing_values : option (list Z)) :
  (forall mv, missing_values = Some mv ->
     length mv = Container.s_event self) ->
  let mv := default (Container.counts self) missing_values in
  let fits :=
    forall given, missing_values = Some given ->
      Forall (fun x => is_int64 x = true) given in
  (fits ->
   forall rows,
     Forall (fun row => length row = Container.s_event self) rows ->
     Container.to_iid_event self (Arr2 (Container.s_event self) rows)
                            missing_values
     = Ok (Arr2 (Container.s_event self)
             (map (imap (Container.iid_entry self mv)) rows))) /\
  (fits ->
   forall v, length v = Container.s_event self ->
     Container.to_iid_event self (Arr1 v) missing_values
     = Ok (Arr1 (imap (Container.iid_entry self mv) v))) /\
  (forall a, event_width a <> Container.s_event self ->
     Container.to_iid_event self a missing_values = Raise TypeError) /\
  (forall rows,
     missing_values <> None ->
     Forall (fun row => length row = Container.s_event self) rows ->
     (exists e, Container.column_unknown self rows e /\
                is_int64 (nth e mv 0%Z) = false) ->
     Container.to_iid_event self (Arr2 (Container.s_event self) rows)
                            missing_values
     = Raise OverflowError).
Proof.
  intros Hmv mv fits.
  destruct counts_take as [Hc Hcl].
  assert (match missing_values with
          | None => Np.take (Container.n_objects self)
                            (Container.event_otypes self)
          | Some mv => Ok mv
          end = Ok mv) as Hm.
  { unfold mv. destruct missing_values; [reflexivity | exact Hc]. }
  assert (length mv = Container.s_event self) as Hml.
  { unfold mv. destruct missing_values as [mv'|]; simpl;
      [now apply Hmv | exact Hcl]. }
  assert (fits ->
          match missing_values with Some _ => true | None => false end
          = false \/ Forall (fun x => is_int64 x = true) mv) as Hfit.
  { intros Hf. unfold mv. destruct missing_values as [mv'|];
      [right; now apply Hf | now left]. }
  unfold Container.to_iid_event. cbv zeta. rewrite Hm. cbn [rbind].
  split; [|split; [|split]].
  - intros Hf rows Hrows. rewrite Nat.eqb_refl.
    now rewrite (iid_columns _ rows mv Hrows Hml (Hfit Hf)).
  - intros Hf v Hv. rewrite Hv, Nat.eqb_refl.
    pose proof (iid_entries _ v mv Hv Hml (Hfit Hf)) as He.
    destruct (rmapM (Container.iid_of_entry self v mv) _) as [vals|x];
      cbn [rbind] in He |- *; [|discriminate He].
    now rewrite He.
  - intros [v|c rows] Hw; simpl in Hw;
      now rewrite (proj2 (Nat.eqb_neq _ _) Hw).
  - intros rows Hgiven Hrows Hbig. rewrite Nat.eqb_refl.
    destruct missing_values as [mv'|]; [|congruence].
    now rewrite (iid_columns_overflow rows mv Hrows Hml Hbig).
Qed.

(** *** Internal to external *)

Hypothesis Hn : (0 < n_otypes)%nat.

Lemma eid_first :
  exists tbl, Np.getitem (Container.eid self) 0 = Ok tbl.
Proof.
  destruct Hwf as (_ & He & _).
  destruct (Container.eid self) as [|tbl eid'] eqn:E;
    [simpl in He; lia|].
  exists tbl. reflexivity.
Qed.

Lemma column_accepted (rows : list (list Z)) (e : nat) :
  Forall (fun row => length row = Container.s_event self) rows ->
  (e < Container.s_event self)%nat ->
  Container.ids_accepted self rows ->
  Forall (axis_accepted
            (length (nth (Container.otype_at self e)
                         (Container.eid self) [])))
         (map (fun row => nth e row 0%Z) rows).
Proof.
  intros Hrows He Hacc. apply Forall_map, Forall_forall. intros row Hin.
  pose proof (proj1 (Forall_forall _ _) Hrows row Hin) as Hl.
  pose proof (proj1 (Forall_forall _ _) Hacc row Hin) as Ha.
  cbv beta in Hl, Ha. apply Ha, lookup_nth_lt. lia.
Qed.

Lemma eid_column_step (rows new_data : list (list Z)) (e : nat) :
  Forall (fun row => length row = Container.s_event self) rows ->
  Container.ids_accepted self rows ->
  (e < Container.s_event self)%nat ->
  new_data
  = map (imap (fun j x => if (j <? e)%nat
                          then Container.eid_entry self j x else x))
        rows ->
  Container.eid_column self rows new_data e
  = Ok (map (imap (fun j x => if (j <? S e)%nat
                              then Container.eid_entry self j x
                              else x)) rows).
Proof.
  intros Hrows Hacc He ->. unfold Container.eid_column.
  destruct (otype_lookup e He) as [-> _]. cbn [rbind].
  rewrite (eid_table_lookup e He). cbn [rbind].
  rewrite (icolumn_wf rows _ e Hrows He). cbn [rbind].
  rewrite (take_accepted _ _ 0%Z)
    by now apply column_accepted.
  cbn [rbind]. f_equal. unfold set_icolumn.
  rewrite map_map, zip_with_map2. apply map_ext. intros row.
  apply (converted_step (Container.eid_entry self)).
Qed.

Lemma eid_columns (rows : list (list Z)) :
  Forall (fun row => length row = Container.s_event self) rows ->
  Container.ids_accepted self rows ->
  rfoldM (Container.eid_column self rows) rows
         (seq 0 (Container.s_event self))
  = Ok (map (imap (Container.eid_entry self)) rows).
Proof.
  intros Hrows Hacc.
  destruct (rfoldM_inv (Container.eid_column self rows)
              (fun done new_data =>
                 new_data
                 = map (imap (fun j x =>
                                if (j <? length done)%nat
                                then Container.eid_entry self j x
                                else x)) rows)
              (seq 0 (Container.s_event self)) rows)
    as (new_data & Hrun & Hnew).
  - simpl. symmetry. rewrite <- (map_id rows) at 2.
    apply map_ext. intros row.
    apply (converted_start (Container.eid_entry self)).
  - intros done x rest new_data Hsplit Hinv.
    destruct (seq_split _ _ _ _ Hsplit) as (-> & _ & Hlt).
    eexists. split; [now apply eid_column_step|].
    rewrite length_app. simpl. now rewrite Nat.add_1_r.
  - rewrite Hrun, Hnew, length_seq. f_equal.
    apply Forall_fmap_ext_1. eapply Forall_impl; [exact Hrows|].
    intros row Hrow. now apply converted_all.
Qed.

Lemma eid_entries (v : list Z) :
  length v = Container.s_event self ->
  Container.ids_accepted self [v] ->
  rmapM (Container.eid_of_entry self v) (seq 0 (Container.s_event self))
  = Ok (imap (Container.eid_entry self) v).
Proof.
  intros Hv Hacc. rewrite <- imap_seq_nth, Hv.
  apply rmapM_ok. apply Forall_forall. intros e He.
  apply list_elem_of_In, in_seq in He.
  unfold Container.eid_of_entry.
  destruct (otype_lookup e) as [-> _]; [lia|]. cbn [rbind].
  rewrite (eid_table_lookup e) by lia. cbn [rbind].
  rewrite (getitem_ok v _ 0%Z) by lia. cbn [rbind].
  rewrite Nat2Z.id. apply getitem_accepted.
  apply Forall_inv in Hacc. apply Hacc, lookup_nth_lt. lia.
Qed.

Lemma icolumn_raise (rows : list (list Z)) (c : Z) (e : pyexc) :
  icolumn rows c = Raise e -> e = IndexError.
Proof.
  apply rmapM_raise_only. intros x e'. apply getitem_raise_IndexError.
Qed.

Lemma eid_column_raise (rows new_data : list (list Z)) (e : nat)
  (x : pyexc) :
  Container.eid_column self rows new_data e = Raise x -> x = IndexError.
Proof.
  unfold Container.eid_column.
  destruct (Np.getitem _ (Z.of_nat e)) as [ot|e0] eqn:H0; cbn [rbind];
    [|intros [= <-]; exact (getitem_raise_IndexError _ _ _ H0)].
  destruct (Np.getitem (Container.eid self) ot) as [tbl|e1] eqn:H1;
    cbn [rbind];
    [|intros [= <-]; exact (getitem_raise_IndexError _ _ _ H1)].
  destruct (icolumn rows (Z.of_nat e)) as [col|e2] eqn:H2; cbn [rbind];
    [|intros [= <-]; exact (icolumn_raise _ _ _ H2)].
  destruct (Np.take tbl col) as [vals|e3] eqn:H3; cbn [rbind];
    [discriminate|].
  intros [= <-]. exact (take_raise_IndexError _ _ _ H3).
Qed.

Lemma eid_columns_rejected (rows : list (list Z)) :
  Forall (fun row => length row = Container.s_event self) rows ->
  Exists (fun row =>
            exists e i, row !! e = Some i /\
              ~ axis_accepted
                  (length (nth (Container.otype_at self e)
                               (Container.eid self) [])) i) rows ->
  rfoldM (Container.eid_column self rows) rows
         (seq 0 (Container.s_event self))
  = Raise IndexError.
Proof.
  intros Hrows Hbad.
  destruct (rfoldM _ _ _) as [new_data|x] eqn:H.
  - exfalso. apply rfoldM_ok_steps in H.
    apply Exists_exists in Hbad as (row & Hin & e & i & Hi & Hrej).
    pose proof (proj1 (Forall_forall _ _) Hrows row Hin) as Hl.
    cbv beta in Hl. pose proof (lookup_lt_Some _ _ _ Hi) as He.
    rewrite Hl in He.
    assert (e ∈ seq 0 (Container.s_event self)) as Hes
      by (apply list_elem_of_In, in_seq; lia).
    apply (proj1 (Forall_forall _ _) H) in Hes as (s1 & s2 & Hstep).
    unfold Container.eid_column in Hstep.
    destruct (otype_lookup e He) as [Hot _]. rewrite Hot in Hstep.
    cbn [rbind] in Hstep. rewrite (eid_table_lookup e He) in Hstep.
    cbn [rbind] in Hstep.
    rewrite (icolumn_wf rows _ e Hrows He) in Hstep.
    cbn [rbind] in Hstep.
    apply rbind_ok in Hstep as (vals & Htake & _).
    apply take_ok_inv in Htake.
    apply Hrej.
    assert (i ∈ map (fun row => nth e row 0%Z) rows) as Hcol.
    { apply list_elem_of_fmap. exists row. split; [|exact Hin].
      symmetry. now apply nth_lookup_Some. }
    exact (proj1 (Forall_forall _ _) Htake i Hcol).
  - f_equal. revert H. apply rfoldM_raise_only.
    intros s e x'. apply eid_column_raise.
Qed.

(** X14.  [to_eid_event] on containers with at least one object type:
    a well-shaped array whose every entry is an index that numpy accepts
    on the table of external ids of its column's object type is
    converted entry by entry, a negative index counting from the end of
    the table; the two-dimensional branch converts each row as the
    one-dimensional branch does; one entry outside the accepted range
    raises IndexError, which, unlike [to_eid], the method does not turn
    into a ValueError; and an array whose width is not s_event raises
    TypeError. *)
Theorem to_eid_event_entries :
  (forall rows,
     Forall (fun row => length row = Container.s_event self) rows ->
     Container.ids_accepted self rows ->
     Container.to_eid_event self (Arr2 (Container.s_event self) rows)
     = Ok (Arr2 (Container.s_event self)
             (map (imap (Container.eid_entry self)) rows))) /\
  (forall v, length v = Container.s_event self ->
     Container.ids_accepted self [v] ->
     Container.to_eid_event self (Arr1 v)
     = Ok (Arr1 (imap (Container.eid_entry self) v))) /\
  (forall rows,
     Forall (fun row => length row = Container.s_event self) rows ->
     Exists (fun row =>
               exists e i, row !! e = Some i /\
                 ~ axis_accepted
                     (length (nth (Container.otype_at self e)
                                  (Container.eid self) [])) i) rows ->
     Container.to_eid_event self (Arr2 (Container.s_event self) rows)
     = Raise IndexError) /\
  (forall a, event_width a <> Container.s_event self ->
     Container.to_eid_event self a = Raise TypeError).
Proof.
  destruct eid_first as [tbl0 H0].
  unfold Container.to_eid_event.
  split; [|split; [|split]].
  - intros rows Hrows Hacc. rewrite Nat.eqb_refl, H0. cbn [rbind].
    now rewrite (eid_columns rows Hrows Hacc).
  - intros v Hv Hacc. rewrite Hv, Nat.eqb_refl.
    rewrite (eid_entries v Hv Hacc). cbn [rbind]. now rewrite H0.
  - intros rows Hrows Hbad. rewrite Nat.eqb_refl, H0. cbn [rbind].
    now rewrite (eid_columns_rejected rows Hrows Hbad).
  - intros [v|c rows] Hw; simpl in Hw;
      now rewrite (proj2 (Nat.eqb_neq _ _) Hw).
Qed.

(** *** Round trips *)

Hypothesis Hinv : Container.tables_inverse self.

Lemma tables_at (e : nat) :
  (e < Container.s_event self)%nat ->
  forall x i,
    nth (Container.otype_at self e) (Container.iid self) ∅ !! x = Some i
    <-> (0 <= i)%Z /\
        nth (Container.otype_at self e) (Container.eid self) []
          !! Z.to_nat i = Some x.
Proof.
  intros He. destruct (otype_lookup e He) as [_ Hlt].
  destruct Hwf as (_ & Hle & Hli & _).
  apply (Hinv (Container.otype_at self e)); apply lookup_nth_lt; lia.
Qed.

Lemma imap_imap_id (f g : nat -> Z -> Z) (row : list Z) :
  (forall e x, row !! e = Some x -> g e (f e x) = x) ->
  imap g (imap f row) = row.
Proof.
  intros H. apply list_eq. intros e. rewrite !list_lookup_imap.
  destruct (row !! e) as [x|] eqn:Hx; [|reflexivity].
  simpl. f_equal. now apply H.
Qed.

(** X15.  Where each dictionary of internal ids is the inverse of the
    array of external ids of its object type, the two conversions of
    events undo each other on well-shaped two-dimensional arrays: an
    array of internal ids within the tables is returned unchanged by
    [to_eid_event] followed by [to_iid_event], and an array of known
    external ids is returned unchanged by [to_iid_event] followed by
    [to_eid_event]. *)
Theorem event_ids_roundtrip (rows : list (list Z)) :
  Forall (fun row => length row = Container.s_event self) rows ->
  let a := Arr2 (Container.s_event self) rows in
  (Container.ids_in_range self rows ->
   exists ext,
     Container.to_eid_event self a = Ok ext /\
     Container.to_iid_event self ext None = Ok a) /\
  (Container.ids_known self rows ->
   exists int,
     Container.to_iid_event self a None = Ok int /\
     Container.to_eid_event self int = Ok a).
Proof.
  intros Hrows a.
  destruct counts_take as [Hc Hcl].
  destruct eid_first as [tbl0 H0].
  split.
  - intros Hin.
    assert (Container.ids_accepted self rows) as Hacc.
    { eapply Forall_impl; [exact Hin|]. intros row Hr e i Hi.
      specialize (Hr e i Hi). unfold axis_accepted. lia. }
    eexists. split.
    + unfold a, Container.to_eid_event. rewrite Nat.eqb_refl, H0.
      cbn [rbind]. rewrite (eid_columns rows Hrows Hacc). reflexivity.
    + unfold Container.to_iid_event. rewrite Hc. cbn [rbind].
      rewrite Nat.eqb_refl, iid_columns.
      2:{ apply Forall_map. eapply Forall_impl; [exact Hrows|].
          intros row Hr. now rewrite length_imap. }
      2:{ exact Hcl. }
      2:{ now left. }
      cbn [rbind]. unfold a. do 2 f_equal. rewrite map_map.
      rewrite <- (map_id rows) at 2. apply Forall_fmap_ext_1.
      apply Forall_forall. intros row Hrow.
      pose proof (proj1 (Forall_forall _ _) Hrows row Hrow) as Hl.
      pose proof (proj1 (Forall_forall _ _) Hin row Hrow) as Hr.
      cbv beta in Hl, Hr. apply imap_imap_id. intros e i Hi.
      pose proof (lookup_lt_Some _ _ _ Hi) as He. rewrite Hl in He.
      specialize (Hr e i Hi).
      unfold Container.iid_entry, Container.eid_entry. cbv zeta.
      unfold axis_wrap. destruct (Z.ltb_spec i 0) as [|_]; [lia|].
      rewrite (proj2 (tables_at e He _ i));
        [reflexivity|].
      split; [lia|]. apply lookup_nth_lt. lia.
  - intros Hk.
    assert (forall row e x, row ∈ rows -> row !! e = Some x ->
              exists i,
                nth (Container.otype_at self e) (Container.iid self) ∅
                  !! x = Some i /\
                (0 <= i)%Z /\
                nth (Container.otype_at self e) (Container.eid self) []
                  !! Z.to_nat i = Some x) as Hknown.
    { intros row e x Hrow Hx.
      pose proof (proj1 (Forall_forall _ _) Hrows row Hrow) as Hl.
      pose proof (proj1 (Forall_forall _ _) Hk row Hrow e x Hx) as [i Hi].
      cbv beta in Hl.
      pose proof (lookup_lt_Some _ _ _ Hx) as He. rewrite Hl in He.
      exists i. split; [exact Hi|]. now apply tables_at. }
    eexists. split.
    + unfold a, Container.to_iid_event. rewrite Hc. cbn [rbind].
      rewrite Nat.eqb_refl,
        (iid_columns false rows _ Hrows Hcl (or_introl eq_refl)).
      reflexivity.
    + unfold Container.to_eid_event. rewrite Nat.eqb_refl, H0.
      cbn [rbind]. rewrite eid_columns.
      2:{ apply Forall_map. eapply Forall_impl; [exact Hrows|].
          intros row Hr. now rewrite length_imap. }
      2:{ apply Forall_map, Forall_forall. intros row Hrow e i Hi.
          rewrite list_lookup_imap in Hi.
          destruct (row !! e) as [x|] eqn:Hx; [|discriminate].
          injection Hi as <-.
          destruct (Hknown row e x Hrow Hx) as (i & Hi & H0i & Ht).
          unfold Container.iid_entry. rewrite Hi. simpl.
          apply lookup_lt_Some in Ht. unfold axis_accepted. lia. }
      cbn [rbind]. unfold a. do 2 f_equal. rewrite map_map.
      rewrite <- (map_id rows) at 2. apply Forall_fmap_ext_1.
      apply Forall_forall. intros row Hrow.
      apply imap_imap_id. intros e x Hx.
      destruct (Hknown row e x Hrow Hx) as (i & Hi & H0i & Ht).
      unfold Container.iid_entry, Container.eid_entry. cbv zeta.
      rewrite Hi. simpl. unfold axis_wrap.
      destruct (Z.ltb_spec i 0) as [|_]; [lia|].
      now apply nth_lookup_Some.
Qed.

End EventIds.

(** ** Construction and filtering of an event container *)

Lemma min_nonneg (x : Z) (v : list Z) :
  (0 <= foldr Z.min x v)%Z <-> Forall (fun y => (0 <= y)%Z) (x :: v).
Proof.
  induction v as [|y v IH]; simpl.
  - split; [intros H; repeat constructor; exact H | intros H].
    now apply Forall_inv in H.
  - split.
    + intros H.
      assert (0 <= y)%Z as Hy by lia.
      assert (0 <= foldr Z.min x v)%Z as Hm by lia.
      apply IH in Hm. inversion Hm; subst. now repeat constructor.
    + intros H. inversion H as [|? ? Hx Hr]; subst.
      inversion Hr as [|? ? Hy Hv]; subst.
      assert (0 <= foldr Z.min x v)%Z by (apply IH; now constructor).
      lia.
Qed.

Lemma max_below (n x : Z) (v : list Z) :
  (foldr Z.max x v < n)%Z <-> Forall (fun y => (y < n)%Z) (x :: v).
Proof.
  induction v as [|y v IH]; simpl.
  - split; [intros H; repeat constructor; exact H | intros H].
    now apply Forall_inv in H.
  - split.
    + intros H.
      assert (y < n)%Z as Hy by lia.
      assert (foldr Z.max x v < n)%Z as Hm by lia.
      apply IH in Hm. inversion Hm; subst. now repeat constructor.
    + intros H. inversion H as [|? ? Hx Hr]; subst.
      inversion Hr as [|? ? Hy Hv]; subst.
      assert (foldr Z.max x v < n)%Z by (apply IH; now constructor).
      lia.
Qed.

Section Construction.

Context {F : Type}.
Variable self : Container.t F.
Variable n_otypes : nat.

Lemma init_given (v : list Z) :
  (v <> [] /\ Forall (fun ot => (0 <= ot < Z.of_nat n_otypes)%Z) v ->
   Container.init self n_otypes (Some (Arr1 v))
   = Ok (Container.mk (Container.n_objects self)
           (Container.eid self) (Container.iid self) (length v) v
           0 None None)) /\
  (~ (v <> [] /\ Forall (fun ot => (0 <= ot < Z.of_nat n_otypes)%Z) v) ->
   Container.init self n_otypes (Some (Arr1 v)) = Raise ValueError).
Proof.
  unfold Container.init. destruct v as [|x v].
  { simpl. split; [intros [H _]; congruence | reflexivity]. }
  cbn [np_min np_max rbind].
  pose proof (min_nonneg x v) as Hmin.
  pose proof (max_below (Z.of_nat n_otypes) x v) as Hmax.
  destruct (Z.ltb_spec (foldr Z.min x v) 0) as [Hlo|Hlo].
  - split; [|reflexivity]. intros [_ H].
    exfalso. assert (0 <= foldr Z.min x v)%Z; [|lia].
    apply Hmin. eapply Forall_impl; [exact H|]. intros y Hy.
    cbv beta in Hy. lia.
  - destruct (Z.leb_spec (Z.of_nat n_otypes) (foldr Z.max x v))
      as [Hhi|Hhi].
    + split; [|reflexivity]. intros [_ H].
      exfalso. assert (foldr Z.max x v < Z.of_nat n_otypes)%Z; [|lia].
      apply Hmax. eapply Forall_impl; [exact H|]. intros y Hy.
      cbv beta in Hy. lia.
    + split; [reflexivity|]. intros H.
      exfalso. apply H. split; [discriminate|].
      apply Hmin in Hlo. apply Hmax in Hhi.
      apply Forall_forall. intros y Hy.
      pose proof (proj1 (Forall_forall _ _) Hlo y Hy).
      pose proof (proj1 (Forall_forall _ _) Hhi y Hy).
      cbv beta in *. lia.
Qed.

(** X16.  The constructor of [EventData] accepts exactly the
    specifications of event columns it can use: no specification, which
    makes one column per object type in their order, or a non-empty
    one-dimensional array of object types all in 0 .. n_otypes - 1;
    every other specification (two-dimensional, empty, an entry out of
    range) raises ValueError.  On success the size of an event is the
    number of columns, every column has an object type in range, there
    is no event yet, and the id tables are untouched, so that the
    object is well formed as soon as the base class provides counts and
    tables for n_otypes object types. *)
Theorem init_event_otypes (otypes : option int_ndarray) :
  (forall e, Container.init self n_otypes otypes = Raise e ->
     e = ValueError) /\
  ((exists d, Container.init self n_otypes otypes = Ok d) <->
   otypes = None \/
   exists v, otypes = Some (Arr1 v) /\ v <> [] /\
     Forall (fun ot => (0 <= ot < Z.of_nat n_otypes)%Z) v) /\
  (forall d, Container.init self n_otypes otypes = Ok d ->
     Container.event_otypes d
     = match otypes with
       | Some (Arr1 v) => v
       | _ => map Z.of_nat (seq 0 n_otypes)
       end /\
     Container.s_event d = length (Container.event_otypes d) /\
     Container.event d = None /\ Container.n_events d = 0%nat /\
     Container.eid d = Container.eid self /\
     Container.iid d = Container.iid self /\
     Container.n_objects d = Container.n_objects self /\
     (length (Container.n_objects self) = n_otypes ->
      length (Container.eid self) = n_otypes ->
      length (Container.iid self) = n_otypes ->
      Container.wf d n_otypes)).
Proof.
  destruct otypes as [[v|c rows]|].
  - destruct (init_given v) as [Hok Hbad].
    destruct (decide (v <> [] /\
                      Forall (fun ot => (0 <= ot < Z.of_nat n_otypes)%Z)
                             v)) as [Hv|Hv].
    + rewrite (Hok Hv). split; [discriminate|]. split.
      * split; [intros _; right; now exists v | intros _; eauto].
      * intros d [= <-]. cbn. destruct Hv as [Hne Hr].
        repeat split; try reflexivity; assumption.
    + rewrite (Hbad Hv). split; [now intros e [= <-]|]. split.
      * split; [intros [d Hd]; discriminate|].
        intros [H|(v' & [= <-] & Hne & Hr)]; [discriminate|].
        exfalso. now apply Hv.
      * discriminate.
  - cbn. split; [now intros e [= <-]|]. split.
    + split; [intros [d Hd]; discriminate|].
      intros [H|(v' & H & _)]; discriminate.
    + discriminate.
  - cbn. split; [discriminate|]. split.
    + split; [now left | eauto].
    + intros d [= <-]. unfold Container.wf. cbn.
      repeat split; try reflexivity; try assumption.
      * now rewrite length_map, length_seq.
      * now rewrite length_map, length_seq.
      * apply Forall_map, Forall_forall. intros j Hj.
        apply list_elem_of_In, in_seq in Hj. cbv beta. lia.
Qed.

End Construction.

Lemma mask_select_zip {A B} (mask : list bool) (a : list A) (b : list B) :
  zip (mask_select mask a) (mask_select mask b)
  = mask_select mask (zip a b).
Proof.
  revert a b. induction mask as [|m mask IH]; intros [|x a] [|y b];
    simpl; try reflexivity.
  - now destruct m; destruct (mask_select mask a).
  - destruct m; [|apply IH]. simpl. f_equal. apply IH.
Qed.

Lemma mask_select_sublist {A} (mask : list bool) (a : list A) :
  sublist (mask_select mask a) a.
Proof.
  revert a. induction mask as [|m mask IH]; intros [|x a]; simpl;
    try apply sublist_nil_l.
  destruct m; [apply sublist_skip | apply sublist_cons]; apply IH.
Qed.

Lemma mask_select_all {A} (a : list A) :
  mask_select (replicate (length a) true) a = a.
Proof. induction a as [|x a IH]; simpl; [reflexivity | now rewrite IH]. Qed.

Lemma mask_select_none {A} (a : list A) :
  mask_select (replicate (length a) false) a = [].
Proof. induction a as [|x a IH]; simpl; [reflexivity | exact IH]. Qed.

Section Filtering.

Context {F : Type}.
Variable self : Container.t F.

(** X17.  [filter_event] replaces the events by those whose condition
    is true, in their order, and the features by the features of the
    same events, so that events and features stay aligned; it changes
    neither the id tables, nor the object counts, nor [n_events], which
    keeps the number of events before the filtering.  A condition that
    is true everywhere changes nothing, one that is false everywhere
    leaves an empty event array; without events the call does nothing;
    a condition with at least one entry and of another length than the
    event array raises IndexError, whereas a condition without any entry
    is taken, and leaves no event and no feature. *)
Theorem filter_event_keeps_alignment (filter_cond : list bool) :
  (Container.event self = None ->
   Container.filter_event self filter_cond = Ok self) /\
  (forall ev, Container.event self = Some ev ->
     filter_cond <> [] ->
     length filter_cond <> length ev ->
     Container.filter_event self filter_cond = Raise IndexError) /\
  (forall ev, Container.event self = Some ev ->
     filter_cond = [] ->
     Container.filter_event self filter_cond
     = Ok (Container.mk (Container.n_objects self) (Container.eid self)
             (Container.iid self) (Container.s_event self)
             (Container.event_otypes self) (Container.n_events self)
             (Some [])
             (match Container.event_feature self with
              | Some _ => Some []
              | None => None
              end))) /\
  (forall ev ft,
     Container.event self = Some ev ->
     Container.event_feature self = Some ft ->
     length ft = length ev ->
     length filter_cond = length ev ->
     exists ev' ft',
       Container.filter_event self filter_cond
       = Ok (Container.mk (Container.n_objects self) (Container.eid self)
               (Container.iid self) (Container.s_event self)
               (Container.event_otypes self) (Container.n_events self)
               (Some ev') (Some ft')) /\
       zip ev' ft' = mask_select filter_cond (zip ev ft) /\
       sublist ev' ev /\
       (filter_cond = replicate (length ev) true ->
        ev' = ev /\ ft' = ft) /\
       (filter_cond = replicate (length ev) false ->
        ev' = [] /\ ft' = [])).
Proof.
  unfold Container.filter_event. split; [|split; [|split]].
  - now intros ->.
  - intros ev -> Hne Hlen. unfold bool_index.
    rewrite (proj2 (Nat.eqb_neq _ _) Hlen).
    destruct filter_cond; [congruence | reflexivity].
  - intros ev -> ->.
    assert (forall A (a : list A), bool_index a [] = Ok []) as Hempty.
    { intros A a. unfold bool_index. simpl.
      destruct a; reflexivity. }
    rewrite Hempty. cbn [rbind].
    destruct (Container.event_feature self) as [ft|]; [|reflexivity].
    rewrite Hempty. reflexivity.
  - intros ev ft -> -> Hft Hm. unfold bool_index.
    rewrite Hft, Hm, Nat.eqb_refl. cbn [rbind].
    eexists _, _. split; [reflexivity|].
    split; [apply mask_select_zip|].
    split; [apply mask_select_sublist|].
    split; intros ->.
    + split; [apply mask_select_all|].
      rewrite <- Hft. apply mask_select_all.
    + split; [apply mask_select_none|].
      rewrite <- Hft. apply mask_select_none.
Qed.

End Filtering.
(** ** The two readings of [to_iid_event]

    On a recommender, the conversion used by [predict] above is the
    two-dimensional branch of the method of the container that holds the
    recommender's counts, tables and event information, called without
    [missing_values]. *)

Lemma rfoldM_ext {A S} (f g : S -> A -> result S) (l : list A) (s : S) :
  (forall s x, f s x = g s x) -> rfoldM f s l = rfoldM g s l.
Proof.
  intros H. revert s. induction l as [|x l IH]; intros s; simpl;
    [reflexivity|].
  rewrite H. destruct (g s x); cbn [rbind]; [apply IH | reflexivity].
Qed.

Lemma fetch_then_store (g : result Z) (d : gmap Z Z) (col : list Z) :
  (let* vals := rmapM (fun i => let* mv := g in Ok (dict_get d i mv)) col in
   rmapM (store_int false) vals)
  = rmapM (fun i => let* mv := g in Ok (default mv (d !! i))) col.
Proof.
  destruct g as [mv|e]; cbn [rbind].
  - rewrite (rmapM_ok _ (fun i => dict_get d i mv))
      by (apply Forall_true; reflexivity).
    cbn [rbind].
    rewrite (rmapM_ok _ fetched_value)
      by (apply Forall_true; intros [i|v]; reflexivity).
    rewrite (rmapM_ok _ (fun i => default mv (d !! i)))
      by (apply Forall_true; reflexivity).
    f_equal. rewrite map_map. apply map_ext. intros i.
    apply fetched_default.
  - destruct col; reflexivity.
Qed.

Lemma to_iid_event_same (self : recommender) (eids : list (list Z))
  (ev : int_array2) :
  Container.to_iid_event
    (Container.mk (F:=unit) (n_objects self) eids (iid self)
       (s_event self) (event_otypes self) 0 None None)
    (Arr2 (shape1 ev) ev) None
  = let* new_ev := to_iid_event self ev in Ok (Arr2 (shape1 ev) new_ev).
Proof.
  unfold Container.to_iid_event, to_iid_event. cbn [Container.n_objects
    Container.event_otypes Container.s_event Container.iid].
  destruct (Np.take (n_objects self) (event_otypes self)) as [mv|e];
    cbn [rbind]; [|reflexivity].
  destruct (shape1 ev =? s_event self)%nat; [|reflexivity].
  rewrite (rfoldM_ext _ (to_iid_column self mv ev)); [reflexivity|].
  intros new_ev e. unfold Container.iid_column, to_iid_column.
  cbn [Container.event_otypes Container.iid].
  destruct (Np.getitem (event_otypes self) (Z.of_nat e)) as [ot|x];
    cbn [rbind]; [|reflexivity].
  destruct (Np.getitem (iid self) ot) as [d|x]; cbn [rbind];
    [|reflexivity].
  destruct (icolumn ev (Z.of_nat e)) as [col|x]; cbn [rbind];
    [|reflexivity].
  rewrite <- fetch_then_store.
  destruct (rmapM _ col) as [vals|x]; cbn [rbind]; reflexivity.
Qed.

(** ** The further properties at concrete inputs *)

Lemma example_valid : valid_events 3 2 example_ev.
Proof. repeat constructor; simpl; lia. Defined.

Lemma loss_index_range_witness :
  let st := mkState (mkDtype 3 2 1) [] (1 / 10) example_rng in
  loss st example_coef [(-1, 0)%Z] [5]
  = Ok (spec_loss (1 / 10) (spec_regions 3 2 1 example_coef)
          [(2, 0)%Z] [5]) /\
  loss st example_coef [(3, 0)%Z] [5] = Raise IndexError.
Proof.
  intros st. split.
  - destruct (loss_index_range st example_coef [(-1, 0)%Z] [5] 3 2 1
                eq_refl ltac:(discriminate) ltac:(discriminate) eq_refl
                ltac:(discriminate) eq_refl) as [_ H].
    apply H. repeat constructor; unfold axis_accepted; simpl; lia.
  - destruct (loss_index_range st example_coef [(3, 0)%Z] [5] 3 2 1
                eq_refl ltac:(discriminate) ltac:(discriminate) eq_refl
                ltac:(discriminate) eq_refl) as [H _].
    apply H. constructor. left. unfold axis_accepted. simpl. lia.
Defined.

Lemma grad_loss_rejects_negative_witness :
  let st := mkState (mkDtype 3 2 1) [] (1 / 10) example_rng in
  grad_loss example_self st example_coef [(-1, 0)%Z] [5] 3 2
  = Raise ValueError.
Proof.
  intros st.
  apply (grad_loss_rejects_negative example_self st example_coef
           [(-1, 0)%Z] [5] 3 2 eq_refl ltac:(discriminate)
           ltac:(discriminate) eq_refl eq_refl).
  - repeat constructor; unfold axis_accepted; simpl; lia.
  - constructor. left. simpl. lia.
Defined.

Lemma example_init :
  exists st,
    _init_coef example_self example_ev example_sc 3 2 example_rng = Ok st.
Proof. eexists. vm_compute. reflexivity. Defined.

Lemma loss_nonnegative_witness :
  exists st x,
    _init_coef example_self example_ev example_sc 3 2 example_rng = Ok st /\
    loss st example_zeros example_ev example_sc = Ok x /\ 0 <= x.
Proof.
  destruct example_init as [st Hst]. exists st.
  destruct (loss_nonnegative example_self example_ev example_sc 3 2
              example_rng st example_zeros example_ev example_sc Hst)
    as (x & Hx & H0).
  - simpl. lra.
  - reflexivity.
  - discriminate.
  - reflexivity.
  - exact example_valid.
  - exists x. split; [exact Hst|]. split; [exact Hx | exact H0].
Defined.

Lemma grad_loss_without_events_witness :
  let st := mkState (mkDtype 3 2 1) [] (1 / 10) example_rng in
  exists g,
    grad_loss example_self st [0; 0; 0; 7; 0; 0; 0; 0; 0; 0; 0]
              [(0, 0); (1, 1)]%Z [5; 3] 3 2 = Ok g /\
    g !! 3%nat = Some (1 / 10 * 7).
Proof.
  intros st.
  destruct (grad_loss_without_events example_self st
              [0; 0; 0; 7; 0; 0; 0; 0; 0; 0; 0] [(0, 0); (1, 1)]%Z
              [5; 3] 3 2 eq_refl ltac:(discriminate) ltac:(discriminate)
              eq_refl ltac:(discriminate) eq_refl)
    as (g & Hg & H).
  - repeat constructor; simpl; lia.
  - exists g. split; [exact Hg|].
    apply (H (Cbu 2)); simpl; [lia|].
    repeat constructor; simpl; lia.
Defined.

Lemma loss_without_factors_witness :
  let st := mkState (mkDtype 3 2 0) [] (1 / 10) example_rng in
  exists x,
    loss st [3; 1; 0; -1; 1; -1] example_ev example_sc = Ok x.
Proof.
  intros st. eexists.
  apply (loss_without_factors st [3; 1; 0; -1; 1; -1] example_ev
           example_sc 3 2 eq_refl ltac:(discriminate) ltac:(discriminate)
           eq_refl ltac:(discriminate) eq_refl example_valid).
Defined.

Lemma loss_score_length_witness :
  let st := mkState (mkDtype 3 2 1) [] (1 / 10) example_rng in
  loss st example_coef example_ev [5; 3] = Raise ValueError.
Proof.
  intros st.
  destruct (loss_score_length st example_coef example_ev [5; 3] 3 2 1
              eq_refl ltac:(discriminate) ltac:(discriminate) eq_refl
              ltac:(discriminate) example_valid)
    as [H _].
  apply H; simpl; lia.
Defined.

Lemma initial_factors_witness :
  exists st,
    _init_coef example_self example_ev example_sc 3 2 example_rng = Ok st /\
    forall j, _rng st j = example_rng (5 + j)%nat.
Proof.
  destruct (initial_factors example_self example_ev example_sc 3 2
              example_rng ltac:(discriminate) ltac:(discriminate)
              ltac:(discriminate) eq_refl example_valid)
    as (st & Hst & _ & _ & Hrng).
  exists st. split; [exact Hst | exact Hrng].
Defined.

Lemma cg_eval_shape :
  forall f x0 g gtol maxit res,
    cg_eval f x0 g gtol maxit = Ok res -> length (xopt res) = length x0.
Proof.
  intros f x0 g gtol maxit res H. unfold cg_eval in H.
  destruct (f x0); cbn in H; [|discriminate].
  injection H as <-. reflexivity.
Defined.

Lemma cg_eval_value :
  forall f x0 g gtol maxit res,
    cg_eval f x0 g gtol maxit = Ok res -> f (xopt res) = Ok (fopt res).
Proof.
  intros f x0 g gtol maxit res H. unfold cg_eval in H.
  destruct (f x0) eqn:E; cbn in H; [|discriminate].
  injection H as <-. exact E.
Defined.

Lemma example_fit_eval :
  exists m,
    fit cg_eval example_self example_ev example_sc 3 2 None example_rng
    = Ok m.
Proof. eexists. vm_compute. reflexivity. Defined.

Lemma fit_predicts_optimum_witness :
  exists m st res,
    fit cg_eval example_self example_ev example_sc 3 2 None example_rng
    = Ok m /\
    _init_coef example_self example_ev example_sc 3 2 example_rng = Ok st /\
    cg_eval (fun c => loss st c example_ev example_sc) (_coef st)
            (fun c => grad_loss example_self st c example_ev example_sc
                        3 2)
            None (200 * 11)
    = Ok res /\
    raw_predict m [[0; 1]%Z]
    = Ok [predicted (spec_regions 3 2 1 (xopt res)) (0, 1)%Z].
Proof.
  destruct example_fit_eval as [m Hm]. exists m.
  destruct (fit_predicts_optimum cg_eval cg_eval_shape example_self
              example_ev example_sc 3 2 None example_rng m Hm)
    as (st & res & Hst & Hres & Hp).
  exists st, res. split; [exact Hm|]. split; [exact Hst|].
  split; [exact Hres|].
  apply (Hp [(0, 1)%Z]). repeat constructor; simpl; lia.
Defined.

Lemma fit_final_loss_witness :
  exists m pred,
    fit cg_eval example_self example_ev example_sc 3 2 None example_rng
    = Ok m /\
    raw_predict m (rows_of example_ev) = Ok pred /\
    final_loss (fit_results_ m)
    = sumsq (zip_with Rminus example_sc pred) / INR 4
      + 1 / 10 / INR (1 + (1 + 1) * (3 + 2))
        * (sumsq (bu_ m) + sumsq (bi_ m)
           + sumsq (concat (p_ m)) + sumsq (concat (q_ m))).
Proof.
  destruct example_fit_eval as [m Hm]. exists m.
  destruct (fit_final_loss cg_eval cg_eval_shape cg_eval_value
              example_self example_ev example_sc 3 2 None example_rng m
              Hm eq_refl example_valid) as (pred & Hp & Hf).
  exists pred. split; [exact Hm|]. split; [exact Hp | exact Hf].
Defined.

Lemma example_wf : Container.wf example_container 2.
Proof.
  unfold Container.wf. simpl.
  repeat split; try reflexivity. repeat constructor; lia.
Defined.

Lemma example_tables_inverse : Container.tables_inverse example_container.
Proof.
  intros ot tbl d Ht Hd x i.
  destruct ot as [|[|ot]]; simpl in Ht, Hd; try discriminate;
    injection Ht as <-; injection Hd as <-.
  - unfold example_users. split.
    + intros H.
      repeat (apply lookup_insert_Some in H as [[<- <-]|[_ H]];
              [split; [lia | reflexivity]|]).
      apply lookup_singleton_Some in H as [<- <-].
      split; [lia | reflexivity].
    + intros [H0 H].
      destruct (Z.to_nat i) as [|[|[|n]]] eqn:E; simpl in H;
        try discriminate; injection H as <-.
      * replace i with 0%Z by lia. reflexivity.
      * replace i with 1%Z by lia. reflexivity.
      * replace i with 2%Z by lia. reflexivity.
  - unfold example_items. split.
    + intros H.
      repeat (apply lookup_insert_Some in H as [[<- <-]|[_ H]];
              [split; [lia | reflexivity]|]).
      apply lookup_singleton_Some in H as [<- <-].
      split; [lia | reflexivity].
    + intros [H0 H].
      destruct (Z.to_nat i) as [|[|n]] eqn:E; simpl in H;
        try discriminate; injection H as <-.
      * replace i with 0%Z by lia. reflexivity.
      * replace i with 1%Z by lia. reflexivity.
Defined.

Lemma to_eid_range_witness :
  Container.to_eid example_container 0 (-1) = Ok 12%Z.
Proof.
  destruct (to_eid_range example_container 0 [10; 11; 12]%Z (-1)
              eq_refl) as (_ & _ & H & _).
  apply H. simpl. lia.
Defined.

Lemma to_iid_to_eid_roundtrip_witness :
  Container.to_iid example_container 0 11 = Ok 1%Z /\
  Container.to_eid example_container 0 1 = Ok 11%Z.
Proof.
  destruct (to_iid_to_eid_roundtrip example_container 0
              [10; 11; 12]%Z example_users example_tables_inverse
              eq_refl eq_refl) as (_ & H & _).
  apply (H 11%Z 1%Z). reflexivity.
Defined.

Lemma to_iid_event_entries_witness :
  Container.to_iid_event example_container (Arr2 2 [[11; 99]; [77; 20]]%Z)
                         (Some [-1; -1]%Z)
  = Ok (Arr2 2 [[1; -1]; [-1; 0]]%Z) /\
  Container.to_iid_event example_container (Arr2 2 [[11; 99]; [77; 20]]%Z)
                         None
  = Ok (Arr2 2 [[1; 2]; [3; 0]]%Z) /\
  Container.to_iid_event example_container (Arr2 2 [[11; 20]; [77; 20]]%Z)
                         (Some [2 ^ 63; 0]%Z)
  = Raise OverflowError.
Proof.
  split; [|split].
  - destruct (to_iid_event_entries example_container 2 example_wf
                (Some [-1; -1]%Z)) as (H & _).
    + intros mv [= <-]. reflexivity.
    + apply (H ltac:(intros mv [= <-]; repeat constructor)
               [[11; 99]; [77; 20]]%Z).
      repeat constructor.
  - destruct (to_iid_event_entries example_container 2 example_wf None)
      as (H & _).
    + discriminate.
    + apply (H ltac:(discriminate) [[11; 99]; [77; 20]]%Z).
      repeat constructor.
  - destruct (to_iid_event_entries example_container 2 example_wf
                (Some [2 ^ 63; 0]%Z)) as (_ & _ & _ & H).
    + intros mv [= <-]. reflexivity.
    + apply (H [[11; 20]; [77; 20]]%Z); [discriminate | |].
      * repeat constructor.
      * exists 0%nat. split; [|reflexivity].
        apply Exists_cons_tl, Exists_cons_hd. exists 77%Z.
        split; reflexivity.
Defined.

Lemma to_eid_event_entries_witness :
  Container.to_eid_event example_container (Arr2 2 [[3; 0]]%Z)
  = Raise IndexError.
Proof.
  destruct (to_eid_event_entries example_container 2 example_wf
              ltac:(lia)) as (_ & _ & H & _).
  apply (H [[3; 0]]%Z); [repeat constructor|].
  constructor. exists 0%nat, 3%Z. split; [reflexivity|].
  unfold axis_accepted. simpl. lia.
Defined.

Lemma event_ids_roundtrip_witness :
  exists ext,
    Container.to_eid_event example_container
      (Arr2 2 [[0; 0]; [0; 1]; [1; 0]; [2; 1]]%Z) = Ok ext /\
    Container.to_iid_event example_container ext None
    = Ok (Arr2 2 [[0; 0]; [0; 1]; [1; 0]; [2; 1]]%Z).
Proof.
  destruct (event_ids_roundtrip example_container 2 example_wf
              ltac:(lia) example_tables_inverse
              [[0; 0]; [0; 1]; [1; 0]; [2; 1]]%Z) as [H _].
  - repeat constructor.
  - apply H. unfold Container.ids_in_range.
    do 4 (constructor;
          [intros [|[|e]] i Hi; simpl in Hi; try discriminate;
           injection Hi as <-; simpl; lia|]).
    constructor.
Defined.
